(** * robomesh: trigger scheduler and graph executor

    A shallow embedding of the two TypeScript units that carry the logic of
    the system:

    - the [TriggerManager] class (trigger registry, idle tracker, cron
      wrapper and the [checkAndFire] cycle), and
    - the workflow executor of [routes/execute.ts] (template substitution
      and the breadth-first traversal of the node graph).

    Conventions of the embedding.

    - A JavaScript [Date] is its [getTime()] value: milliseconds as [Z].
    - A JavaScript string is the sequence of its UTF-16 code units; the
      model has the strings whose code units are below 256 (Latin-1), as
      a [string]. On these the regular-expression class [\s] and [trim]
      see TAB, LF, VT, FF, CR, SPACE and the no-break space U+00A0, and
      [toLowerCase] maps A-Z and the capital letters U+00C0-U+00DE (but
      the sign U+00D7) to the letter 32 code units further.
    - A JavaScript [Map] iterates in insertion order, so it is an
      association list ([JsMap]) wherever the code iterates over it and a
      [gmap] where it only looks keys up.
    - Trigger records are objects shared by reference between the registry,
      the arrays returned by the queries and the callers; the model keeps
      them in an object store and passes indices into it.
    - Code that can throw runs in the monad [Eff]; [try]/[catch] is
      [tryCatch]. *)

From Stdlib Require Import ZArith QArith Qround String Ascii List Lia Bool.
From stdpp Require Import base gmap sets list strings pretty.

Open Scope list_scope.
Open Scope string_scope.
Open Scope Z_scope.

(** ** JavaScript string primitives *)

Module Js.

Definition LF : ascii := ascii_of_nat 10.
Definition dquote : string := String (ascii_of_nat 34) EmptyString.

(** The class [\s] of regular expressions, which is also what [trim]
    removes: WhiteSpace and LineTerminator of ECMAScript. Below 256 these
    are U+0009-U+000D, U+0020 and U+00A0. *)
Definition isSpace (c : ascii) : bool :=
  let n := nat_of_ascii c in
  ((9 <=? n)%nat && (n <=? 13)%nat) || (n =? 32)%nat || (n =? 160)%nat.

Definition isUpper (c : ascii) : bool :=
  let n := nat_of_ascii c in (65 <=? n)%nat && (n <=? 90)%nat.
Definition isLower (c : ascii) : bool :=
  let n := nat_of_ascii c in (97 <=? n)%nat && (n <=? 122)%nat.
Definition isDigit (c : ascii) : bool :=
  let n := nat_of_ascii c in (48 <=? n)%nat && (n <=? 57)%nat.

(** The code units below 256 that [toLowerCase] changes: A-Z, and
    U+00C0-U+00DE without the multiplication sign U+00D7. *)
Definition isCapital (c : ascii) : bool :=
  let n := nat_of_ascii c in
  isUpper c
  || ((192 <=? n)%nat && (n <=? 222)%nat && negb (n =? 215)%nat).

Definition lowerChar (c : ascii) : ascii :=
  if isCapital c then ascii_of_nat (nat_of_ascii c + 32) else c.

(** [String.prototype.toLowerCase] *)
Fixpoint toLowerCase (s : string) : string :=
  match s with
  | EmptyString => EmptyString
  | String c s' => String (lowerChar c) (toLowerCase s')
  end.

(** [String.prototype.trimStart] *)
Fixpoint trimStart (s : string) : string :=
  match s with
  | EmptyString => EmptyString
  | String c s' => if isSpace c then trimStart s' else s
  end.

(** [String.prototype.trimEnd] *)
Fixpoint trimEnd (s : string) : string :=
  match s with
  | EmptyString => EmptyString
  | String c s' =>
      match trimEnd s' with
      | EmptyString => if isSpace c then EmptyString else String c EmptyString
      | t => String c t
      end
  end.

(** [String.prototype.trim] *)
Definition trim (s : string) : string := trimEnd (trimStart s).

(** [s.split('\n')]: never the empty array. *)
Fixpoint splitLines (s : string) : list string :=
  match s with
  | EmptyString => [EmptyString]
  | String c s' =>
      if Ascii.eqb c LF then EmptyString :: splitLines s'
      else match splitLines s' with
           | h :: t => String c h :: t
           | [] => [String c EmptyString]
           end
  end.

(** [parts.join(sep)] *)
Fixpoint join (sep : string) (parts : list string) : string :=
  match parts with
  | [] => EmptyString
  | [p] => p
  | p :: rest => p ++ sep ++ join sep rest
  end.

(** [s.startsWith(p)] *)
Definition startsWith (p s : string) : bool := String.prefix p s.

(** [s.replace(/\s+/g, '_')]: every maximal run of white space becomes one
    underscore. [inRun] tells that the previous character was white space. *)
Fixpoint replaceSpaceRuns (inRun : bool) (s : string) : string :=
  match s with
  | EmptyString => EmptyString
  | String c s' =>
      if isSpace c
      then (if inRun then replaceSpaceRuns true s'
            else String "_" (replaceSpaceRuns true s'))
      else String c (replaceSpaceRuns false s')
  end.

(** JavaScript truthiness of a string, and of an optional string. *)
Definition truthy (s : string) : bool :=
  match s with EmptyString => false | _ => true end.

Definition truthyOpt (o : option string) : bool :=
  match o with Some s => truthy s | None => false end.

(** [a || b] on optional strings. *)
Definition orElse (o : option string) (d : string) : string :=
  match o with
  | Some s => if truthy s then s else d
  | None => d
  end.

End Js.

(** ** Insertion-ordered maps ([Map] where the code iterates) *)

Module JsMap.
Section JsMap.
Context {V : Type}.

Fixpoint get (k : string) (m : list (string * V)) : option V :=
  match m with
  | [] => None
  | (k', v) :: m' => if String.eqb k k' then Some v else get k m'
  end.

Definition has (k : string) (m : list (string * V)) : bool :=
  match get k m with Some _ => true | None => false end.

(** [m.set(k, v)]: an existing key keeps its position. *)
Fixpoint set (k : string) (v : V) (m : list (string * V)) : list (string * V) :=
  match m with
  | [] => [(k, v)]
  | (k', v') :: m' =>
      if String.eqb k k' then (k', v) :: m' else (k', v') :: set k v m'
  end.

(** [m.delete(k)]: the map without the key. *)
Fixpoint delete (k : string) (m : list (string * V)) : list (string * V) :=
  match m with
  | [] => []
  | (k', v') :: m' =>
      if String.eqb k k' then m' else (k', v') :: delete k m'
  end.

Definition keys (m : list (string * V)) : list string := map fst m.
Definition values (m : list (string * V)) : list V := map snd m.

(** [new Map(entries)] *)
Definition ofList (entries : list (string * V)) : list (string * V) :=
  fold_left (fun m e => set (fst e) (snd e) m) entries [].
End JsMap.
End JsMap.

(** ** Code that can throw *)

(** A computation over a state of type [S] that returns a value or throws
    an [Error] carrying a message. *)
Definition Eff (S A : Type) : Type := S -> (A + string) * S.

#[global] Instance Eff_ret {S} : MRet (Eff S) := fun A a s => (inl a, s).

#[global] Instance Eff_bind {S} : MBind (Eff S) := fun A B k c s =>
  match c s with
  | (inl a, s') => k a s'
  | (inr e, s') => (inr e, s')
  end.

Definition throw {S A} (msg : string) : Eff S A := fun s => (inr msg, s).

(** [try { body } catch (err) { handler(err) }] *)
Definition tryCatch {S A} (body : Eff S A) (handler : string -> Eff S A) : Eff S A :=
  fun s =>
    match body s with
    | (inl a, s') => (inl a, s')
    | (inr e, s') => handler e s'
    end.

Definition gets {S A} (f : S -> A) : Eff S A := fun s => (inl (f s), s).
Definition modify {S} (f : S -> S) : Eff S unit := fun s => (inl tt, f s).

(** [for (const x of xs) body(x)] *)
Fixpoint forOf {S A} (xs : list A) (body : A -> Eff S unit) : Eff S unit :=
  match xs with
  | [] => mret tt
  | x :: rest => body x ;; forOf rest body
  end.

(** ** The trigger manager *)

Module Triggers.

(** A [Date], as its [getTime()]. *)
Abbreviation Date := Z (only parsing).

(** Modelled from the spec: the declarations of [types.ts] are not among the
    sources. [TriggerConfig] has the fields the manager reads: the tag
    [type] (compared with ['cron'] and ['idle']), the optional expression
    [cron] and the optional threshold [idleMinutes], a whole number of
    minutes. *)
Record TriggerConfig := {
  type : string;
  cron : option string;
  idleMinutes : option Z;
}.

(** Modelled from the spec: [RegisteredTrigger] of [types.ts], with the
    fields [register] fills in. *)
Record RegisteredTrigger := {
  id : string;
  workspace : string;
  workflowPath : string;
  nodeId : string;
  label : string;
  config : TriggerConfig;
  enabled : bool;
  nextRun : option Date;
  lastRun : option Date;
}.

Definition with_enabled (b : bool) (t : RegisteredTrigger) : RegisteredTrigger :=
  {| id := id t; workspace := workspace t; workflowPath := workflowPath t;
     nodeId := nodeId t; label := label t; config := config t;
     enabled := b; nextRun := nextRun t; lastRun := lastRun t |}.

Definition with_nextRun (d : option Date) (t : RegisteredTrigger) : RegisteredTrigger :=
  {| id := id t; workspace := workspace t; workflowPath := workflowPath t;
     nodeId := nodeId t; label := label t; config := config t;
     enabled := enabled t; nextRun := d; lastRun := lastRun t |}.

Definition with_lastRun (d : option Date) (t : RegisteredTrigger) : RegisteredTrigger :=
  {| id := id t; workspace := workspace t; workflowPath := workflowPath t;
     nodeId := nodeId t; label := label t; config := config t;
     enabled := enabled t; nextRun := nextRun t; lastRun := d |}.

(** A reference to a trigger object: its index in the object store. *)
Abbreviation ref := nat (only parsing).

(** What code outside the manager can reach of it, through its methods and
    through the trigger objects it hands out: the objects, the registry and
    the idle state. *)
Record Reach := {
  objects : list RegisteredTrigger;
  registry : list (string * ref);
  idle : option Date;
}.

(** What the manager takes from its environment: the state of the outside
    world, the injected [Clock], the [cron-parser] package, [Math.random]
    and the file system behind [save]. *)
Class Host := {
  World : Type;
  (** [clock.now()] *)
  clock_now : World -> Date;
  (** a parsed cron expression *)
  CronExpression : Type;
  (** [CronExpressionParser.parse(expr, options)]: the expression, or the
      message of the error thrown; whether an expression parses does not
      depend on the options *)
  cron_parse : string -> CronExpression + string;
  (** [expr.next().toDate()] for the given [currentDate], in UTC: the
      date, or the message of the error thrown *)
  cron_next : CronExpression -> Date -> Date + string;
  (** [Math.random()] *)
  Math_random : World -> Q * World;
  (** [fs.mkdir] and [fs.writeFile] of [save]: the world after the write,
      and the message of the error thrown if one was *)
  fs_writeState : string -> list (string * RegisteredTrigger) -> Date ->
                  World -> option string * World;
}.

Section Manager.
Context {host : Host}.

(** The fire callback is asynchronous code of the caller. Called with
    the trigger object, it acts on the world; it may assign to the fields
    of that object and of the other trigger objects, and call the methods
    of the manager ([register], [unregister], [setEnabled], [setIdle],
    [clear], [load], [onFire], ...); other callers of the manager may run
    while it is awaited; in the end it returns or throws (rejects) with a
    message. [body] gives all of this at once: from the reference passed,
    what is in reach of the manager and the world, it gives the message
    thrown if any, what is left in reach of the manager, the world left,
    and the callback installed by [onFire] if one was. *)
#[local] Unset Elimination Schemes.
Inductive Callback :=
  | Fn (body : ref -> Reach -> World ->
               option string * Reach * World * option Callback).
#[local] Set Elimination Schemes.

(** The fields of the class. [heap] is the object store of the trigger
    records; the [Map] [triggers] holds references into it. *)
Record TriggerManager := {
  heap : list RegisteredTrigger;
  triggers : list (string * ref);
  onTriggerFire : option Callback;
  triggersFile : option string;
  idleSince : option Date;
}.

Definition with_heap (h : list RegisteredTrigger) (m : TriggerManager) :=
  {| heap := h; triggers := triggers m; onTriggerFire := onTriggerFire m;
     triggersFile := triggersFile m; idleSince := idleSince m |}.

Definition with_triggers (ts : list (string * ref)) (m : TriggerManager) :=
  {| heap := heap m; triggers := ts; onTriggerFire := onTriggerFire m;
     triggersFile := triggersFile m; idleSince := idleSince m |}.

Definition with_onTriggerFire (cb : option Callback) (m : TriggerManager) :=
  {| heap := heap m; triggers := triggers m; onTriggerFire := cb;
     triggersFile := triggersFile m; idleSince := idleSince m |}.

Definition with_idleSince (d : option Date) (m : TriggerManager) :=
  {| heap := heap m; triggers := triggers m; onTriggerFire := onTriggerFire m;
     triggersFile := triggersFile m; idleSince := d |}.

(** What a callback finds in reach. *)
Definition reach (m : TriggerManager) : Reach :=
  {| objects := heap m; registry := triggers m; idle := idleSince m |}.

(** The manager as a call of the callback leaves it. Objects are not
    destroyed: an object the callback does not give back is as it was. *)
Definition leave (kept : Reach) (installed : option Callback) (m : TriggerManager)
    : TriggerManager :=
  {| heap := (objects kept ++ drop (length (objects kept)) (heap m))%list;
     triggers := registry kept;
     onTriggerFire := match installed with
                      | Some callback => Some callback
                      | None => onTriggerFire m
                      end;
     triggersFile := triggersFile m;
     idleSince := idle kept |}.

(** [new TriggerManager({ clock, triggersFile })] *)
Definition newManager (file : option string) : TriggerManager :=
  {| heap := []; triggers := []; onTriggerFire := None;
     triggersFile := file; idleSince := None |}.

(** The manager in its world. [calls] is a history variable, absent from
    the source: the invocations of the fire callback so far, oldest first,
    each with the reference passed and whether the call returned. *)
Record Sys := {
  this : TriggerManager;
  world : World;
  calls : list (ref * bool);
}.

Definition onThis (f : TriggerManager -> TriggerManager) (s : Sys) : Sys :=
  {| this := f (this s); world := world s; calls := calls s |}.

Definition deref (s : Sys) (r : ref) : option RegisteredTrigger := heap (this s) !! r.

(** Assignment to fields of the object behind [r]. *)
Definition mutate (r : ref) (f : RegisteredTrigger -> RegisteredTrigger) : Eff Sys unit :=
  modify (onThis (fun m => with_heap (alter f r (heap m)) m)).

(** A new object literal: stored at a fresh reference. *)
Definition alloc (t : RegisteredTrigger) : Eff Sys ref := fun s =>
  (inl (length (heap (this s))),
   onThis (fun m => with_heap (heap m ++ [t])%list m) s).

Definition isSome {A} (o : option A) : bool :=
  match o with Some _ => true | None => false end.

Definition now : Eff Sys Date := gets (fun s => clock_now (world s)).

Definition getTriggerKey (workspace workflowPath nodeId : string) : string :=
  workspace ++ ":" ++ workflowPath ++ ":" ++ nodeId.

(** [getNextRunTime(cronExpr, from?)]. A [Date] object is truthy, so
    [from || this.clock.now()] is [from] whenever it is passed. *)
Definition getNextRunTime (cronExpr : string) (from : option Date) : Eff Sys Date :=
  baseTime ← match from with Some d => mret d | None => now end;
  tryCatch
    (match cron_parse cronExpr with
     | inl expr =>
         match cron_next expr baseTime with
         | inl d => mret d
         | inr err => throw err
         end
     | inr err => throw err
     end)
    (fun err =>
       throw ("Invalid cron expression " ++ Js.dquote ++ cronExpr ++ Js.dquote
              ++ ": " ++ err)).

Definition isValidCron (cronExpr : string) : bool :=
  if negb (Js.truthy cronExpr) || String.eqb (Js.trim cronExpr) EmptyString
  then false
  else match cron_parse cronExpr with
       | inl _ => true
       | inr _ => false
       end.

(** [this.triggers.get(id)] followed by a field read: [undefined] when the
    key is absent. *)
Definition lookupTrigger (key : string) (s : Sys) : option RegisteredTrigger :=
  r ← JsMap.get key (triggers (this s)); deref s r.

Definition register (workspace workflowPath nodeId label : string)
    (config : TriggerConfig) : Eff Sys ref :=
  let id := getTriggerKey workspace workflowPath nodeId in
  nextRun ←
    (match cron config with
     | Some expr =>
         if String.eqb (type config) "cron" && Js.truthy expr
         then tryCatch (d ← getNextRunTime expr None; mret (Some d))
                       (fun err => mret None)
         else mret None
     | None => mret None
     end);
  existing ← gets (lookupTrigger id);
  let trigger :=
    {| id := id; workspace := workspace; workflowPath := workflowPath;
       nodeId := nodeId; label := label; config := config;
       enabled := true; nextRun := nextRun;
       lastRun := existing ≫= lastRun |} in
  r ← alloc trigger;
  modify (onThis (fun m => with_triggers (JsMap.set id r (triggers m)) m));;
  mret r.

Definition unregister (workspace workflowPath nodeId : string) : Eff Sys bool :=
  let id := getTriggerKey workspace workflowPath nodeId in
  present ← gets (fun s => JsMap.has id (triggers (this s)));
  modify (onThis (fun m => with_triggers (JsMap.delete id (triggers m)) m));;
  mret present.

Definition unregisterWorkflow (workspace workflowPath : string) : Eff Sys nat :=
  let prefix := workspace ++ ":" ++ workflowPath ++ ":" in
  ids ← gets (fun s => JsMap.keys (triggers (this s)));
  let doomed := List.filter (Js.startsWith prefix) ids in
  forOf doomed (fun id =>
    modify (onThis (fun m => with_triggers (JsMap.delete id (triggers m)) m)));;
  mret (length doomed).

Definition get (workspace workflowPath nodeId : string) (s : Sys) : option ref :=
  JsMap.get (getTriggerKey workspace workflowPath nodeId) (triggers (this s)).

Definition getAll (s : Sys) : list ref := JsMap.values (triggers (this s)).

(** A predicate on trigger objects, read through a reference. *)
Definition holds (s : Sys) (p : RegisteredTrigger -> bool) (r : ref) : bool :=
  match deref s r with
  | Some trigger => p trigger
  | None => false
  end.

Definition getByWorkspace (workspace : string) (s : Sys) : list ref :=
  List.filter (holds s (fun t => String.eqb (Triggers.workspace t) workspace)) (getAll s).

Definition getDueTriggers (s : Sys) : list ref :=
  let now := clock_now (world s) in
  List.filter (holds s (fun trigger =>
    if negb (enabled trigger) then false
    else if negb (String.eqb (type (config trigger)) "cron") then false
    else match nextRun trigger with
         | None => false
         | Some next => next <=? now
         end)) (getAll s).

Definition setIdle (isIdle : bool) : Eff Sys unit :=
  since ← gets (fun s => idleSince (this s));
  if isIdle && negb (isSome since)
  then t ← now; modify (onThis (with_idleSince (Some t)))
  else if negb isIdle && isSome since
  then modify (onThis (with_idleSince None))
  else mret tt.

Definition isIdle (s : Sys) : bool := isSome (idleSince (this s)).

(** Milliseconds. *)
Definition getIdleDuration (s : Sys) : Z :=
  match idleSince (this s) with
  | None => 0
  | Some since => clock_now (world s) - since
  end.

Definition getDueIdleTriggers (s : Sys) : list ref :=
  match idleSince (this s) with
  | None => []
  | Some _ =>
      let elapsedMinutes : Q :=
        (inject_Z (getIdleDuration s) / inject_Z (60 * 1000))%Q in
      List.filter (holds s (fun trigger =>
        if negb (enabled trigger) then false
        else if negb (String.eqb (type (config trigger)) "idle") then false
        else
          let requiredMinutes : Q :=
            inject_Z (default 0 (idleMinutes (config trigger))) in
          Qle_bool requiredMinutes elapsedMinutes)) (getAll s)
  end.

(** [triggers[index]]: [undefined] outside the array. *)
Definition at_index {A} (xs : list A) (index : Z) : option A :=
  if index <? 0 then None else xs !! Z.to_nat index.

Definition selectRandom (candidates : list ref) : Eff Sys (option ref) :=
  if (length candidates =? 0)%nat then mret None
  else fun s =>
    let '(x, w) := Math_random (world s) in
    let index := Qfloor (x * inject_Z (Z.of_nat (length candidates)))%Q in
    (inl (at_index candidates index),
     {| this := this s; world := w; calls := calls s |}).

Definition setEnabled (workspace workflowPath nodeId : string) (enabled : bool)
    : Eff Sys bool :=
  trigger ← gets (get workspace workflowPath nodeId);
  match trigger with
  | None => mret false
  | Some r => mutate r (with_enabled enabled);; mret true
  end.

Definition markFired (trigger : ref) : Eff Sys unit :=
  t ← now;
  mutate trigger (with_lastRun (Some t));;
  obj ← gets (fun s => deref s trigger);
  match obj with
  | Some o =>
      match cron (config o) with
      | Some expr =>
          if String.eqb (type (config o)) "cron" && Js.truthy expr
          then tryCatch (d ← getNextRunTime expr None;
                         mutate trigger (with_nextRun (Some d)))
                        (fun _ => mutate trigger (with_nextRun None))
          else mret tt
      | None => mret tt
      end
  | None => mret tt
  end.

Definition onFire (callback : Callback) : Eff Sys unit :=
  modify (onThis (with_onTriggerFire (Some callback))).

(** [Object.fromEntries(this.triggers)]: the records as they are now. *)
Definition snapshot (s : Sys) : list (string * RegisteredTrigger) :=
  omap (fun e => t ← deref s (snd e); Some (fst e, t)) (triggers (this s)).

(** [save()]: nothing without a file; any error of the write is caught and
    logged. *)
Definition save : Eff Sys unit :=
  file ← gets (fun s => triggersFile (this s));
  match file with
  | None => mret tt
  | Some path =>
      tryCatch
        (fun s =>
           let '(err, w) :=
             fs_writeState path (snapshot s) (clock_now (world s)) (world s) in
           (match err with Some e => inr e | None => inl tt end,
            {| this := this s; world := w; calls := calls s |}))
        (fun _ => mret tt)
  end.

(** [await this.onTriggerFire(trigger)]: the callback runs on the manager
    and the world, and the call is appended to the history. *)
Definition invoke (callback : Callback) (trigger : ref) : Eff Sys unit := fun s =>
  let 'Fn body := callback in
  let '(err, kept, w, installed) := body trigger (reach (this s)) (world s) in
  (match err with Some e => inr e | None => inl tt end,
   {| this := leave kept installed (this s); world := w;
      calls := (calls s ++ [(trigger, negb (isSome err))])%list |}).

(** The body shared by the cron loop and the idle branch of [checkAndFire]
    (they differ in their log lines only): with a callback, call it and,
    unless it throws, mark the trigger fired and push it; without one, mark
    and push. The result is [firedTriggers] after the step. *)
Definition fireTrigger (trigger : ref) (firedTriggers : list ref) : Eff Sys (list ref) :=
  callback ← gets (fun s => onTriggerFire (this s));
  match callback with
  | Some cb =>
      tryCatch
        (invoke cb trigger;;
         markFired trigger;;
         mret (firedTriggers ++ [trigger])%list)
        (fun err => mret firedTriggers)
  | None =>
      markFired trigger;;
      mret (firedTriggers ++ [trigger])%list
  end.

(** [for (const trigger of dueCronTriggers) { ... }] *)
Fixpoint fireAll (due : list ref) (firedTriggers : list ref) : Eff Sys (list ref) :=
  match due with
  | [] => mret firedTriggers
  | trigger :: rest =>
      fired ← fireTrigger trigger firedTriggers;
      fireAll rest fired
  end.

(** The second part of [checkAndFire]: one random due idle trigger. *)
Definition fireIdle (firedTriggers : list ref) : Eff Sys (list ref) :=
  dueIdleTriggers ← gets getDueIdleTriggers;
  if (0 <? length dueIdleTriggers)%nat
  then
    selectedTrigger ← selectRandom dueIdleTriggers;
    match selectedTrigger with
    | Some trigger => fireTrigger trigger firedTriggers
    | None => mret firedTriggers
    end
  else mret firedTriggers.

Definition checkAndFire : Eff Sys (list ref) :=
  dueCronTriggers ← gets getDueTriggers;
  firedTriggers ← fireAll dueCronTriggers [];
  firedTriggers ← fireIdle firedTriggers;
  (if (0 <? length firedTriggers)%nat then save else mret tt);;
  mret firedTriggers.

End Manager.
End Triggers.

(** ** The workflow executor *)

Module Executor.

Inductive NodeStatus := pending | running | completed | failed.

Record NodeData := {
  label : option string;
  nodeType : option string;
  commands : option (list string);
  scriptFiles : option (list string);
  path : option string;
  prompt : option string;
}.

Record WorkflowNode := {
  id : string;
  type : string;
  data : NodeData;
}.

Record WorkflowEdge := {
  edge_id : string;
  source : string;
  target : string;
}.

(** The request body; an array that is missing or not an array is [None]. *)
Record ExecuteRequest := {
  nodes : option (list WorkflowNode);
  edges : option (list WorkflowEdge);
  rootDirectory : option string;
  startNodeId : option string;
}.

(** [startTime] and [endTime] are the instants the ISO strings denote. *)
Record NodeResult := {
  nodeId : string;
  status : NodeStatus;
  output : option string;
  error : option string;
  exitCode : option Z;
  startTime : option Z;
  endTime : option Z;
}.

Record ExecuteResponse := {
  success : bool;
  results : list NodeResult;
  executionOrder : list string;
}.

(** What the route answers: [res.json(...)], or [res.status(400)] with an
    error message. No step of the handler throws in the model, so the 500
    of its [catch] block has no constructor. *)
Inductive HttpResponse :=
  | ok (body : ExecuteResponse)
  | badRequest (message : string).

Definition status_eqb (a b : NodeStatus) : bool :=
  match a, b with
  | pending, pending | running, running
  | completed, completed | failed, failed => true
  | _, _ => false
  end.

(** How a spawned [sh -c command] ends: the ['close'] event with what was
    written to the two streams and the exit code ([null] when killed by a
    signal), or the ['error'] event. *)
Inductive SpawnResult :=
  | closed (stdout stderr : string) (code : option Z)
  | spawnError (message : string).

Class Host := {
  World : Type;
  (** [spawn('sh', ['-c', command], { cwd })], run to its end *)
  spawn_sh : string -> string -> World -> SpawnResult * World;
  (** [new Date()] *)
  Date_now : World -> Z;
  (** [process.cwd()] *)
  process_cwd : World -> string;
}.

(** [buildAdjacencyMap]: source -> targets, in the order of the edges. *)
Definition buildAdjacencyMap (edges : list WorkflowEdge) : gmap string (list string) :=
  fold_left
    (fun adjacency edge =>
       let adjacency :=
         match adjacency !! source edge with
         | Some _ => adjacency
         | None => <[source edge := []]> adjacency
         end in
       <[source edge := (default [] (adjacency !! source edge) ++ [target edge])%list]>
         adjacency)
    edges ∅.

Record ExecutionContext := {
  outputs : gmap string string;
  nodeLabels : list (string * string);
}.

(** *** Template substitution *)

(** The class [[a-zA-Z0-9_-]]. *)
Definition isIdentChar (c : ascii) : bool :=
  Js.isLower c || Js.isUpper c || Js.isDigit c
  || Ascii.eqb c "_" || Ascii.eqb c "-".

(** The longest prefix in a character class, and what follows it: a greedy
    [c*]. *)
Fixpoint span (p : ascii -> bool) (s : string) : string * string :=
  match s with
  | EmptyString => (EmptyString, EmptyString)
  | String c s' =>
      if p c then let '(a, b) := span p s' in (String c a, b)
      else (EmptyString, s)
  end.

Fixpoint stripPrefix (p s : string) : option string :=
  match p, s with
  | EmptyString, _ => Some s
  | String a p', String b s' => if Ascii.eqb a b then stripPrefix p' s' else None
  | String _ _, EmptyString => None
  end.

(** A match of [/\{\{\s*([a-zA-Z0-9_-]+)\.output\s*\}\}/] at the start of
    [s]: the captured identifier and the matched text. No character of one
    part of the pattern can start the next, so the greedy reading is the
    only one. *)
Definition matchTemplate (s : string) : option (string * string) :=
  s1 ← stripPrefix "{{" s;
  let '(ws1, s2) := span Js.isSpace s1 in
  let '(identifier, s3) := span isIdentChar s2 in
  if negb (Js.truthy identifier) then None
  else
    s4 ← stripPrefix ".output" s3;
    let '(ws2, s5) := span Js.isSpace s4 in
    _ ← stripPrefix "}}" s5;
    Some (identifier, "{{" ++ ws1 ++ identifier ++ ".output" ++ ws2 ++ "}}").

(** The label loop of the replacement function: the first node, in the
    order of [nodeLabels], whose label fits and that has an output. *)
Fixpoint lookupByLabel (identifier : string) (outputs : gmap string string)
    (labels : list (string * string)) : option string :=
  match labels with
  | [] => None
  | (nodeId, label) :: rest =>
      let normalizedLabel := Js.replaceSpaceRuns false (Js.toLowerCase label) in
      if String.eqb normalizedLabel (Js.toLowerCase identifier)
         || String.eqb label identifier
      then match outputs !! nodeId with
           | Some _ => Some (Js.orElse (outputs !! nodeId) EmptyString)
           | None => lookupByLabel identifier outputs rest
           end
      else lookupByLabel identifier outputs rest
  end.

(** The replacement function passed to [text.replace]. *)
Definition resolveTemplate (context : ExecutionContext) (matched identifier : string)
    : string :=
  match outputs context !! identifier with
  | Some _ => Js.orElse (outputs context !! identifier) EmptyString
  | None =>
      match lookupByLabel identifier (outputs context) (nodeLabels context) with
      | Some replacement => replacement
      | None => matched
      end
  end.

(** [text.replace(templateRegex, ...)] with the [g] flag: matches are
    sought from left to right and do not overlap. [skip] counts the
    characters of the current match still to pass over. *)
Fixpoint replaceFrom (skip : nat) (text : string) (context : ExecutionContext) : string :=
  match text with
  | EmptyString => EmptyString
  | String c rest =>
      match skip with
      | S k => replaceFrom k rest context
      | O =>
          match matchTemplate text with
          | Some (identifier, matched) =>
              resolveTemplate context matched identifier
              ++ replaceFrom (String.length matched - 1) rest context
          | None => String c (replaceFrom 0 rest context)
          end
      end
  end.

Definition replaceTemplates (text : string) (context : ExecutionContext) : string :=
  replaceFrom 0 text context.

Definition processNodeTemplates (node : WorkflowNode) (context : ExecutionContext)
    : WorkflowNode :=
  let d := data node in
  {| id := id node; type := type node;
     data :=
       {| label := label d; nodeType := nodeType d;
          commands := (fun cmds => map (fun cmd => replaceTemplates cmd context) cmds)
                        <$> commands d;
          scriptFiles := scriptFiles d;
          path := (fun p => if Js.truthy p then replaceTemplates p context else p)
                    <$> path d;
          prompt := (fun p => if Js.truthy p then replaceTemplates p context else p)
                      <$> prompt d |} |}.

(** *** Start nodes *)

Definition findTriggerNodes (nodes : list WorkflowNode) (edges : list WorkflowEdge)
    : list string :=
  let hasIncoming : gset string := list_to_set (map target edges) in
  let triggers :=
    List.filter (fun n =>
      match nodeType (data n) with
      | Some t => String.eqb t "trigger"
      | None => false
      end || String.eqb (type n) "trigger") nodes in
  if (0 <? length triggers)%nat then map id triggers
  else map id (List.filter (fun n => negb (bool_decide (id n ∈ hasIncoming))) nodes).

(** *** Running one node *)

Section Run.
Context {host : Host}.

Definition executeShellCommand (command cwd : string) (w : World)
    : (string * Z) * World :=
  let '(r, w') := spawn_sh command cwd w in
  match r with
  | closed stdout stderr code =>
      let output :=
        stdout ++ (if Js.truthy stderr
                   then String Js.LF "[stderr]" ++ String Js.LF stderr
                   else EmptyString) in
      ((Js.trim output, default 0 code), w')
  | spawnError message => (("Failed to start process: " ++ message, 1), w')
  end.

Definition paragraph : string := String Js.LF (String Js.LF EmptyString).

(** The command loop of a shell node: the result of the node, given the
    outputs pushed and the exit code seen so far. *)
Fixpoint runCommands (node : WorkflowNode) (cwd : string) (startTime : Z)
    (commands : list string) (outputs : list string) (lastExitCode : Z)
    (w : World) : NodeResult * World :=
  match commands with
  | [] =>
      ({| nodeId := id node; status := completed;
          output := Some (Js.join paragraph outputs);
          error := None; exitCode := Some lastExitCode;
          startTime := Some startTime; endTime := Some (Date_now w) |}, w)
  | command :: rest =>
      if negb (Js.truthy (Js.trim command))
      then runCommands node cwd startTime rest outputs lastExitCode w
      else
        let '((out, code), w') := executeShellCommand command cwd w in
        let outputs := (outputs ++ [("$ " ++ command ++ String Js.LF out)%string])%list in
        if negb (code =? 0)
        then ({| nodeId := id node; status := failed;
                 output := Some (Js.join paragraph outputs);
                 error := Some ("Command failed with exit code " ++ pretty code);
                 exitCode := Some code;
                 startTime := Some startTime; endTime := Some (Date_now w') |}, w')
        else runCommands node cwd startTime rest outputs code w'
  end.

Definition executeNode (node : WorkflowNode) (rootDirectory : string) (w : World)
    : NodeResult * World :=
  let startTime := Date_now w in
  let nodeType := Js.orElse (nodeType (data node)) (type node) in
  let cwd :=
    Js.orElse (path (data node))
      (if Js.truthy rootDirectory then rootDirectory else process_cwd w) in
  let done (text : string) :=
    ({| nodeId := id node; status := completed; output := Some text;
        error := None; exitCode := None;
        startTime := Some startTime; endTime := Some (Date_now w) |}, w) in
  if String.eqb nodeType "shell" then
    let commands := default [] (commands (data node)) in
    if (length commands =? 0)%nat then done "(no commands to execute)"
    else runCommands node cwd startTime commands [] 0 w
  else if String.eqb nodeType "trigger" then done "Trigger activated"
  else if String.eqb nodeType "workdir" then
    done ("Working directory: " ++ Js.orElse (path (data node)) "(not set)")
  else done ("Node type '" ++ nodeType ++ "' execution not yet implemented").

(** *** The traversal *)

(** The output stored for downstream templates: the lines that do not start
    with ["$ "], joined again and trimmed. *)
Definition rawOutput (output : string) : string :=
  Js.trim
    (Js.join (String Js.LF EmptyString)
       (List.filter (fun line => negb (Js.startsWith "$ " line))
          (Js.splitLines output))).

(** The variables of the handler that the loop reads and writes. *)
Record Run := {
  run_results : list NodeResult;
  run_order : list string;
  visited : gset string;
  overallSuccess : bool;
  queue : list string;
  context : ExecutionContext;
  world : World;
}.

Definition skipNode (nodeId : string) (rest : list string) (visit : bool) (r : Run) : Run :=
  {| run_results := run_results r; run_order := run_order r;
     visited := if visit then {[nodeId]} ∪ visited r else visited r;
     overallSuccess := overallSuccess r; queue := rest;
     context := context r; world := world r |}.

(** One iteration of the [while] loop, entered with [nodeId] just shifted
    off the queue and [rest] left in it. *)
Definition iteration (nodeMap : gmap string WorkflowNode)
    (adjacency : gmap string (list string)) (rootDirectory : option string)
    (nodeId : string) (rest : list string) (r : Run) : Run :=
  if bool_decide (nodeId ∈ visited r) then skipNode nodeId rest false r
  else
    let visited := {[nodeId]} ∪ visited r in
    match nodeMap !! nodeId with
    | None => skipNode nodeId rest true r
    | Some node =>
        let executionOrder := (run_order r ++ [nodeId])%list in
        let processedNode := processNodeTemplates node (context r) in
        let '(result, w) :=
          executeNode processedNode
            (Js.orElse rootDirectory (process_cwd (world r))) (world r) in
        let results := (run_results r ++ [result])%list in
        let context :=
          match output result with
          | Some out =>
              if Js.truthy out
              then {| outputs := <[nodeId := rawOutput out]> (outputs (context r));
                      nodeLabels := nodeLabels (context r) |}
              else context r
          | None => context r
          end in
        if status_eqb (status result) failed
        then {| run_results := results; run_order := executionOrder;
                visited := visited; overallSuccess := false; queue := rest;
                context := context; world := w |}
        else
          let nextNodes := default [] (adjacency !! nodeId) in
          {| run_results := results; run_order := executionOrder;
             visited := visited; overallSuccess := overallSuccess r;
             queue := (rest ++ List.filter
                                 (fun nextId => negb (bool_decide (nextId ∈ visited)))
                                 nextNodes)%list;
             context := context; world := w |}
    end.

(** [while (queue.length > 0 && overallSuccess) { ... }], with a bound on
    the number of iterations; [None] when the bound is reached first. *)
Fixpoint traverse (fuel : nat) (nodeMap : gmap string WorkflowNode)
    (adjacency : gmap string (list string)) (rootDirectory : option string)
    (r : Run) : option Run :=
  match queue r with
  | [] => Some r
  | nodeId :: rest =>
      if negb (overallSuccess r) then Some r
      else match fuel with
           | O => None
           | S fuel' =>
               traverse fuel' nodeMap adjacency rootDirectory
                 (iteration nodeMap adjacency rootDirectory nodeId rest r)
           end
  end.

(** [new Map(nodes.map(n => [n.id, n]))]: a later node with the same id
    replaces an earlier one. *)
Definition buildNodeMap (nodes : list WorkflowNode) : gmap string WorkflowNode :=
  fold_left (fun m n => <[id n := n]> m) nodes ∅.

(** The handler of [POST /]. Every iteration takes one id off the queue and
    an id is put on it only for an edge out of a node that was not visited
    before, so the loop ends within [length startNodes + length edges]
    iterations. *)
Definition execute (req : ExecuteRequest) (w : World) : option (HttpResponse * World) :=
  match nodes req with
  | None => Some (badRequest "nodes array is required", w)
  | Some nodes =>
  match edges req with
  | None => Some (badRequest "edges array is required", w)
  | Some edges =>
      let nodeMap := buildNodeMap nodes in
      let adjacency := buildAdjacencyMap edges in
      let context :=
        {| outputs := ∅;
           nodeLabels :=
             JsMap.ofList (map (fun n => (id n, Js.orElse (label (data n)) (id n))) nodes) |} in
      let start :=
        if Js.truthyOpt (startNodeId req) then
          let startNodeId := default EmptyString (startNodeId req) in
          match nodeMap !! startNodeId with
          | None => inr ("Start node '" ++ startNodeId ++ "' not found")
          | Some _ => inl [startNodeId]
          end
        else
          let startNodes := findTriggerNodes nodes edges in
          if (length startNodes =? 0)%nat
          then inr "No trigger or start node found"
          else inl startNodes in
      match start with
      | inr message => Some (badRequest message, w)
      | inl startNodes =>
          r ← traverse (length startNodes + length edges) nodeMap adjacency
                 (rootDirectory req)
                 {| run_results := []; run_order := []; visited := ∅;
                    overallSuccess := true; queue := startNodes;
                    context := context; world := w |};
          Some (ok {| success := overallSuccess r; results := run_results r;
                      executionOrder := run_order r |}, world r)
      end
  end end.

End Run.
End Executor.


(** ** The rest of the trigger manager: reset, persistence, the timer *)

Module Lifecycle.
Import Triggers.

(** A trigger record as [JSON.parse] gives it back: the dates are the
    strings [JSON.stringify] wrote for them, a field that was [undefined]
    is missing. *)
Module Stored.
Record StoredTrigger := {
  id : string;
  workspace : string;
  workflowPath : string;
  nodeId : string;
  label : string;
  config : TriggerConfig;
  enabled : bool;
  nextRun : option string;
  lastRun : option string;
}.
End Stored.

(** How [fs.readFile] followed by [JSON.parse] ends: with the entries of
    [state.triggers], in the order of [Object.entries], or with an error
    thrown, which has a [code] when it comes from the file system. *)
Inductive ReadResult :=
  | readOk (entries : list (string * Stored.StoredTrigger))
  | readFailed (code : option string) (message : string).

(** What [load] takes from its environment besides the host of the
    manager. *)
Class Storage {host : Host} := {
  (** [JSON.parse(await fs.readFile(path, 'utf-8'))] *)
  fs_readState : string -> World -> ReadResult * World;
  (** [new Date(text).getTime()] *)
  Date_parse : string -> Date;
}.

Section Lifecycle.
Context {host : Host} {storage : Storage}.

(** [clear()] *)
Definition clear : Eff Sys unit :=
  modify (onThis (with_triggers [])).

(** [text ? new Date(text) : undefined] *)
Definition reviveDate (text : option string) : option Date :=
  match text with
  | Some t => if Js.truthy t then Some (Date_parse t) else None
  | None => None
  end.

(** [{ ...trigger, nextRun: ..., lastRun: ... }] *)
Definition revive (trigger : Stored.StoredTrigger) : RegisteredTrigger :=
  {| id := Stored.id trigger; workspace := Stored.workspace trigger;
     workflowPath := Stored.workflowPath trigger; nodeId := Stored.nodeId trigger;
     label := Stored.label trigger; config := Stored.config trigger;
     enabled := Stored.enabled trigger;
     nextRun := reviveDate (Stored.nextRun trigger);
     lastRun := reviveDate (Stored.lastRun trigger) |}.

(** [load()]: nothing without a file; an error of the read is caught (and
    logged unless its code is ENOENT). *)
Definition load : Eff Sys unit :=
  file ← gets (fun s => triggersFile (this s));
  match file with
  | None => mret tt
  | Some path =>
      tryCatch
        (entries ← (fun s =>
                      let '(r, w) := fs_readState path (world s) in
                      (match r with
                       | readOk entries => inl entries
                       | readFailed _ message => inr message
                       end,
                       {| this := this s; world := w; calls := calls s |}));
         forOf entries (fun entry =>
           r ← alloc (revive (snd entry));
           modify (onThis (fun m =>
             with_triggers (JsMap.set (fst entry) r (triggers m)) m))))
        (fun _ => mret tt)
  end.

End Lifecycle.

(** *** The check loop *)

(** The timers of the process: the handles [setInterval] has returned that
    no [clearInterval] has cancelled, and the next handle. *)
Record Timers := {
  active : list nat;
  nextHandle : nat;
}.

(** The field [checkInterval] of the manager, with the timers around it. *)
Record Loop := {
  checkInterval : option nat;
  timers : Timers;
}.

(** [setInterval(callback, intervalMs)]: a fresh handle, active from now. *)
Definition setInterval (t : Timers) : nat * Timers :=
  (nextHandle t, {| active := (active t ++ [nextHandle t])%list;
                    nextHandle := S (nextHandle t) |}).

(** [clearInterval(handle)] *)
Definition clearInterval (handle : nat) (t : Timers) : Timers :=
  {| active := List.filter (fun h => negb (h =? handle)%nat) (active t);
     nextHandle := nextHandle t |}.

(** [stop()] *)
Definition stop (l : Loop) : Loop :=
  match checkInterval l with
  | Some handle =>
      {| checkInterval := None; timers := clearInterval handle (timers l) |}
  | None => l
  end.

(** [start(intervalMs)]; the period plays no part in which timers exist. *)
Definition start (l : Loop) : Loop :=
  let l := match checkInterval l with
           | Some _ => stop l
           | None => l
           end in
  let '(handle, t) := setInterval (timers l) in
  {| checkInterval := Some handle; timers := t |}.

End Lifecycle.

(** ** Vocabulary for the properties of the trigger manager *)

Module TriggerSpec.
Import Triggers.

Section Vocabulary.
Context {host : Host}.

Definition invalidCron (cronExpr err : string) : string :=
  "Invalid cron expression " ++ Js.dquote ++ cronExpr ++ Js.dquote ++ ": " ++ err.

(** What [getNextRunTime] computes from the base time. *)
Definition nextRunFrom (cronExpr : string) (baseTime : Date) : Date + string :=
  match cron_parse cronExpr with
  | inl expr =>
      match cron_next expr baseTime with
      | inl d => inl d
      | inr err => inr (invalidCron cronExpr err)
      end
  | inr err => inr (invalidCron cronExpr err)
  end.

(** Modelled from the spec: the [cron-parser] package is not among the
    sources; the spec states its contract, "the next future occurrence
    relative to a base instant": [next()] returns, and what it returns is
    strictly after the [currentDate] it was given. *)
Definition cron_contract : Prop :=
  forall (expr : CronExpression) (currentDate : Date),
    exists d, cron_next expr currentDate = inl d /\ currentDate < d.

(** [Math.random()] is at least 0 and below 1. *)
Definition random_contract : Prop :=
  forall w : World, (0 <= fst (Math_random w))%Q /\ (fst (Math_random w) < 1)%Q.

(** The cron branch at the top of [register]. *)
Definition registeredNextRun (config : TriggerConfig) (s : Sys) : option Date :=
  match cron config with
  | Some expr =>
      if String.eqb (type config) "cron" && Js.truthy expr
      then match nextRunFrom expr (clock_now (world s)) with
           | inl d => Some d
           | inr _ => None
           end
      else None
  | None => None
  end.

(** The object [register] builds in state [s]. *)
Definition registered (workspace workflowPath nodeId label : string)
    (config : TriggerConfig) (s : Sys) : RegisteredTrigger :=
  let key := getTriggerKey workspace workflowPath nodeId in
  {| id := key; workspace := workspace; workflowPath := workflowPath;
     nodeId := nodeId; label := label; config := config; enabled := true;
     nextRun := registeredNextRun config s;
     lastRun := lookupTrigger key s ≫= lastRun |}.

(** The references held by the registry are distinct and point into the
    object store. Every operation of the manager keeps this. *)
Definition live (s : Sys) : Prop :=
  NoDup (getAll s) /\ Forall (fun r => (r < length (heap (this s)))%nat) (getAll s).

(** The calls of the fire callback made between two states. *)
Definition callsSince (s s' : Sys) : list (ref * bool) :=
  drop (length (calls s)) (calls s').

(** The references for which the callback returned. *)
Definition returned (cs : list (ref * bool)) : list ref :=
  map fst (List.filter snd cs).

(** The state in which [checkAndFire] computes the due idle triggers: the
    one its cron loop leaves. *)
Definition afterCron (s : Sys) : Sys :=
  snd (fireAll (getDueTriggers s) [] s).

(** The threshold of an idle trigger is reached after [elapsed] minutes. *)
Definition idleDue (elapsedMinutes : Q) (t : RegisteredTrigger) : Prop :=
  enabled t = true /\ type (config t) = "idle"
  /\ (inject_Z (default 0%Z (idleMinutes (config t))) <= elapsedMinutes)%Q.

(** The assignments [markFired] makes to a trigger object in state [s]. *)
Definition markedFired (s : Sys) (t : RegisteredTrigger) : RegisteredTrigger :=
  let t1 := with_lastRun (Some (clock_now (world s))) t in
  match cron (config t) with
  | Some expr =>
      if String.eqb (type (config t)) "cron" && Js.truthy expr
      then with_nextRun
             (match nextRunFrom expr (clock_now (world s)) with
              | inl d => Some d
              | inr _ => None
              end) t1
      else t1
  | None => t1
  end.

(** *** The check cycle in the spec's words

    The definitions below follow the algorithm of the spec for one check
    cycle, not the code of [checkAndFire]; the theorems compare the two. *)

(** "Invoking the callback per trigger": the call of the callback [cb] for
    the trigger [r] in state [s]. It yields the message if the callback
    threw, and the state the call leaves: the objects, the registry and the
    idle state as the callback left them, no object lost; the callback now
    registered; the world as the callback left it; and the call recorded,
    with whether it returned. *)
Definition afterCall (cb : Callback) (r : ref) (s : Sys) : option string * Sys :=
  match cb with
  | Fn body =>
      let '(err, kept, w, installed) :=
        body r {| objects := heap (this s); registry := triggers (this s);
                  idle := idleSince (this s) |} (world s) in
      (err,
       {| this :=
            {| heap := (objects kept
                        ++ drop (length (objects kept)) (heap (this s)))%list;
               triggers := registry kept;
               onTriggerFire := Some (default cb installed);
               triggersFile := triggersFile (this s);
               idleSince := idle kept |};
          world := w;
          calls := (calls s ++ [(r, negb (isSome err))])%list |})
  end.

(** The message thrown by the call for [r] in state [s], if it throws. *)
Definition thrown (r : ref) (s : Sys) : option string :=
  match onTriggerFire (this s) with
  | Some cb => fst (afterCall cb r s)
  | None => None
  end.

(** Firing one trigger: the callback is invoked; "an error from one
    trigger's callback is caught" and [markFired] is skipped "for that one
    trigger"; "if no callback is registered, triggers are marked fired
    without side effects". *)
Definition fireOne (r : ref) (s : Sys) : Sys :=
  match onTriggerFire (this s) with
  | Some cb =>
      match afterCall cb r s with
      | (None, s1) => snd (markFired r s1)
      | (Some _, s1) => s1
      end
  | None => snd (markFired r s)
  end.

(** Firing the triggers of a list, one after the other. *)
Definition fireEach (due : list ref) (s : Sys) : Sys :=
  fold_left (fun s r => fireOne r s) due s.

(** Step 1 of the cycle: "compute the due cron triggers; fire every
    one". *)
Definition cronPhase (s : Sys) : Sys := fireEach (getDueTriggers s) s.

(** The state after [Math.random()] was called. *)
Definition drawn (s : Sys) : Sys :=
  {| this := this s; world := snd (Math_random (world s)); calls := calls s |}.

(** What a check cycle keeps when the callback leaves the manager alone: the
    registry, the callback, the file and the idle state, and of every
    object all but [nextRun] and [lastRun]; and a [lastRun] once set stays
    set. *)
Record steady (s s' : Sys) : Prop := {
  steady_triggers : triggers (this s') = triggers (this s);
  steady_callback : onTriggerFire (this s') = onTriggerFire (this s);
  steady_file : triggersFile (this s') = triggersFile (this s);
  steady_idle : idleSince (this s') = idleSince (this s);
  steady_length : length (heap (this s')) = length (heap (this s));
  steady_objects :
    forall r t, deref s r = Some t ->
      exists t', deref s' r = Some t'
        /\ with_nextRun None (with_lastRun None t')
           = with_nextRun None (with_lastRun None t)
        /\ (is_Some (lastRun t) -> is_Some (lastRun t'));
}.

(** A callback that leaves the manager alone, and stays. *)
Definition quiet (cb : Callback) : Prop :=
  match cb with
  | Fn body =>
      forall r m w, exists err w', body r m w = (err, m, w', None)
  end.

(** The callback registered, if any, leaves the manager alone. *)
Definition calm (s : Sys) : Prop :=
  forall cb, onTriggerFire (this s) = Some cb -> quiet cb.

(** A callback that never assigns to the object behind [r], nor a callback
    it installs. *)
Fixpoint spares (r : ref) (cb : Callback) : Prop :=
  match cb with
  | Fn body =>
      forall r' m w,
        match body r' m w with
        | (_, kept, _, installed) =>
            (objects kept ++ drop (length (objects kept)) (objects m))%list !! r
            = objects m !! r
            /\ match installed with
               | Some cb' => spares r cb'
               | None => True
               end
        end
  end.

End Vocabulary.
End TriggerSpec.

(** ** Vocabulary for the properties of the executor *)

Module ExecSpec.
Import Executor.

(** Every character of a string is in a class. *)
Fixpoint every (p : ascii -> bool) (s : string) : bool :=
  match s with
  | EmptyString => true
  | String c s' => p c && every p s'
  end.

(** The text of a template reference. *)
Definition reference (ws1 identifier ws2 : string) : string :=
  "{{" ++ ws1 ++ identifier ++ ".output" ++ ws2 ++ "}}".

(** The label of a node as the label loop compares it: lower case, every
    run of white space one underscore. *)
Definition normalizeLabel (label : string) : string :=
  Js.replaceSpaceRuns false (Js.toLowerCase label).

(** Every stored output is the cleaned output of a result of that node. *)
Definition storedFrom (results : list NodeResult) (outputs : gmap string string) : Prop :=
  forall k v, outputs !! k = Some v ->
    exists res out, res ∈ results /\ nodeId res = k
                    /\ output res = Some out /\ v = rawOutput out.

Definition notFailed (res : NodeResult) : Prop := status res <> failed.

(** The spec's words for the value substituted: the output "trimmed", with
    the "command-echo lines", those that start with a dollar sign and a
    space, "removed". *)
Definition cleaned (out : string) : string :=
  Js.trim
    (Js.join (String Js.LF EmptyString)
       (List.filter (fun line => negb (Js.startsWith "$ " line))
          (Js.splitLines out))).

(** The "already-produced outputs" once the nodes of the given results
    have run: of each result with an output that is not empty, the cleaned
    output, under the id of its node. *)
Definition storedOutputs (results : list NodeResult) : gmap string string :=
  fold_left
    (fun outs res =>
       match output res with
       | Some out => if Js.truthy out then <[nodeId res := cleaned out]> outs else outs
       | None => outs
       end)
    results ∅.

(** The label of every node, its id standing in when it has none. *)
Definition labelsOf (nodes : list WorkflowNode) : list (string * string) :=
  JsMap.ofList (map (fun n => (id n, Js.orElse (label (data n)) (id n))) nodes).

(** The context in which the templates of a node are resolved after the
    given results. *)
Definition contextAfter (nodes : list WorkflowNode) (results : list NodeResult)
    : ExecutionContext :=
  {| outputs := storedOutputs results; nodeLabels := labelsOf nodes |}.

(** The part of the pattern after the opening braces. *)
Definition matchAfterOpen (s1 : string) : option (string * string) :=
  let '(ws1, s2) := span Js.isSpace s1 in
  let '(identifier, s3) := span isIdentChar s2 in
  if negb (Js.truthy identifier) then None
  else
    s4 ← stripPrefix ".output" s3;
    let '(ws2, s5) := span Js.isSpace s4 in
    _ ← stripPrefix "}}" s5;
    Some (identifier, ("{{" ++ ws1 ++ identifier ++ ".output" ++ ws2 ++ "}}")%string).

Section Vocabulary.
Context {host : Host}.

(** What the loop keeps true of its variables. *)
Record Good (nodeMap : gmap string WorkflowNode) (r : Run) : Prop := {
  good_ids : map nodeId (run_results r) = run_order r;
  good_nodup : NoDup (run_order r);
  good_visited : forall x, x ∈ run_order r -> x ∈ visited r;
  good_known : forall x, x ∈ run_order r -> is_Some (nodeMap !! x);
  good_success : overallSuccess r = true -> Forall notFailed (run_results r);
  good_failure :
    overallSuccess r = false ->
    exists before res, run_results r = (before ++ [res])%list
                       /\ status res = failed /\ Forall notFailed before;
  good_stored : storedFrom (run_results r) (outputs (context r));
}.

(** The states the loop passes through from [r]: zero or more iterations,
    each entered with a non-empty queue and no failure so far. *)
Inductive reaches (nodeMap : gmap string WorkflowNode)
    (adjacency : gmap string (list string)) (rootDirectory : option string)
    : Run -> Run -> Prop :=
  | reaches_here r : reaches nodeMap adjacency rootDirectory r r
  | reaches_next r r' current rest :
      queue r = current :: rest ->
      overallSuccess r = true ->
      reaches nodeMap adjacency rootDirectory
        (iteration nodeMap adjacency rootDirectory current rest r) r' ->
      reaches nodeMap adjacency rootDirectory r r'.

(** A run as its results tell it: each result is what [executeNode]
    returns for the node of that id, with the templates of its parameters
    resolved in the context of the results before it, in the world the
    result before it left. *)
Inductive traced (nodes : list WorkflowNode) (rootDirectory : option string)
    : World -> list NodeResult -> World -> Prop :=
  | traced_nil w : traced nodes rootDirectory w [] w
  | traced_snoc w results w1 node res w2 :
      traced nodes rootDirectory w results w1 ->
      buildNodeMap nodes !! nodeId res = Some node ->
      executeNode (processNodeTemplates node (contextAfter nodes results))
        (Js.orElse rootDirectory (process_cwd w1)) w1 = (res, w2) ->
      traced nodes rootDirectory w (results ++ [res])%list w2.

(** The bound on the iterations still to come: the ids in the queue, and
    the edges out of ids not visited yet. *)
Definition weight (edges : list WorkflowEdge) (r : Run) : nat :=
  (length (queue r)
   + length (List.filter (fun e => negb (bool_decide (source e ∈ visited r))) edges))%nat.

(** The state in which the handler enters its loop. *)
Definition initialRun (nodes : list WorkflowNode) (startNodes : list string)
    (w : World) : Run :=
  {| run_results := []; run_order := []; visited := ∅;
     overallSuccess := true; queue := startNodes;
     context :=
       {| outputs := ∅;
          nodeLabels :=
            JsMap.ofList
              (map (fun n => (id n, Js.orElse (label (data n)) (id n))) nodes) |};
     world := w |}.

End Vocabulary.
End ExecSpec.

(** ** Vocabulary for the registry as a whole *)

Module RegistrySpec.
Import Triggers TriggerSpec Lifecycle.

(** No character of a string is a colon. *)
Definition colonFree (s : string) : bool :=
  ExecSpec.every (fun c => negb (Ascii.eqb c ":")) s.

Section Vocabulary.
Context {host : Host}.

(** No key occurs twice in the registry, as in any [Map]. *)
Definition keysUnique (s : Sys) : Prop := NoDup (JsMap.keys (triggers (this s))).

(** Every registry entry leads to an object whose [id] is the key of the
    entry. *)
Definition keyed (s : Sys) : Prop :=
  forall k r, (k, r) ∈ triggers (this s) ->
    exists t, deref s r = Some t /\ id t = k.

(** What every state of a manager satisfies. *)
Definition sound (s : Sys) : Prop := live s /\ keysUnique s /\ keyed s.

(** The same of what a callback finds or leaves in reach. *)
Definition soundReach (m : Reach) : Prop :=
  (NoDup (JsMap.values (registry m))
   /\ Forall (fun r => (r < length (objects m))%nat) (JsMap.values (registry m)))
  /\ NoDup (JsMap.keys (registry m))
  /\ forall k r, (k, r) ∈ registry m ->
       exists t, objects m !! r = Some t /\ id t = k.

(** A callback that leaves the registry as the methods of the manager
    leave it, as does every callback it installs. *)
Fixpoint polite (cb : Callback) : Prop :=
  match cb with
  | Fn body =>
      forall r m w, soundReach m ->
        match body r m w with
        | (_, kept, _, installed) =>
            soundReach
              {| objects := (objects kept
                             ++ drop (length (objects kept)) (objects m))%list;
                 registry := registry kept; idle := idle kept |}
            /\ match installed with
               | Some cb' => polite cb'
               | None => True
               end
        end
  end.

(** The callback registered, if any, is polite. *)
Definition courteous (s : Sys) : Prop :=
  forall cb, onTriggerFire (this s) = Some cb -> polite cb.

(** The calls a user of the manager can make, and the passing of time and
    other changes of the world between them. *)
Inductive Op :=
  | opRegister (workspace workflowPath nodeId label : string) (config : TriggerConfig)
  | opUnregister (workspace workflowPath nodeId : string)
  | opUnregisterWorkflow (workspace workflowPath : string)
  | opSetEnabled (workspace workflowPath nodeId : string) (enabled : bool)
  | opMarkFired (trigger : ref)
  | opSetIdle (isIdle : bool)
  | opOnFire (callback : Callback)
  | opCheckAndFire
  | opSave
  | opClear
  | opWorld (change : World -> World).

Definition perform (op : Op) (s : Sys) : Sys :=
  match op with
  | opRegister workspace workflowPath nodeId label config =>
      snd (register workspace workflowPath nodeId label config s)
  | opUnregister workspace workflowPath nodeId =>
      snd (unregister workspace workflowPath nodeId s)
  | opUnregisterWorkflow workspace workflowPath =>
      snd (unregisterWorkflow workspace workflowPath s)
  | opSetEnabled workspace workflowPath nodeId enabled =>
      snd (setEnabled workspace workflowPath nodeId enabled s)
  | opMarkFired trigger => snd (markFired trigger s)
  | opSetIdle isIdle => snd (setIdle isIdle s)
  | opOnFire callback => snd (onFire callback s)
  | opCheckAndFire => snd (checkAndFire s)
  | opSave => snd (save s)
  | opClear => snd (clear s)
  | opWorld change =>
      {| this := this s; world := change (world s); calls := calls s |}
  end.

Definition performAll (ops : list Op) (s : Sys) : Sys :=
  fold_left (fun s op => perform op s) ops s.

(** A call that registers no callback but a polite one. *)
Definition politeOp (op : Op) : Prop :=
  match op with
  | opOnFire callback => polite callback
  | _ => True
  end.

End Vocabulary.

Section Persistence.
Context {host : Host} {storage : Storage}.

(** One round of the loop of [load]: the revived record becomes a new
    object, stored under the key of the entry. *)
Definition restoreEntry (entry : string * Stored.StoredTrigger) (s : Sys) : Sys :=
  onThis (fun m =>
    with_triggers (JsMap.set (fst entry) (length (heap m)) (triggers m))
      (with_heap (heap m ++ [revive (snd entry)])%list m)) s.

Definition restored (entries : list (string * Stored.StoredTrigger)) (s : Sys) : Sys :=
  fold_left (fun s entry => restoreEntry entry s) entries s.

End Persistence.

(** The calls that touch the timer of the check loop. *)
Inductive LoopOp := opStart | opStop.

Definition performLoop (op : LoopOp) (l : Loop) : Loop :=
  match op with
  | opStart => start l
  | opStop => stop l
  end.

(** The timer the manager holds, as a list. *)
Definition ownTimer (l : Loop) : list nat :=
  match checkInterval l with
  | Some handle => [handle]
  | None => []
  end.

End RegistrySpec.

(** ** Vocabulary for the executor as a whole *)

Module TraversalSpec.
Import Executor ExecSpec.

(** A node the handler takes for a trigger without looking at the edges. *)
Definition explicitTrigger (n : WorkflowNode) : bool :=
  match nodeType (data n) with
  | Some t => String.eqb t "trigger"
  | None => false
  end || String.eqb (type n) "trigger".

(** A command the loop of a shell node passes over. *)
Definition blank (command : string) : bool := negb (Js.truthy (Js.trim command)).

(** The start nodes of a request the handler does not reject. *)
Definition chosenStart (req : ExecuteRequest) (nodes : list WorkflowNode)
    (edges : list WorkflowEdge) : list string :=
  if Js.truthyOpt (startNodeId req)
  then [default EmptyString (startNodeId req)]
  else findTriggerNodes nodes edges.

(** The ids to which a path of edges leads from a start node, every id on
    the path being the id of a node. *)
Inductive reachable (nodeMap : gmap string WorkflowNode) (edges : list WorkflowEdge)
    (startNodes : list string) : string -> Prop :=
  | reachable_start x :
      x ∈ startNodes -> is_Some (nodeMap !! x) ->
      reachable nodeMap edges startNodes x
  | reachable_edge e :
      e ∈ edges -> reachable nodeMap edges startNodes (source e) ->
      is_Some (nodeMap !! target e) ->
      reachable nodeMap edges startNodes (target e).

Section Vocabulary.
Context {host : Host}.

(** What the loop keeps true of the ids it has run and has still to run. *)
Record Sound (nodeMap : gmap string WorkflowNode) (edges : list WorkflowEdge)
    (startNodes : list string) (r : Run) : Prop := {
  sound_order : forall x, x ∈ run_order r -> reachable nodeMap edges startNodes x;
  sound_queue :
    forall x, x ∈ queue r ->
      x ∈ startNodes
      \/ exists e, e ∈ edges /\ target e = x
                   /\ reachable nodeMap edges startNodes (source e);
}.

(** What the loop keeps true as long as no node has failed: nothing that
    is to be run is lost. *)
Record Complete (nodeMap : gmap string WorkflowNode) (edges : list WorkflowEdge)
    (startNodes : list string) (r : Run) : Prop := {
  complete_start : forall x, x ∈ startNodes -> x ∈ visited r \/ x ∈ queue r;
  complete_edges :
    forall e, e ∈ edges -> source e ∈ run_order r ->
      target e ∈ visited r \/ target e ∈ queue r;
  complete_visited : forall x, x ∈ visited r -> x ∈ run_order r \/ nodeMap !! x = None;
}.

End Vocabulary.
End TraversalSpec.
(** ** Concrete hosts for the worked examples *)

Module Scenario.
Import Triggers.

(** The mock clock of [triggers.test.ts], with the ids the test callbacks
    push. *)
Record MockWorld := {
  time : Z;
  firedIds : list string;
}.

Definition advance (ms : Z) (w : MockWorld) : MockWorld :=
  {| time := time w + ms; firedIds := firedIds w |}.

Definition day_ms : Z := 86400000.
Definition hour_ms : Z := 3600000.
Definition minute_ms : Z := 60000.

(** 2025-01-01T00:00:00Z *)
Definition jan1 : Z := 1735689600000.

(** A cron library that knows the daily schedules of the tests:
    ["0 0 H * * *"] for H = 9, 10, 11 is "every day at H:00:00 UTC". A
    parsed expression is the hour. *)
Definition parseDaily (expr : string) : nat + string :=
  if String.eqb expr "0 0 9 * * *" then inl 9%nat
  else if String.eqb expr "0 0 10 * * *" then inl 10%nat
  else if String.eqb expr "0 0 11 * * *" then inl 11%nat
  else inr "unsupported expression".

Definition nextDaily (hour : nat) (currentDate : Z) : Z + string :=
  let today := currentDate / day_ms * day_ms + Z.of_nat hour * hour_ms in
  inl (if currentDate <? today then today else today + day_ms).

#[local] Instance mockHost : Triggers.Host := {|
  Triggers.World := MockWorld;
  clock_now := time;
  CronExpression := nat;
  cron_parse := parseDaily;
  cron_next := nextDaily;
  Math_random := fun w => ((1 # 2)%Q, w);
  fs_writeState := fun _ _ _ w => (None, w);
|}.

(** The id of the trigger a callback was called with. *)
Definition idOf (m : Reach) (trigger : nat) : string :=
  default EmptyString (id <$> objects m !! trigger).

(** [async (trigger) => { firedTriggers.push(trigger.id) }] *)
Definition recordId : Callback := Fn (fun trigger m w =>
  (None, m,
   {| time := time w; firedIds := (firedIds w ++ [idOf m trigger])%list |},
   None)).

(** A callback that throws for the trigger of node [bad] and records the
    others. *)
Definition failFor (bad : string) : Callback := Fn (fun trigger m w =>
  if String.eqb (default EmptyString (nodeId <$> objects m !! trigger)) bad
  then (Some "boom", m, w, None)
  else (None, m,
        {| time := time w; firedIds := (firedIds w ++ [idOf m trigger])%list |},
        None)).

(** A callback that starts a workflow: it records the trigger and, as the
    execution system does when a workflow starts, calls [setIdle(false)]. *)
Definition startWorkflow : Callback := Fn (fun trigger m w =>
  (None,
   {| objects := objects m; registry := registry m; idle := None |},
   {| time := time w; firedIds := (firedIds w ++ [idOf m trigger])%list |},
   None)).

(** A callback that reaches past the methods of the manager and stores
    every entry of the registry a second time. *)
Definition tangle : Callback := Fn (fun trigger m w =>
  (None,
   {| objects := objects m; registry := (registry m ++ registry m)%list;
      idle := idle m |},
   w, None)).

Definition start (t : Z) : Sys :=
  {| this := newManager None; world := {| time := t; firedIds := [] |}; calls := [] |}.

(** Run a computation for its final state. *)
Definition exec {A} (c : Eff Sys A) (s : Sys) : Sys := snd (c s).
Definition tick (ms : Z) (s : Sys) : Sys :=
  {| this := this s; world := advance ms (world s); calls := calls s |}.

Definition cronCfg (expr : string) : TriggerConfig :=
  {| Triggers.type := "cron"; cron := Some expr; idleMinutes := None |}.
Definition idleCfg (minutes : Z) : TriggerConfig :=
  {| Triggers.type := "idle"; cron := None; idleMinutes := Some minutes |}.

(** The three cron triggers of the tests, registered at 08:00. *)
Definition threeCron : Sys :=
  exec (register "ws1" "wf1.yaml" "t1" "Trigger 1" (cronCfg "0 0 9 * * *");;
        register "ws1" "wf2.yaml" "t2" "Trigger 2" (cronCfg "0 0 10 * * *");;
        register "ws2" "wf3.yaml" "t3" "Trigger 3" (cronCfg "0 0 11 * * *"))
       (start (jan1 + 8 * hour_ms)).

(** The three idle triggers of the tests (2, 5 and 10 minutes), the system
    idle since 10:00. *)
Definition threeIdle : Sys :=
  exec (register "ws1" "wf1.yaml" "t1" "Quick Task" (idleCfg 2);;
        register "ws1" "wf2.yaml" "t2" "Normal Task" (idleCfg 5);;
        register "ws1" "wf3.yaml" "t3" "Slow Task" (idleCfg 10);;
        setIdle true)
       (start (jan1 + 10 * hour_ms)).

(** Two cron and two idle triggers, idle since 08:00, seen at 10:00, with a
    callback that throws for the first cron trigger. *)
Definition mixed : Sys :=
  tick (2 * hour_ms)
    (exec (register "ws1" "wf1.yaml" "t1" "Nine" (cronCfg "0 0 9 * * *");;
           register "ws1" "wf2.yaml" "t2" "Ten" (cronCfg "0 0 10 * * *");;
           register "ws1" "wf3.yaml" "t3" "Quick" (idleCfg 2);;
           register "ws1" "wf4.yaml" "t4" "Slow" (idleCfg 5);;
           onFire (failFor "t1");;
           setIdle true)
          (start (jan1 + 8 * hour_ms))).

(** The same triggers at the same time, with the callback that starts a
    workflow. *)
Definition mixedBusy : Sys := exec (onFire startWorkflow) mixed.

End Scenario.

Module ShellScenario.
Import Executor.

(** A world with a clock that ticks at every spawn and the list of the
    commands run so far. *)
Record ShWorld := {
  ticks : Z;
  ran : list string;
}.

(** A shell that knows [echo text] and [false]. *)
Definition toyShell (command cwd : string) (w : ShWorld) : SpawnResult * ShWorld :=
  let w' := {| ticks := ticks w + 1; ran := (ran w ++ [command])%list |} in
  match stripPrefix "echo " command with
  | Some text => (closed (text ++ String Js.LF EmptyString) EmptyString (Some 0), w')
  | None =>
      if String.eqb command "false"
      then (closed EmptyString EmptyString (Some 1), w')
      else (closed EmptyString EmptyString (Some 0), w')
  end.

#[local] Instance shHost : Executor.Host := {|
  Executor.World := ShWorld;
  spawn_sh := toyShell;
  Date_now := ticks;
  process_cwd := fun _ => "/work";
|}.

Definition w0 : ShWorld := {| ticks := 0; ran := [] |}.

Definition noData : NodeData :=
  {| label := None; nodeType := None; commands := None; scriptFiles := None;
     path := None; prompt := None |}.

Definition triggerNode (name : string) : WorkflowNode :=
  {| id := name; type := "trigger"; data := noData |}.

Definition shellNode (name : string) (title : option string) (cmds : list string)
    : WorkflowNode :=
  {| id := name; type := "shell";
     data := {| label := title; nodeType := None; commands := Some cmds;
                scriptFiles := None; path := None; prompt := None |} |}.

Definition edge (a b : string) : WorkflowEdge :=
  {| edge_id := a ++ "-" ++ b; source := a; target := b |}.

Definition request (ns : list WorkflowNode) (es : list WorkflowEdge) : ExecuteRequest :=
  {| nodes := Some ns; edges := Some es; rootDirectory := None; startNodeId := None |}.

(** trigger -> shellA -> shellB, where the command of shellA fails. *)
Definition failingChain : ExecuteRequest :=
  request [triggerNode "trigger"; shellNode "shellA" None ["false"];
           shellNode "shellB" None ["echo never"]]
          [edge "trigger" "shellA"; edge "shellA" "shellB"].

(** shellB reads the output of shellA, by id and by label, and refers to a
    node that does not exist. *)
Definition templateChain : ExecuteRequest :=
  request [triggerNode "trigger"; shellNode "shellA" (Some "Build Step") ["echo hello"];
           shellNode "shellB" None
             ["echo {{ shellA.output }} {{build_step.output}} {{ missing.output }}"]]
          [edge "trigger" "shellA"; edge "shellA" "shellB"].

(** The context in which the handler processes shellB of [templateChain]. *)
Definition afterShellA : ExecutionContext :=
  {| outputs := {[ "shellA" := "hello" ]};
     nodeLabels :=
       [("trigger", "trigger"); ("shellA", "Build Step"); ("shellB", "shellB")] |}.

End ShellScenario.


(** A file system with one state file, for the examples of [load]. *)
Module RegistryScenario.
Import Triggers Lifecycle Scenario.

(** The record of a trigger that was switched off and last ran on
    2025-01-01 at midnight. *)
Definition storedNine : Stored.StoredTrigger :=
  {| Stored.id := "ws1:wf1.yaml:t1"; Stored.workspace := "ws1";
     Stored.workflowPath := "wf1.yaml"; Stored.nodeId := "t1";
     Stored.label := "Nine"; Stored.config := cronCfg "0 0 9 * * *";
     Stored.enabled := false;
     Stored.nextRun := None;
     Stored.lastRun := Some "2025-01-01T00:00:00.000Z" |}.

Definition readDisk (path : string) (w : MockWorld) : ReadResult * MockWorld :=
  if String.eqb path "triggers.json"
  then (readOk [("ws1:wf1.yaml:t1", storedNine)], w)
  else (readFailed (Some "ENOENT") "no such file or directory", w).

(** A [Date] constructor that knows one string. *)
Definition parseIso (text : string) : Z :=
  if String.eqb text "2025-01-01T00:00:00.000Z" then jan1 else 0.

#[local] Existing Instance mockHost.

#[local] Instance mockStorage : Storage := {|
  fs_readState := readDisk;
  Date_parse := parseIso;
|}.

(** A new manager with the state file, at 08:00. *)
Definition fromDisk : Sys :=
  {| this := newManager (Some "triggers.json");
     world := {| time := jan1 + 8 * hour_ms; firedIds := [] |}; calls := [] |}.

(** The three cron triggers at 10:00, without a callback. *)
Definition threeCronAtTen : Sys := tick (2 * hour_ms) threeCron.

End RegistryScenario.

(** * Properties of the trigger manager *)

Module TriggerFacts.
Import Triggers TriggerSpec.

Section Facts.
Context {host : Host}.

Ltac eff :=
  unfold mbind, Eff_bind, mret, Eff_ret, tryCatch, throw, gets, modify, now in *.

(** *** The cron wrapper *)

Lemma getNextRunTime_run cronExpr from s :
  getNextRunTime cronExpr from s
  = (nextRunFrom cronExpr (default (clock_now (world s)) from), s).
Proof.
  unfold getNextRunTime, nextRunFrom, invalidCron. eff.
  destruct from as [d|]; cbn;
    (destruct (cron_parse cronExpr) as [expr|err]; cbn; [|reflexivity]);
    (destruct (cron_next expr _) as [d'|err]; reflexivity).
Qed.

Lemma isValidCron_parses cronExpr :
  isValidCron cronExpr = true -> exists expr, cron_parse cronExpr = inl expr.
Proof.
  unfold isValidCron.
  destruct (negb (Js.truthy cronExpr) || _); [discriminate|].
  destruct (cron_parse cronExpr) as [expr|err]; [eauto | discriminate].
Qed.

(** *** The registry *)

Lemma register_run workspace workflowPath nodeId label config s :
  let key := getTriggerKey workspace workflowPath nodeId in
  let r := length (heap (this s)) in
  register workspace workflowPath nodeId label config s
  = (inl r,
     onThis (fun m =>
               with_triggers (JsMap.set key r (triggers m))
                 (with_heap (heap m ++ [registered workspace workflowPath nodeId
                                          label config s])%list m)) s).
Proof.
  cbn zeta. unfold register, registered, registeredNextRun, alloc.
  unfold mbind, Eff_bind.
  destruct (cron config) as [expr|]; [|reflexivity].
  destruct (String.eqb (type config) "cron" && Js.truthy expr); [|reflexivity].
  unfold tryCatch. rewrite getNextRunTime_run.
  destruct (nextRunFrom expr _); reflexivity.
Qed.

Lemma JsMap_get_set {V} k (v : V) m : JsMap.get k (JsMap.set k v m) = Some v.
Proof.
  induction m as [|[k' v'] m IH]; cbn.
  - rewrite String.eqb_refl. reflexivity.
  - destruct (String.eqb k k') eqn:E; cbn; rewrite E; [reflexivity | exact IH].
Qed.

Lemma register_stores workspace workflowPath nodeId label config s :
  let key := getTriggerKey workspace workflowPath nodeId in
  let s' := snd (register workspace workflowPath nodeId label config s) in
  get workspace workflowPath nodeId s' = Some (length (heap (this s)))
  /\ deref s' (length (heap (this s)))
     = Some (registered workspace workflowPath nodeId label config s)
  /\ lookupTrigger key s'
     = Some (registered workspace workflowPath nodeId label config s).
Proof.
  cbn zeta. rewrite register_run. cbn.
  assert (Hd : (heap (this s) ++ [registered workspace workflowPath nodeId label config s])%list
               !! length (heap (this s))
               = Some (registered workspace workflowPath nodeId label config s)).
  { rewrite lookup_app_r by lia. rewrite Nat.sub_diag. reflexivity. }
  unfold get, lookupTrigger, deref. cbn. rewrite JsMap_get_set. cbn.
  auto.
Qed.

Lemma setEnabled_run workspace workflowPath nodeId b s :
  setEnabled workspace workflowPath nodeId b s
  = match get workspace workflowPath nodeId s with
    | Some r => (inl true, onThis (fun m => with_heap (alter (with_enabled b) r (heap m)) m) s)
    | None => (inl false, s)
    end.
Proof.
  unfold setEnabled, mutate. eff.
  destruct (get workspace workflowPath nodeId s); reflexivity.
Qed.

(** C5: registering a key again stores the new label and the new
    configuration under it and keeps the [lastRun] of the trigger that was
    stored under the key before; [register] returns the reference of the
    stored object and never throws. *)
Theorem register_keeps_lastRun (s : Sys)
    (workspace workflowPath nodeId label : string) (config : TriggerConfig) :
  let key := getTriggerKey workspace workflowPath nodeId in
  exists (r : ref) (s' : Sys) (t : RegisteredTrigger),
    register workspace workflowPath nodeId label config s = (inl r, s')
    /\ get workspace workflowPath nodeId s' = Some r
    /\ deref s' r = Some t
    /\ Triggers.label t = label
    /\ Triggers.config t = config
    /\ lastRun t = lookupTrigger key s ≫= lastRun
    /\ (forall old, lookupTrigger key s = Some old -> lastRun t = lastRun old).
Proof.
  cbn zeta.
  destruct (register_stores workspace workflowPath nodeId label config s)
    as (Hget & Hderef & _).
  rewrite register_run in *. cbn [snd] in *.
  eexists _, _, _. split; [reflexivity|].
  split; [exact Hget|]. split; [exact Hderef|].
  cbn. repeat split.
  intros old Hold. rewrite Hold. reflexivity.
Qed.

(** C9: the trigger [register] stores is enabled, whatever was stored under
    the key before: after [setEnabled(..., false)] the stored trigger is
    disabled, and registering the key again stores an enabled trigger that
    still has the old [lastRun]. *)
Theorem register_always_enables (s : Sys)
    (workspace workflowPath nodeId label : string) (config : TriggerConfig) :
  let key := getTriggerKey workspace workflowPath nodeId in
  (exists t, lookupTrigger key (snd (register workspace workflowPath nodeId label config s))
             = Some t /\ enabled t = true)
  /\ (forall old, lookupTrigger key s = Some old ->
        let s1 := snd (setEnabled workspace workflowPath nodeId false s) in
        let s2 := snd (register workspace workflowPath nodeId label config s1) in
        fst (setEnabled workspace workflowPath nodeId false s) = inl true
        /\ (exists off, lookupTrigger key s1 = Some off
                        /\ enabled off = false /\ lastRun off = lastRun old)
        /\ (exists t, lookupTrigger key s2 = Some t
                      /\ enabled t = true /\ lastRun t = lastRun old)).
Proof.
  cbn zeta. split.
  - destruct (register_stores workspace workflowPath nodeId label config s)
      as (_ & _ & Hl).
    eexists. split; [exact Hl | reflexivity].
  - intros old Hold.
    assert (Hoff : lookupTrigger (getTriggerKey workspace workflowPath nodeId)
                     (snd (setEnabled workspace workflowPath nodeId false s))
                   = Some (with_enabled false old)).
    { rewrite setEnabled_run. unfold lookupTrigger, get, deref in *.
      destruct (JsMap.get _ (triggers (this s))) as [r|] eqn:Hr; [|discriminate].
      change (heap (this s) !! r = Some old) in Hold.
      cbn. rewrite Hr. cbn. rewrite list_lookup_alter_eq. rewrite Hold. reflexivity. }
    split.
    { rewrite setEnabled_run. unfold lookupTrigger, get in *.
      destruct (JsMap.get _ (triggers (this s))); [reflexivity | discriminate]. }
    split.
    { eexists. split; [exact Hoff|]. split; reflexivity. }
    destruct (register_stores workspace workflowPath nodeId label config
                (snd (setEnabled workspace workflowPath nodeId false s)))
      as (_ & _ & Hl).
    eexists. split; [exact Hl|]. split; [reflexivity|].
    cbn. rewrite Hoff. reflexivity.
Qed.

(** C4: under the contract of the cron package, [getNextRunTime] returns,
    for every expression [isValidCron] accepts, an instant strictly after
    the base instant ([from], or the clock's time when [from] is not
    passed) and leaves the state as it is; for an expression the parser
    rejects it throws an error whose message starts with
    "Invalid cron expression". *)
Theorem getNextRunTime_strictly_after (Hcron : cron_contract)
    (cronExpr : string) (from : option Date) (s : Sys) :
  let baseTime := default (clock_now (world s)) from in
  (isValidCron cronExpr = true ->
     exists d, getNextRunTime cronExpr from s = (inl d, s) /\ baseTime < d)
  /\ (forall err, cron_parse cronExpr = inr err ->
        getNextRunTime cronExpr from s = (inr (invalidCron cronExpr err), s)
        /\ String.prefix "Invalid cron expression" (invalidCron cronExpr err) = true).
Proof.
  cbn zeta. rewrite getNextRunTime_run. unfold nextRunFrom. split.
  - intros Hvalid. apply isValidCron_parses in Hvalid as [expr Hexpr].
    rewrite Hexpr.
    destruct (Hcron expr (default (clock_now (world s)) from)) as (d & Hd & Hlt).
    rewrite Hd. eauto.
  - intros err Herr. rewrite Herr. split; reflexivity.
Qed.

(** *** The idle tracker *)

(** C7: [setIdle] never throws and touches [idleSince] only.
    [setIdle(true)] keeps a recorded instant and records the clock's time
    when there is none, so it changes nothing while idle; [setIdle(false)]
    clears the instant and changes nothing while busy; [getIdleDuration] is
    0 while not idle; after [setIdle(false)] then [setIdle(true)] the idle
    period starts at the time of that call: the duration is 0 at once and,
    in any later world, the time passed since. *)
Theorem setIdle_edge_triggered (s : Sys) :
  let after b := snd (setIdle b s) in
  let again := snd (setIdle true (after false)) in
  (forall b, fst (setIdle b s) = inl tt)
  /\ after true
     = onThis (with_idleSince
                 (Some (default (clock_now (world s)) (idleSince (this s))))) s
  /\ (isIdle s = true -> after true = s)
  /\ after false = onThis (with_idleSince None) s
  /\ (isIdle s = false -> after false = s)
  /\ (isIdle s = false -> getIdleDuration s = 0)
  /\ getIdleDuration again = 0
  /\ (forall w, getIdleDuration {| this := this again; world := w; calls := calls again |}
                = clock_now w - clock_now (world s)).
Proof.
  destruct s as [[h ts cb f [since|]] w c]; cbn;
    repeat split; intros; try destruct b; try reflexivity; try discriminate;
    cbv -[Z.sub clock_now]; lia.
Qed.

(** *** Due idle triggers *)

Lemma holds_true s p r :
  holds s p r = true <-> exists t, deref s r = Some t /\ p t = true.
Proof.
  unfold holds. destruct (deref s r) as [t|]; split.
  - eauto.
  - intros (t' & [= <-] & Hp). exact Hp.
  - discriminate.
  - intros (t' & [=] & _).
Qed.

Lemma filter_sublist {A} (p : A -> bool) (l : list A) : sublist (List.filter p l) l.
Proof.
  induction l as [|x l IH]; cbn; [constructor|].
  destruct (p x); constructor; exact IH.
Qed.

Lemma elem_of_List_filter {A} (p : A -> bool) (l : list A) x :
  x ∈ List.filter p l <-> x ∈ l /\ p x = true.
Proof. rewrite !list_elem_of_In. apply filter_In. Qed.

(** Minutes against milliseconds: the quotient compared by the code, and
    the same comparison on whole numbers. *)
Lemma minutes_le_iff (required elapsedMs : Z) :
  (inject_Z required <= inject_Z elapsedMs / inject_Z 60000)%Q
  <-> required * 60000 <= elapsedMs.
Proof.
  unfold Qle, Qdiv, Qmult, Qinv, inject_Z. cbn. lia.
Qed.

(** C6: [getDueIdleTriggers] is empty when the system is not idle. When it
    is idle since [since], the result lists, in registry order, exactly the
    registered triggers that are enabled, of type idle, and whose threshold
    in minutes (0 when not set) is at most the elapsed minutes
    [(now - since) / 60000]. So a trigger with threshold 0 is due at the
    instant the system became idle, and a disabled trigger is never in the
    result. *)
Theorem getDueIdleTriggers_exact (s : Sys) :
  (isIdle s = false -> getDueIdleTriggers s = [])
  /\ (forall since, idleSince (this s) = Some since ->
        let elapsedMinutes :=
          (inject_Z (clock_now (world s) - since) / inject_Z 60000)%Q in
        sublist (getDueIdleTriggers s) (getAll s)
        /\ forall r, r ∈ getDueIdleTriggers s
                     <-> r ∈ getAll s
                         /\ exists t, deref s r = Some t /\ idleDue elapsedMinutes t)
  /\ (forall r t, r ∈ getAll s -> deref s r = Some t ->
        enabled t = true -> type (config t) = "idle" ->
        default 0 (idleMinutes (config t)) = 0 ->
        idleSince (this s) = Some (clock_now (world s)) ->
        r ∈ getDueIdleTriggers s)
  /\ (forall r t, deref s r = Some t -> enabled t = false ->
        r ∉ getDueIdleTriggers s).
Proof.
  assert (Hchar : forall since, idleSince (this s) = Some since ->
            forall r, r ∈ getDueIdleTriggers s
              <-> r ∈ getAll s
                  /\ exists t, deref s r = Some t
                     /\ idleDue (inject_Z (clock_now (world s) - since) / inject_Z 60000) t).
  { intros since Hs r. unfold getDueIdleTriggers, getIdleDuration. rewrite Hs.
    rewrite elem_of_List_filter, holds_true.
    change (inject_Z (60 * 1000)) with (inject_Z 60000).
    split; intros (Hin & t & Ht & Hp); (split; [exact Hin|]); exists t;
      (split; [exact Ht|]).
    - destruct (enabled t) eqn:He; [|discriminate]. cbn in Hp.
      destruct (String.eqb (type (config t)) "idle") eqn:Hty; [|discriminate].
      cbn in Hp. apply String.eqb_eq in Hty. apply Qle_bool_iff in Hp.
      split; [exact He|]. split; [exact Hty | exact Hp].
    - destruct Hp as (He & Hty & Hle). rewrite He, Hty. cbn.
      apply Qle_bool_iff. exact Hle. }
  split; [|split; [|split]].
  - unfold isIdle, getDueIdleTriggers.
    destruct (idleSince (this s)); [discriminate | reflexivity].
  - intros since Hs. cbn zeta. split; [|exact (Hchar since Hs)].
    unfold getDueIdleTriggers. rewrite Hs. apply filter_sublist.
  - intros r t Hin Ht He Hty Hzero Hs.
    apply (Hchar _ Hs). split; [exact Hin|]. exists t. split; [exact Ht|].
    split; [exact He|]. split; [exact Hty|].
    rewrite Hzero, Z.sub_diag. apply minutes_le_iff. lia.
  - intros r t Ht He Hin.
    unfold getDueIdleTriggers in Hin.
    destruct (idleSince (this s)); [|inversion Hin].
    apply elem_of_List_filter in Hin as [_ Hp].
    apply holds_true in Hp as (t' & Ht' & Hp).
    rewrite Ht in Ht'. injection Ht' as <-. rewrite He in Hp. discriminate.
Qed.

(** *** The check cycle *)

Lemma alter_absent {A} (f : A -> A) (l : list A) i :
  l !! i = None -> alter f i l = l.
Proof.
  revert i. induction l as [|x l IH]; intros [|i] H; cbn in *;
    try reflexivity; try discriminate.
  f_equal. apply IH. exact H.
Qed.

Lemma alter_twice {A} (f g : A -> A) (l : list A) i :
  alter g i (alter f i l) = alter (fun x => g (f x)) i l.
Proof.
  revert i. induction l as [|x l IH]; intros [|i]; cbn; try reflexivity.
  f_equal. apply IH.
Qed.

Lemma alter_same_at {A} (f g : A -> A) (l : list A) i :
  (forall x, l !! i = Some x -> f x = g x) -> alter f i l = alter g i l.
Proof.
  revert i. induction l as [|x l IH]; intros [|i] H; cbn; try reflexivity.
  - f_equal. apply H. reflexivity.
  - f_equal. apply IH. exact H.
Qed.

Local Arguments getNextRunTime : simpl never.

Lemma markFired_run r s :
  markFired r s
  = (inl tt, onThis (fun m => with_heap (alter (markedFired s) r (heap m)) m) s).
Proof.
  unfold markFired, mutate. eff. cbn.
  unfold deref. cbn. rewrite list_lookup_alter_eq.
  destruct (heap (this s) !! r) as [t|] eqn:Ht; cbn.
  - assert (Hplain :
              alter (with_lastRun (Some (clock_now (world s)))) r (heap (this s))
              = alter (markedFired s) r (heap (this s)) ->
              (inl tt,
               onThis (fun m => with_heap
                 (alter (with_lastRun (Some (clock_now (world s)))) r (heap m)) m) s)
              = (inl tt : unit + string,
                 onThis (fun m => with_heap (alter (markedFired s) r (heap m)) m) s)).
    { intros E. unfold onThis. cbn. rewrite E. reflexivity. }
    destruct (cron (config t)) as [expr|] eqn:Hc.
    + destruct (String.eqb (type (config t)) "cron" && Js.truthy expr) eqn:Hb.
      * rewrite getNextRunTime_run. cbn.
        assert (Hboth : forall d,
                  alter (with_nextRun d) r
                    (alter (with_lastRun (Some (clock_now (world s)))) r (heap (this s)))
                  = alter (fun x => with_nextRun d
                                      (with_lastRun (Some (clock_now (world s))) x))
                      r (heap (this s))) by (intros; apply alter_twice).
        assert (Hm : forall x, heap (this s) !! r = Some x ->
                  markedFired s x
                  = with_nextRun
                      (match nextRunFrom expr (clock_now (world s)) with
                       | inl d => Some d
                       | inr _ => None
                       end) (with_lastRun (Some (clock_now (world s))) x)).
        { intros x Hx. rewrite Ht in Hx. injection Hx as <-.
          unfold markedFired. rewrite Hc, Hb. reflexivity. }
        destruct (nextRunFrom expr (clock_now (world s))) as [d|err]; cbn;
          unfold onThis; cbn; rewrite Hboth;
          rewrite (alter_same_at _ (markedFired s) _ r)
            by (intros x Hx; symmetry; apply Hm; exact Hx);
          reflexivity.
      * apply Hplain. apply alter_same_at. intros x Hx.
        rewrite Ht in Hx. injection Hx as <-. unfold markedFired.
        rewrite Hc, Hb. reflexivity.
    + apply Hplain. apply alter_same_at. intros x Hx.
      rewrite Ht in Hx. injection Hx as <-. unfold markedFired.
      rewrite Hc. reflexivity.
  - unfold onThis; cbn. rewrite !alter_absent by exact Ht. reflexivity.
Qed.

Lemma returned_app cs1 cs2 : returned (cs1 ++ cs2) = (returned cs1 ++ returned cs2)%list.
Proof. unfold returned. rewrite List.filter_app, map_app. reflexivity. Qed.
Lemma markedFired_static s t :
  enabled (markedFired s t) = enabled t /\ config (markedFired s t) = config t.
Proof.
  unfold markedFired. destruct (cron (config t)) as [expr|]; [|split; reflexivity].
  destruct (String.eqb (type (config t)) "cron" && Js.truthy expr); split; reflexivity.
Qed.

(** [markFired] as a part of a cycle that made the call [(r, true)]. *)
Lemma markedFired_lastRun s t : is_Some (lastRun (markedFired s t)).
Proof.
  unfold markedFired. destruct (cron (config t)) as [expr|]; [|cbn; eauto].
  destruct (String.eqb (type (config t)) "cron" && Js.truthy expr); cbn; eauto.
Qed.

Lemma at_index_elem {A} (xs : list A) index x : at_index xs index = Some x -> x ∈ xs.
Proof.
  unfold at_index. destruct (index <? 0); [discriminate|].
  intros H. apply list_elem_of_lookup. eauto.
Qed.

Lemma random_index_in_range (x : Q) (n : nat) :
  (0 <= x)%Q -> (x < 1)%Q -> (0 < n)%nat ->
  0 <= Qfloor (x * inject_Z (Z.of_nat n)) < Z.of_nat n.
Proof.
  intros H0 H1 Hn.
  assert (Hpos : (0 < inject_Z (Z.of_nat n))%Q).
  { change 0%Q with (inject_Z 0). rewrite <- Zlt_Qlt. lia. }
  split.
  - change 0 with (Qfloor 0). apply Qfloor_resp_le.
    apply Qmult_le_0_compat; [exact H0 | apply Qlt_le_weak; exact Hpos].
  - rewrite Zlt_Qlt. eapply Qle_lt_trans; [apply Qfloor_le|].
    rewrite <- (Qmult_1_l (inject_Z (Z.of_nat n))) at 2.
    apply Qmult_lt_compat_r; assumption.
Qed.

Lemma selectRandom_spec candidates s :
  exists (choice : option ref) (w : World),
    selectRandom candidates s
    = (inl choice, {| this := this s; world := w; calls := calls s |})
    /\ (forall r, choice = Some r -> r ∈ candidates)
    /\ (random_contract -> candidates <> [] -> is_Some choice).
Proof.
  unfold selectRandom. destruct (length candidates =? 0)%nat eqn:Hlen.
  - exists None, (world s). cbn. destruct s. split; [reflexivity|].
    split; [discriminate|]. intros _ Hne. apply Nat.eqb_eq in Hlen.
    destruct candidates; [congruence | discriminate].
  - apply Nat.eqb_neq in Hlen.
    destruct (Math_random (world s)) as [x w] eqn:Hx.
    eexists _, w. split; [reflexivity|]. split.
    + intros r Hr. eapply at_index_elem. exact Hr.
    + intros Hrand _. destruct (Hrand (world s)) as [H0 H1].
      rewrite Hx in H0, H1. cbn in H0, H1.
      pose proof (random_index_in_range x (length candidates) H0 H1 ltac:(lia)) as Hi.
      unfold at_index.
      destruct (Z.ltb_spec (Qfloor (x * inject_Z (Z.of_nat (length candidates)))) 0);
        [lia|].
      apply lookup_lt_is_Some. lia.
Qed.

Lemma due_idle_deref s r : r ∈ getDueIdleTriggers s -> is_Some (deref s r).
Proof.
  unfold getDueIdleTriggers. destruct (idleSince (this s)); [|intros H; inversion H].
  intros H. apply elem_of_List_filter in H as [_ H].
  apply holds_true in H as (t & Ht & _). eauto.
Qed.

Lemma due_cron_deref s r : r ∈ getDueTriggers s -> is_Some (deref s r).
Proof.
  unfold getDueTriggers.
  intros H. apply elem_of_List_filter in H as [_ H].
  apply holds_true in H as (t & Ht & _). eauto.
Qed.

Lemma save_run s :
  exists w, save s = (inl tt, {| this := this s; world := w; calls := calls s |}).
Proof.
  unfold save. eff. cbn. destruct (triggersFile (this s)) as [path|].
  - destruct (fs_writeState path (snapshot s) (clock_now (world s)) (world s))
      as [[e|] w]; exists w; reflexivity.
  - exists (world s). destruct s; reflexivity.
Qed.

Lemma callsSince_app s s' cs :
  calls s' = (calls s ++ cs)%list -> callsSince s s' = cs.
Proof. intros H. unfold callsSince. rewrite H. apply drop_app_length. Qed.

Lemma due_cron_type s r :
  r ∈ getDueTriggers s ->
  exists t, deref s r = Some t /\ type (config t) = "cron".
Proof.
  unfold getDueTriggers. intros H. apply elem_of_List_filter in H as [_ H].
  apply holds_true in H as (t & Ht & Hp). exists t. split; [exact Ht|].
  destruct (negb (enabled t)); [discriminate|].
  destruct (String.eqb (type (config t)) "cron") eqn:E; [|discriminate].
  apply String.eqb_eq. exact E.
Qed.

Lemma due_idle_type s r :
  r ∈ getDueIdleTriggers s ->
  exists t, deref s r = Some t /\ type (config t) = "idle".
Proof.
  unfold getDueIdleTriggers. destruct (idleSince (this s)); [|intros H; inversion H].
  intros H. apply elem_of_List_filter in H as [_ H].
  apply holds_true in H as (t & Ht & Hp). exists t. split; [exact Ht|].
  destruct (negb (enabled t)); [discriminate|].
  destruct (String.eqb (type (config t)) "idle") eqn:E; [|discriminate].
  apply String.eqb_eq. exact E.
Qed.

Lemma NoDup_List_filter {A} (p : A -> bool) (l : list A) :
  NoDup l -> NoDup (List.filter p l).
Proof.
  induction 1 as [|x l Hx Hnd IH]; cbn; [constructor|].
  destruct (p x); [|exact IH]. constructor; [|exact IH].
  intros Hin. apply elem_of_List_filter in Hin as [Hin _]. exact (Hx Hin).
Qed.

Lemma live_due_NoDup s : live s -> NoDup (getDueTriggers s).
Proof. intros [Hnd _]. unfold getDueTriggers. apply NoDup_List_filter. exact Hnd. Qed.


Lemma returned_elem cs r : r ∈ returned cs <-> (r, true) ∈ cs.
Proof.
  unfold returned. rewrite list_elem_of_In, in_map_iff. split.
  - intros ([r' b] & <- & Hin). apply filter_In in Hin as [Hin Hb].
    cbn in Hb. subst b. apply list_elem_of_In. exact Hin.
  - intros Hin. exists (r, true). split; [reflexivity|].
    apply filter_In. split; [apply list_elem_of_In; exact Hin | reflexivity].
Qed.

Lemma NoDup_fst_agree {A B} (l : list (A * B)) k a b :
  NoDup (map fst l) -> (k, a) ∈ l -> (k, b) ∈ l -> a = b.
Proof.
  induction l as [|[k' v] l IH]; intros Hnd Ha Hb; [inversion Ha|].
  cbn in Hnd. apply NoDup_cons in Hnd as [Hk Hnd].
  assert (Hfst : forall x, (k', x) ∈ l -> False).
  { intros x Hx. apply Hk. apply list_elem_of_fmap. exists (k', x). auto. }
  apply elem_of_cons in Ha as [Ea|Ha]; apply elem_of_cons in Hb as [Eb|Hb].
  - congruence.
  - exfalso. injection Ea as -> ->. eapply Hfst. exact Hb.
  - exfalso. injection Eb as -> ->. eapply Hfst. exact Ha.
  - exact (IH Hnd Ha Hb).
Qed.

(** *** The check cycle *)

Lemma invoke_afterCall cb r s :
  onTriggerFire (this s) = Some cb ->
  invoke cb r s
  = (match fst (afterCall cb r s) with Some e => inr e | None => inl tt end,
     snd (afterCall cb r s)).
Proof.
  intros Hcb. destruct cb as [body]. unfold invoke, afterCall, leave, reach.
  destruct (body r _ (world s)) as [[[err kept] w] installed]. cbn.
  rewrite Hcb. destruct installed; reflexivity.
Qed.

Lemma afterCall_calls cb r s :
  calls (snd (afterCall cb r s))
  = (calls s ++ [(r, negb (isSome (fst (afterCall cb r s))))])%list.
Proof.
  destruct cb as [body]. unfold afterCall.
  destruct (body r _ (world s)) as [[[err kept] w] installed]. reflexivity.
Qed.

Lemma afterCall_callback cb r s :
  is_Some (onTriggerFire (this (snd (afterCall cb r s)))).
Proof.
  destruct cb as [body]. unfold afterCall.
  destruct (body r _ (world s)) as [[[err kept] w] installed]. cbn. eauto.
Qed.

Lemma afterCall_length cb r s :
  (length (heap (this s)) <= length (heap (this (snd (afterCall cb r s)))))%nat.
Proof.
  destruct cb as [body]. unfold afterCall.
  destruct (body r _ (world s)) as [[[err kept] w] installed]. cbn.
  rewrite length_app, length_drop. lia.
Qed.

Lemma markFired_calls r s : calls (snd (markFired r s)) = calls s.
Proof. rewrite markFired_run. reflexivity. Qed.

Lemma markFired_callback r s :
  onTriggerFire (this (snd (markFired r s))) = onTriggerFire (this s).
Proof. rewrite markFired_run. reflexivity. Qed.

(** One trigger of a cycle: the code does what the spec says. *)
Lemma fireTrigger_fireOne r fired s :
  fireTrigger r fired s
  = (inl (fired ++ (if isSome (thrown r s) then [] else [r]))%list, fireOne r s).
Proof.
  unfold fireTrigger, fireOne, thrown. eff. cbn.
  destruct (onTriggerFire (this s)) as [cb|] eqn:Hcb.
  - rewrite (invoke_afterCall cb r s Hcb).
    destruct (afterCall cb r s) as [[e|] s1]; cbn.
    + rewrite app_nil_r. reflexivity.
    + rewrite markFired_run. reflexivity.
  - rewrite markFired_run. reflexivity.
Qed.

Lemma fireOne_calls r s :
  calls (fireOne r s)
  = (calls s ++ match onTriggerFire (this s) with
                | Some _ => [(r, negb (isSome (thrown r s)))]
                | None => []
                end)%list.
Proof.
  unfold fireOne, thrown. destruct (onTriggerFire (this s)) as [cb|].
  - pose proof (afterCall_calls cb r s) as Hc.
    destruct (afterCall cb r s) as [[e|] s1]; cbn in *.
    + exact Hc.
    + rewrite markFired_calls. exact Hc.
  - rewrite markFired_calls, app_nil_r. reflexivity.
Qed.

Lemma fireOne_callback r s :
  is_Some (onTriggerFire (this s)) -> is_Some (onTriggerFire (this (fireOne r s))).
Proof.
  intros [cb Hcb]. unfold fireOne. rewrite Hcb.
  pose proof (afterCall_callback cb r s) as Hc.
  destruct (afterCall cb r s) as [[e|] s1]; cbn in *.
  - exact Hc.
  - rewrite markFired_callback. exact Hc.
Qed.

Lemma fireEach_app due1 due2 s :
  fireEach (due1 ++ due2) s = fireEach due2 (fireEach due1 s).
Proof. unfold fireEach. apply fold_left_app. Qed.

(** The cron loop: the code fires each trigger of the list in turn. *)
Lemma fireAll_fireEach due : forall fired s,
  exists pushed,
    fireAll due fired s = (inl (fired ++ pushed)%list, fireEach due s)
    /\ sublist pushed due.
Proof.
  induction due as [|r due IH]; intros fired s.
  - exists []. cbn. rewrite app_nil_r. split; [reflexivity | constructor].
  - cbn [fireAll]. eff. rewrite fireTrigger_fireOne.
    destruct (IH (fired ++ (if isSome (thrown r s) then [] else [r]))%list (fireOne r s))
      as (pushed & Hrun & Hsub).
    exists ((if isSome (thrown r s) then [] else [r]) ++ pushed)%list.
    rewrite Hrun, app_assoc. split; [reflexivity|].
    destruct (isSome (thrown r s)); cbn; constructor; exact Hsub.
Qed.

(** The cron loop with a callback registered: one call for each trigger, in
    the order of the list, each as the callback registered at that moment
    answers it; the triggers pushed are those whose call returned. *)
Lemma fireEach_calls due : forall s,
  is_Some (onTriggerFire (this s)) ->
  exists cs,
    calls (fireEach due s) = (calls s ++ cs)%list
    /\ map fst cs = due
    /\ is_Some (onTriggerFire (this (fireEach due s)))
    /\ (forall fired,
          fireAll due fired s = (inl (fired ++ returned cs)%list, fireEach due s))
    /\ (forall i r okay, cs !! i = Some (r, okay) ->
          okay = negb (isSome (thrown r (fireEach (take i due) s)))).
Proof.
  induction due as [|r due IH]; intros s Hcb.
  - exists []. cbn. rewrite app_nil_r. split; [reflexivity|]. split; [reflexivity|].
    split; [exact Hcb|]. split.
    + intros fired. rewrite app_nil_r. reflexivity.
    + intros i r okay Hi. rewrite lookup_nil in Hi. discriminate.
  - destruct (IH (fireOne r s) (fireOne_callback r s Hcb))
      as (cs & Hcalls & Hmap & Hcb' & Hrun & Htie).
    exists ((r, negb (isSome (thrown r s))) :: cs).
    change (fireEach (r :: due) s) with (fireEach due (fireOne r s)).
    split; [|split; [|split; [exact Hcb'|split]]].
    + rewrite Hcalls, fireOne_calls. destruct Hcb as [cb ->].
      rewrite <- app_assoc. reflexivity.
    + cbn. rewrite Hmap. reflexivity.
    + intros fired. cbn [fireAll]. eff. rewrite fireTrigger_fireOne, Hrun.
      rewrite <- app_assoc. f_equal. f_equal. unfold returned. cbn.
      destruct (isSome (thrown r s)); reflexivity.
    + intros i r' okay Hi. destruct i as [|i]; cbn in Hi.
      * injection Hi as <- <-. reflexivity.
      * change (fireEach (take (S i) (r :: due)) s)
          with (fireEach (take i due) (fireOne r s)).
        exact (Htie i r' okay Hi).
Qed.

Lemma selectRandom_run candidates s :
  candidates <> [] ->
  selectRandom candidates s
  = (inl (at_index candidates
            (Qfloor (fst (Math_random (world s))
                     * inject_Z (Z.of_nat (length candidates))))),
     drawn s).
Proof.
  intros Hne. unfold selectRandom, drawn.
  destruct candidates as [|c cs]; [contradiction|]. cbn [length Nat.eqb].
  destruct (Math_random (world s)) as [x w]. reflexivity.
Qed.

(** The idle branch: nothing, and no draw, when no idle trigger is due;
    otherwise one draw, and the trigger drawn is fired. *)
Lemma fireIdle_run fired s :
  (getDueIdleTriggers s = [] -> fireIdle fired s = (inl fired, s))
  /\ (getDueIdleTriggers s <> [] ->
      exists chosen : option ref,
        (forall r, chosen = Some r -> r ∈ getDueIdleTriggers s)
        /\ (random_contract -> is_Some chosen)
        /\ fireIdle fired s
           = match chosen with
             | Some r =>
                 (inl (fired ++ (if isSome (thrown r (drawn s)) then [] else [r]))%list,
                  fireOne r (drawn s))
             | None => (inl fired, drawn s)
             end).
Proof.
  unfold fireIdle. eff. cbn -[Nat.ltb]. split.
  - intros ->. reflexivity.
  - intros Hne.
    destruct (selectRandom_spec (getDueIdleTriggers s) s) as (choice & w & Hsel & Hmem & Hsome).
    pose proof (selectRandom_run _ s Hne) as Hrun. rewrite Hrun in Hsel.
    assert (Hchoice : at_index (getDueIdleTriggers s)
                        (Qfloor (fst (Math_random (world s))
                                 * inject_Z (Z.of_nat (length (getDueIdleTriggers s)))))
                      = choice) by congruence.
    clear Hsel. exists choice. split; [exact Hmem|].
    split; [intros Hrand; exact (Hsome Hrand Hne)|].
    assert (Hlen : (0 <? length (getDueIdleTriggers s))%nat = true).
    { destruct (getDueIdleTriggers s); [contradiction | reflexivity]. }
    rewrite Hlen, Hrun, Hchoice. destruct choice as [r|]; [|reflexivity].
    apply fireTrigger_fireOne.
Qed.

(** *** What stays when the callback leaves the manager alone *)

Lemma steady_refl s : steady s s.
Proof. constructor; try reflexivity. intros r t Ht. eauto. Qed.

Lemma steady_trans s s1 s2 : steady s s1 -> steady s1 s2 -> steady s s2.
Proof.
  intros [T1 B1 F1 I1 L1 O1] [T2 B2 F2 I2 L2 O2]. constructor; try congruence.
  intros r t Ht. destruct (O1 r t Ht) as (t1 & Ht1 & E1 & M1).
  destruct (O2 r t1 Ht1) as (t2 & Ht2 & E2 & M2).
  exists t2. split; [exact Ht2|]. split; [congruence | auto].
Qed.

Lemma steady_world s w : steady s {| this := this s; world := w; calls := calls s |}.
Proof. constructor; try reflexivity. intros r t Ht. eauto. Qed.

Lemma steady_calls s w cs : steady s {| this := this s; world := w; calls := cs |}.
Proof. constructor; try reflexivity. intros r t Ht. eauto. Qed.

Lemma markedFired_rest s t :
  with_nextRun None (with_lastRun None (markedFired s t))
  = with_nextRun None (with_lastRun None t).
Proof.
  unfold markedFired. destruct (cron (config t)) as [expr|]; [|reflexivity].
  destruct (_ && _); reflexivity.
Qed.

Lemma steady_markFired r s : steady s (snd (markFired r s)).
Proof.
  rewrite markFired_run. constructor; cbn; try reflexivity.
  - apply length_alter.
  - intros r' t Ht. unfold deref in *. cbn.
    destruct (decide (r = r')) as [->|Hne].
    + rewrite list_lookup_alter_eq, Ht. cbn. eexists. split; [reflexivity|].
      split; [apply markedFired_rest|]. intros _. apply markedFired_lastRun.
    + rewrite list_lookup_alter_ne by exact Hne. eauto.
Qed.

(** The call of a quiet callback changes the world and the history
    only. *)
Lemma afterCall_quiet cb r s :
  onTriggerFire (this s) = Some cb -> quiet cb ->
  this (snd (afterCall cb r s)) = this s.
Proof.
  intros Hcb Hq. destruct cb as [body]. unfold afterCall.
  destruct (Hq r {| objects := heap (this s); registry := triggers (this s);
                    idle := idleSince (this s) |} (world s)) as (err & w' & ->).
  cbn. rewrite drop_all, app_nil_r, <- Hcb. destruct s as [[h ts c f i] w cs]. reflexivity.
Qed.

Lemma steady_this s s' : this s' = this s -> steady s s'.
Proof.
  intros E. constructor; rewrite ?E; try reflexivity.
  intros r t Ht. exists t. unfold deref in *. rewrite E. auto.
Qed.

Lemma calm_steady s s' : steady s s' -> calm s -> calm s'.
Proof. intros Hst Hc cb Hcb. apply Hc. rewrite <- (steady_callback _ _ Hst). exact Hcb. Qed.

Lemma fireOne_steady r s : calm s -> steady s (fireOne r s).
Proof.
  intros Hcalm. unfold fireOne. destruct (onTriggerFire (this s)) as [cb|] eqn:Hcb.
  - pose proof (afterCall_quiet cb r s Hcb (Hcalm cb Hcb)) as Hthis.
    destruct (afterCall cb r s) as [[e|] s1]; cbn in *.
    + apply steady_this. exact Hthis.
    + eapply steady_trans; [apply steady_this; exact Hthis | apply steady_markFired].
  - apply steady_markFired.
Qed.

Lemma fireEach_steady due : forall s, calm s -> steady s (fireEach due s).
Proof.
  induction due as [|r due IH]; intros s Hcalm; [apply steady_refl|].
  change (fireEach (r :: due) s) with (fireEach due (fireOne r s)).
  pose proof (fireOne_steady r s Hcalm) as H1.
  exact (steady_trans _ _ _ H1 (IH _ (calm_steady _ _ H1 Hcalm))).
Qed.

(** A trigger fired has a [lastRun]. *)
Lemma fireOne_marks r s :
  calm s -> is_Some (deref s r) -> thrown r s = None ->
  exists t, deref (fireOne r s) r = Some t /\ is_Some (lastRun t).
Proof.
  intros Hcalm [t Ht] Hthrown. unfold fireOne, thrown in *.
  assert (Hmark : forall s1, this s1 = this s ->
            exists t', deref (snd (markFired r s1)) r = Some t' /\ is_Some (lastRun t')).
  { intros s1 E. rewrite markFired_run. unfold deref in *. cbn.
    rewrite list_lookup_alter_eq, E, Ht. cbn. eexists. split; [reflexivity|].
    apply markedFired_lastRun. }
  destruct (onTriggerFire (this s)) as [cb|] eqn:Hcb.
  - pose proof (afterCall_quiet cb r s Hcb (Hcalm cb Hcb)) as Hthis.
    destruct (afterCall cb r s) as [[e|] s1]; cbn in *; [discriminate|].
    exact (Hmark s1 Hthis).
  - exact (Hmark s eq_refl).
Qed.

(** *** What stays of an object the callback spares *)

Lemma afterCall_spares r cb r' s :
  spares r cb ->
  deref (snd (afterCall cb r' s)) r = deref s r
  /\ forall cb', onTriggerFire (this (snd (afterCall cb r' s))) = Some cb' -> spares r cb'.
Proof.
  intros Hsp. pose proof Hsp as Hwhole. destruct cb as [body]. cbn [spares] in Hsp.
  unfold afterCall.
  specialize (Hsp r' {| objects := heap (this s); registry := triggers (this s);
                        idle := idleSince (this s) |} (world s)).
  destruct (body r' _ (world s)) as [[[err kept] w] installed]. cbn in Hsp.
  destruct Hsp as [Hobj Hinst]. split; [exact Hobj|].
  cbn [snd this onTriggerFire]. intros cb' [= <-].
  destruct installed as [cb''|]; [exact Hinst | exact Hwhole].
Qed.

Lemma markFired_other r r' s : r' <> r -> deref (snd (markFired r' s)) r = deref s r.
Proof.
  intros Hne. rewrite markFired_run. unfold deref. cbn.
  apply list_lookup_alter_ne. exact Hne.
Qed.

Lemma fireOne_spares r r' s :
  (forall cb, onTriggerFire (this s) = Some cb -> spares r cb) ->
  r' <> r \/ is_Some (thrown r' s) ->
  deref (fireOne r' s) r = deref s r
  /\ forall cb, onTriggerFire (this (fireOne r' s)) = Some cb -> spares r cb.
Proof.
  intros Hsp Hcase. unfold fireOne, thrown in *.
  destruct (onTriggerFire (this s)) as [cb|] eqn:Hcb.
  - destruct (afterCall_spares r cb r' s (Hsp cb eq_refl)) as [Hobj Hinst].
    destruct (afterCall cb r' s) as [[e|] s1]; cbn in *; [auto|].
    destruct Hcase as [Hne|[x [=]]].
    rewrite markFired_other by exact Hne. rewrite markFired_callback. auto.
  - destruct Hcase as [Hne|[x [=]]].
    rewrite markFired_other by exact Hne. rewrite markFired_callback, Hcb.
    split; [reflexivity | discriminate].
Qed.

Lemma fireEach_spares r due : forall s,
  (forall cb, onTriggerFire (this s) = Some cb -> spares r cb) ->
  r ∉ due ->
  deref (fireEach due s) r = deref s r
  /\ forall cb, onTriggerFire (this (fireEach due s)) = Some cb -> spares r cb.
Proof.
  induction due as [|r' due IH]; intros s Hsp Hnot; [auto|].
  change (fireEach (r' :: due) s) with (fireEach due (fireOne r' s)).
  destruct (fireOne_spares r r' s Hsp) as [Hobj Hsp'].
  { left. intros ->. apply Hnot. left. }
  destruct (IH (fireOne r' s) Hsp') as [Hobj' Hsp''].
  { intros Hin. apply Hnot. right. exact Hin. }
  split; [congruence | exact Hsp''].
Qed.

(** *** The cycle as a whole *)

Lemma checkAndFire_run s pushed fired s2 :
  fireAll (getDueTriggers s) [] s = (inl pushed, cronPhase s) ->
  fireIdle pushed (cronPhase s) = (inl fired, s2) ->
  checkAndFire s
  = (inl fired, if (0 <? length fired)%nat then snd (save s2) else s2).
Proof.
  intros Hcron Hidle. unfold checkAndFire. eff. cbn -[Nat.ltb].
  unfold cronPhase in *. rewrite Hcron. cbn -[Nat.ltb]. rewrite Hidle.
  destruct (0 <? length fired)%nat; [|reflexivity].
  destruct (save_run s2) as [w ->]. reflexivity.
Qed.

Lemma save_keeps s :
  this (snd (save s)) = this s /\ calls (snd (save s)) = calls s.
Proof. destruct (save_run s) as [w ->]. split; reflexivity. Qed.

(** The cycle with a callback registered and [Math.random] in its range,
    told by the calls it makes. *)
Lemma checkAndFire_cycle s :
  random_contract -> is_Some (onTriggerFire (this s)) ->
  exists cronCalls idleCalls : list (ref * bool),
    let beforeSave :=
      match idleCalls with
      | (r, _) :: _ => fireOne r (drawn (cronPhase s))
      | [] => cronPhase s
      end in
    let fired := returned (cronCalls ++ idleCalls) in
    checkAndFire s
    = (inl fired, if (0 <? length fired)%nat then snd (save beforeSave) else beforeSave)
    /\ afterCron s = cronPhase s
    /\ calls (cronPhase s) = (calls s ++ cronCalls)%list
    /\ map fst cronCalls = getDueTriggers s
    /\ (forall i r okay, cronCalls !! i = Some (r, okay) ->
          okay = negb (isSome (thrown r (fireEach (take i (getDueTriggers s)) s))))
    /\ (getDueIdleTriggers (cronPhase s) = [] -> idleCalls = [])
    /\ (getDueIdleTriggers (cronPhase s) <> [] ->
          exists r, idleCalls = [(r, negb (isSome (thrown r (drawn (cronPhase s)))))]
                    /\ r ∈ getDueIdleTriggers (cronPhase s))
    /\ calls beforeSave = (calls s ++ cronCalls ++ idleCalls)%list.
Proof.
  intros Hrand Hcb.
  destruct (fireEach_calls (getDueTriggers s) s Hcb)
    as (cs1 & Hcalls1 & Hmap & Hcb1 & Hrun1 & Htie).
  fold (cronPhase s) in *.
  assert (Hafter : afterCron s = cronPhase s).
  { unfold afterCron. rewrite (Hrun1 []). reflexivity. }
  exists cs1.
  destruct (fireIdle_run (returned cs1) (cronPhase s)) as [Hnone Hsome].
  destruct (getDueIdleTriggers (cronPhase s)) as [|c cands] eqn:Hdue.
  - exists []. cbn zeta. rewrite app_nil_r.
    split; [apply (checkAndFire_run s _ _ _ (Hrun1 [])); apply Hnone; reflexivity|].
    split; [exact Hafter|]. split; [exact Hcalls1|]. split; [exact Hmap|].
    split; [exact Htie|]. split; [reflexivity|]. split; [intros H; contradiction|].
    exact Hcalls1.
  - destruct (Hsome ltac:(discriminate)) as (chosen & Hmem & Hcontract & Hidle).
    destruct (Hcontract Hrand) as [r ->].
    exists [(r, negb (isSome (thrown r (drawn (cronPhase s)))))]. cbn zeta.
    assert (Hret : (returned cs1
                    ++ (if isSome (thrown r (drawn (cronPhase s))) then [] else [r]))%list
                   = returned (cs1 ++ [(r, negb (isSome (thrown r (drawn (cronPhase s)))))])).
    { rewrite returned_app. f_equal. unfold returned. cbn.
      destruct (isSome (thrown r (drawn (cronPhase s)))); reflexivity. }
    rewrite Hret in Hidle.
    split; [exact (checkAndFire_run s _ _ _ (Hrun1 []) Hidle)|].
    split; [exact Hafter|]. split; [exact Hcalls1|]. split; [exact Hmap|].
    split; [exact Htie|]. split; [discriminate|].
    split; [intros _; exists r; split; [reflexivity | apply Hmem; reflexivity]|].
    rewrite fireOne_calls. cbn [drawn this calls].
    destruct Hcb1 as [cb1 ->]. rewrite Hcalls1, <- app_assoc. reflexivity.
Qed.

(** C2: with a callback registered, and [Math.random] in its range, one
    cycle of [checkAndFire] on a registry with live references calls the
    callback once for every due cron trigger, in registry order, and after
    that, when some idle trigger is due once the cron triggers have fired,
    exactly once more, for a member of that due set (and not at all when
    none is due). The list it returns holds exactly the references whose
    call returned, in call order. The calls are calls of the callback: the
    cycle is the one of the spec, in which each due cron trigger in turn,
    and then the idle trigger drawn, is given to the callback registered at
    that moment, on the manager and the world as they are then; whether a
    call counts as returned is whether that call threw; the trigger is
    marked fired unless it did; and at the end the state is saved if a
    trigger fired. *)
Theorem checkAndFire_calls (s : Sys) (cb : Callback) :
  live s -> random_contract -> onTriggerFire (this s) = Some cb ->
  exists (fired : list ref) (s' : Sys) (cronCalls idleCalls : list (ref * bool)),
    checkAndFire s = (inl fired, s')
    /\ callsSince s s' = (cronCalls ++ idleCalls)%list
    /\ map fst cronCalls = getDueTriggers s
    /\ NoDup (getDueTriggers s)
    /\ (getDueIdleTriggers (afterCron s) = [] -> idleCalls = [])
    /\ (getDueIdleTriggers (afterCron s) <> [] ->
          exists r okay, idleCalls = [(r, okay)]
                         /\ r ∈ getDueIdleTriggers (afterCron s))
    /\ fired = returned (callsSince s s')
    /\ afterCron s = cronPhase s
    /\ calls (cronPhase s) = (calls s ++ cronCalls)%list
    /\ (forall i r okay, cronCalls !! i = Some (r, okay) ->
          okay = negb (isSome (thrown r (fireEach (take i (getDueTriggers s)) s))))
    /\ (forall r okay, idleCalls = [(r, okay)] ->
          okay = negb (isSome (thrown r (drawn (cronPhase s)))))
    /\ let beforeSave :=
         match idleCalls with
         | (r, _) :: _ => fireOne r (drawn (cronPhase s))
         | [] => cronPhase s
         end in
       s' = (if (0 <? length fired)%nat then snd (save beforeSave) else beforeSave).
Proof.
  intros Hlive Hrand Hcb.
  destruct (checkAndFire_cycle s Hrand (ex_intro _ cb Hcb))
    as (cs1 & cs2 & Hrun & Hafter & Hcalls1 & Hmap & Htie & Hnone & Hsome & Hcalls).
  cbn zeta in *.
  set (beforeSave := match cs2 with
                     | (r, _) :: _ => fireOne r (drawn (cronPhase s))
                     | [] => cronPhase s
                     end) in *.
  set (s' := if (0 <? length (returned (cs1 ++ cs2)))%nat
             then snd (save beforeSave) else beforeSave) in *.
  assert (Hs' : calls s' = (calls s ++ cs1 ++ cs2)%list).
  { subst s'. destruct (0 <? _)%nat; [|exact Hcalls].
    rewrite (proj2 (save_keeps beforeSave)). exact Hcalls. }
  assert (Hsince : callsSince s s' = (cs1 ++ cs2)%list)
    by (apply callsSince_app; exact Hs').
  exists (returned (cs1 ++ cs2)), s', cs1, cs2. rewrite Hsince, Hafter.
  split; [exact Hrun|]. split; [reflexivity|]. split; [exact Hmap|].
  split; [apply live_due_NoDup; exact Hlive|]. split; [exact Hnone|].
  split; [intros Hne; destruct (Hsome Hne) as (r & -> & Hr); eauto|].
  split; [reflexivity|]. split; [reflexivity|]. split; [exact Hcalls1|].
  split; [exact Htie|]. split; [|reflexivity].
  intros r okay E.
  destruct (getDueIdleTriggers (cronPhase s)) as [|c cands] eqn:Hdue.
  - rewrite (Hnone eq_refl) in E. discriminate.
  - destruct (Hsome ltac:(discriminate)) as (r' & Hr' & _). congruence.
Qed.

(** C3: with a callback registered, [checkAndFire] returns whatever the
    callback does. If the call for a due cron trigger throws, the cycle
    does nothing to that trigger: it goes on, from the state that call
    left, with the due cron triggers after it, every one of which is called,
    and then with the idle trigger as in any cycle. The call that threw is
    recorded as such; the trigger is not among those the cron loop returns,
    so it is in the list returned only if it is afterwards drawn as a due
    idle trigger; and when no callback assigns to its object, it is not in
    the list and its object, so its [lastRun] and [nextRun], is as it was
    before the cycle. The list returned holds the triggers whose call
    returned. The idle call is the call of the callback for the trigger
    drawn, which is marked fired unless that call threw, and the state is
    saved at the end if a trigger fired. *)
Theorem checkAndFire_isolates_failure (s : Sys) (cb : Callback)
    (before after : list ref) (r : ref) (e : string) :
  live s -> random_contract -> onTriggerFire (this s) = Some cb ->
  getDueTriggers s = (before ++ r :: after)%list ->
  thrown r (fireEach before s) = Some e ->
  exists (fired : list ref) (s' : Sys) (idleCalls : list (ref * bool)),
    checkAndFire s = (inl fired, s')
    /\ (exists cbr,
          onTriggerFire (this (fireEach before s)) = Some cbr
          /\ afterCron s = fireEach after (snd (afterCall cbr r (fireEach before s))))
    /\ (r, false) ∈ callsSince s s'
    /\ map fst (callsSince s s') = (getDueTriggers s ++ map fst idleCalls)%list
    /\ (getDueIdleTriggers (afterCron s) = [] -> idleCalls = [])
    /\ (getDueIdleTriggers (afterCron s) <> [] ->
          exists r' okay, idleCalls = [(r', okay)]
                          /\ r' ∈ getDueIdleTriggers (afterCron s))
    /\ fired = returned (callsSince s s')
    /\ (forall r', (r', true) ∈ callsSince s s' -> r' ∈ fired)
    /\ (r ∈ fired -> r ∈ getDueIdleTriggers (afterCron s))
    /\ (spares r cb -> (r ∉ fired) /\ deref s' r = deref s r)
    /\ (calm s ->
          forall r', r' ∈ fired ->
            exists t', deref s' r' = Some t' /\ is_Some (lastRun t'))
    /\ (forall r' okay, idleCalls = [(r', okay)] ->
          okay = negb (isSome (thrown r' (drawn (afterCron s)))))
    /\ s' = (let beforeSave :=
               match idleCalls with
               | (r', _) :: _ => fireOne r' (drawn (afterCron s))
               | [] => afterCron s
               end in
             if (0 <? length fired)%nat then snd (save beforeSave) else beforeSave).
Proof.
  intros Hlive Hrand Hcb Hdue Hthrown.
  destruct (checkAndFire_cycle s Hrand (ex_intro _ cb Hcb))
    as (cs1 & cs2 & Hrun & Hafter & Hcalls1 & Hmap & Htie & Hnone & Hsome & Hcalls).
  cbn zeta in *.
  set (beforeSave := match cs2 with
                     | (r, _) :: _ => fireOne r (drawn (cronPhase s))
                     | [] => cronPhase s
                     end) in *.
  set (s' := if (0 <? length (returned (cs1 ++ cs2)))%nat
             then snd (save beforeSave) else beforeSave) in *.
  assert (Hs' : calls s' = (calls s ++ cs1 ++ cs2)%list).
  { subst s'. destruct (0 <? _)%nat; [|exact Hcalls].
    rewrite (proj2 (save_keeps beforeSave)). exact Hcalls. }
  assert (Hthis : this s' = this beforeSave).
  { subst s'. destruct (0 <? _)%nat; [|reflexivity]. apply save_keeps. }
  assert (Hsince : callsSince s s' = (cs1 ++ cs2)%list)
    by (apply callsSince_app; exact Hs').
  pose proof (live_due_NoDup s Hlive) as Hnd.
  (* the state in which the callback is called for [r] *)
  set (X := fireEach before s) in *.
  destruct (fireEach_calls before s (ex_intro _ cb Hcb)) as (_ & _ & _ & [cbr Hcbr] & _).
  fold X in Hcbr.
  assert (Hstep : fireOne r X = snd (afterCall cbr r X)).
  { unfold fireOne, thrown in *. rewrite Hcbr in *.
    destruct (afterCall cbr r X) as [[e'|] s1]; cbn in *; [reflexivity | discriminate]. }
  assert (Hphase : cronPhase s = fireEach after (fireOne r X)).
  { unfold cronPhase. rewrite Hdue, fireEach_app. reflexivity. }
  (* the call for [r] is in the history, as a call that threw *)
  assert (Hcalled : (r, false) ∈ cs1).
  { assert (Hat : getDueTriggers s !! length before = Some r)
      by (rewrite Hdue; apply list_lookup_middle; reflexivity).
    change (map fst cs1) with (fst <$> cs1) in Hmap.
    rewrite <- Hmap, list_lookup_fmap in Hat.
    destruct (cs1 !! length before) as [[r0 okay]|] eqn:Hi; [|discriminate].
    cbn in Hat. injection Hat as ->.
    pose proof (Htie _ _ _ Hi) as Hok.
    rewrite Hdue, take_app_length in Hok. fold X in Hok. rewrite Hthrown in Hok.
    cbn in Hok. subst okay. apply list_elem_of_lookup. eauto. }
  assert (Hcron : r ∉ returned cs1).
  { intros Hin. apply returned_elem in Hin.
    assert (Hnd1 : NoDup (map fst cs1)) by (rewrite Hmap; exact Hnd).
    pose proof (NoDup_fst_agree _ _ _ _ Hnd1 Hcalled Hin). discriminate. }
  assert (Hidle : forall r', r' ∈ returned cs2 ->
            r' ∈ getDueIdleTriggers (cronPhase s)
            /\ cs2 = [(r', true)] /\ thrown r' (drawn (cronPhase s)) = None).
  { intros r' Hin. apply returned_elem in Hin.
    destruct (getDueIdleTriggers (cronPhase s)) as [|c cands] eqn:Hd.
    - rewrite (Hnone eq_refl) in Hin. inversion Hin.
    - destruct (Hsome ltac:(discriminate)) as (r0 & E & Hr0). rewrite E in Hin.
      apply list_elem_of_singleton in Hin. injection Hin as -> Hok.
      split; [exact Hr0|]. rewrite E, <- Hok. split; [reflexivity|].
      destruct (thrown r0 (drawn (cronPhase s))); [discriminate | reflexivity]. }
  assert (Hfired : r ∈ returned (cs1 ++ cs2) -> r ∈ getDueIdleTriggers (cronPhase s)).
  { intros Hin. rewrite returned_app in Hin. apply elem_of_app in Hin as [Hin|Hin].
    - contradiction.
    - apply (Hidle r Hin). }
  exists (returned (cs1 ++ cs2)), s', cs2. rewrite Hsince, Hafter.
  split; [exact Hrun|].
  split; [exists cbr; split; [exact Hcbr | rewrite Hphase, Hstep; reflexivity]|].
  split; [apply elem_of_app; left; exact Hcalled|].
  split; [rewrite map_app, Hmap; reflexivity|].
  split; [exact Hnone|].
  split; [intros Hne; destruct (Hsome Hne) as (r' & -> & Hr'); eauto|].
  split; [reflexivity|].
  split; [intros r' Hr'; apply returned_elem; exact Hr'|].
  split; [exact Hfired|]. split; [|split; [|split; [|reflexivity]]].
  - (* no callback assigns to the object *)
    intros Hsp.
    assert (Hsp0 : forall cb0, onTriggerFire (this s) = Some cb0 -> spares r cb0)
      by (intros cb0 E; rewrite Hcb in E; injection E as <-; exact Hsp).
    assert (Hsplit : (r ∉ before) /\ (r ∉ after)).
    { rewrite Hdue in Hnd. apply NoDup_app in Hnd as (_ & Hsep & Hnd2).
      apply NoDup_cons in Hnd2 as [Hr _]. split; [|exact Hr].
      intros Hin. apply (Hsep r Hin). left. }
    destruct Hsplit as [Hb Ha].
    destruct (fireEach_spares r before s Hsp0 Hb) as [E1 Hsp1]. fold X in E1, Hsp1.
    destruct (fireOne_spares r r X Hsp1) as [E2 Hsp2].
    { right. rewrite Hthrown. eauto. }
    destruct (fireEach_spares r after (fireOne r X) Hsp2 Ha) as [E3 Hsp3].
    rewrite <- Hphase in E3, Hsp3.
    assert (Hsame : deref (cronPhase s) r = deref s r) by congruence.
    assert (Hnotidle : r ∉ getDueIdleTriggers (cronPhase s)).
    { intros Hin. destruct (due_idle_type _ _ Hin) as (t & Ht & Hty).
      destruct (due_cron_type s r) as (t0 & Ht0 & Hty0).
      { rewrite Hdue. apply elem_of_app. right. left. }
      rewrite Hsame, Ht0 in Ht. injection Ht as <-. rewrite Hty0 in Hty. discriminate. }
    split; [intros Hin; exact (Hnotidle (Hfired Hin))|].
    unfold deref in *. rewrite Hthis. subst beforeSave.
    destruct cs2 as [|[r' okay] cs2']; [exact Hsame|].
    destruct (getDueIdleTriggers (cronPhase s)) as [|c cands] eqn:Hd;
      [specialize (Hnone eq_refl); discriminate|].
    destruct (Hsome ltac:(discriminate)) as (r0 & E & Hr0). injection E as -> _ _.
    destruct (fireOne_spares r r0 (drawn (cronPhase s)) Hsp3) as [E4 _].
    { left. intros ->. exact (Hnotidle Hr0). }
    unfold deref in E4. rewrite E4. exact Hsame.
  - (* callbacks that leave the manager alone: what fired is marked *)
    intros Hcalm r' Hin.
    assert (Hkeep : forall a b, steady a b ->
              (exists t, deref a r' = Some t /\ is_Some (lastRun t)) ->
              exists t, deref b r' = Some t /\ is_Some (lastRun t)).
    { intros a b Hst (t & Ht & Hl).
      destruct (steady_objects _ _ Hst r' t Ht) as (t' & Ht' & _ & Hl'). eauto. }
    pose proof (fireEach_steady (getDueTriggers s) s Hcalm) as Hst1.
    fold (cronPhase s) in Hst1.
    pose proof (calm_steady _ _ Hst1 Hcalm) as Hcalm1.
    assert (Hcalm2 : calm (drawn (cronPhase s))) by exact Hcalm1.
    assert (Hlast : steady (cronPhase s) s').
    { apply (steady_trans _ beforeSave); [|apply steady_this; exact Hthis].
      subst beforeSave. destruct cs2 as [|[r0 okay] cs2']; [apply steady_refl|].
      apply (steady_trans _ (drawn (cronPhase s))); [apply steady_world|].
      apply fireOne_steady. exact Hcalm2. }
    rewrite returned_app in Hin. apply elem_of_app in Hin as [Hin|Hin].
    + apply returned_elem, list_elem_of_lookup in Hin as [i Hi].
      pose proof (Htie _ _ _ Hi) as Hok.
      assert (Hat : getDueTriggers s !! i = Some r').
      { change (map fst cs1) with (fst <$> cs1) in Hmap.
        rewrite <- Hmap, list_lookup_fmap, Hi. reflexivity. }
      set (Si := fireEach (take i (getDueTriggers s)) s) in *.
      pose proof (fireEach_steady (take i (getDueTriggers s)) s Hcalm) as Hsti.
      fold Si in Hsti.
      assert (Hobj : is_Some (deref Si r')).
      { destruct (due_cron_deref s r') as [t Ht].
        { apply list_elem_of_lookup. eauto. }
        destruct (steady_objects _ _ Hsti r' t Ht) as (t' & Ht' & _). eauto. }
      assert (Hnot : thrown r' Si = None).
      { destruct (thrown r' Si); [discriminate | reflexivity]. }
      pose proof (fireOne_marks r' Si (calm_steady _ _ Hsti Hcalm) Hobj Hnot) as Hmarked.
      apply (Hkeep (cronPhase s) s' Hlast).
      assert (Hrest : cronPhase s
                      = fireEach (drop (S i) (getDueTriggers s)) (fireOne r' Si)).
      { unfold cronPhase.
        rewrite <- (take_drop (S i) (getDueTriggers s)) at 1.
        rewrite (take_S_r _ _ _ Hat), !fireEach_app. reflexivity. }
      rewrite Hrest. apply (Hkeep (fireOne r' Si)); [|exact Hmarked].
      apply fireEach_steady.
      exact (calm_steady _ _ (fireOne_steady r' Si (calm_steady _ _ Hsti Hcalm))
               (calm_steady _ _ Hsti Hcalm)).
    + destruct (Hidle r' Hin) as (Hr' & E & Hnot).
      assert (Hb : exists t, deref beforeSave r' = Some t /\ is_Some (lastRun t)).
      { subst beforeSave. rewrite E.
        apply (fireOne_marks r' (drawn (cronPhase s)) Hcalm2); [|exact Hnot].
        exact (due_idle_deref _ _ Hr'). }
      apply (Hkeep beforeSave s'); [apply steady_this; exact Hthis | exact Hb].
  - (* the idle call is the call of the callback *)
    intros r' okay E.
    destruct (getDueIdleTriggers (cronPhase s)) as [|c cands] eqn:Hd.
    + rewrite (Hnone eq_refl) in E. discriminate.
    + destruct (Hsome ltac:(discriminate)) as (r0 & E0 & _).
      rewrite E0 in E. injection E as <- <-. reflexivity.
Qed.

(** *** Live references are kept *)

Lemma live_new file w : live {| this := newManager file; world := w; calls := [] |}.
Proof. split; constructor. Qed.

Lemma values_set_elem {V} k (v : V) m x :
  x ∈ JsMap.values (JsMap.set k v m) -> x = v \/ x ∈ JsMap.values m.
Proof.
  induction m as [|[k' v'] m IH]; cbn.
  - intros H. apply list_elem_of_singleton in H. auto.
  - destruct (String.eqb k k'); cbn; intros H; apply elem_of_cons in H as [->|H].
    + auto.
    + right. right. exact H.
    + right. left.
    + destruct (IH H) as [->|Hin]; [auto | right; right; exact Hin].
Qed.

Lemma values_set_NoDup {V} k (v : V) m :
  NoDup (JsMap.values m) -> v ∉ JsMap.values m ->
  NoDup (JsMap.values (JsMap.set k v m)).
Proof.
  induction m as [|[k' v'] m IH]; cbn; intros Hnd Hv.
  - apply NoDup_singleton.
  - apply NoDup_cons in Hnd as [Hv' Hnd].
    assert (Hne : v <> v') by (intros ->; apply Hv; left).
    assert (Hvm : v ∉ JsMap.values m) by (intros H; apply Hv; right; exact H).
    destruct (String.eqb k k'); cbn; apply NoDup_cons.
    + split; [exact Hvm | exact Hnd].
    + split; [|exact (IH Hnd Hvm)].
      intros Hin. apply values_set_elem in Hin as [->|Hin]; [congruence | exact (Hv' Hin)].
Qed.

Lemma register_live workspace workflowPath nodeId label config s :
  live s -> live (snd (register workspace workflowPath nodeId label config s)).
Proof.
  intros [Hnd Hlt]. rewrite register_run. cbn. unfold live, getAll in *. cbn.
  rewrite Forall_forall in Hlt.
  assert (Hfresh : length (heap (this s)) ∉ JsMap.values (triggers (this s))).
  { intros Hin. specialize (Hlt _ Hin). lia. }
  split.
  - apply values_set_NoDup; assumption.
  - apply Forall_forall. intros x Hx. rewrite length_app. cbn.
    apply values_set_elem in Hx as [->|Hx]; [lia|].
    specialize (Hlt _ Hx). lia.
Qed.

Lemma setEnabled_live workspace workflowPath nodeId b s :
  live s -> live (snd (setEnabled workspace workflowPath nodeId b s)).
Proof.
  intros Hlive. rewrite setEnabled_run.
  destruct (get workspace workflowPath nodeId s) as [r|]; [|exact Hlive].
  destruct Hlive as [Hnd Hlt]. split; [exact Hnd|].
  unfold getAll in *. cbn. rewrite length_alter. exact Hlt.
Qed.

Lemma markFired_live r s : live s -> live (snd (markFired r s)).
Proof.
  intros [Hnd Hlt]. rewrite markFired_run. split; [exact Hnd|].
  unfold getAll in *. cbn. rewrite length_alter. exact Hlt.
Qed.

Lemma setIdle_live b s : live s -> live (snd (setIdle b s)).
Proof.
  intros Hlive. destruct s as [[h ts cb f [since|]] w c]; destruct b; exact Hlive.
Qed.

End Facts.

(** *** The properties at the states of the test suite *)

Import Scenario.

Lemma mock_cron_contract : cron_contract (host := mockHost).
Proof.
  intros hour t. cbn. unfold nextDaily. eexists. split; [reflexivity|].
  pose proof (Z.mod_pos_bound t day_ms ltac:(reflexivity)) as Hmod.
  pose proof (Z.div_mod t day_ms ltac:(discriminate)) as Hdiv.
  unfold day_ms, hour_ms in *.
  destruct (Z.ltb_spec t (t / 86400000 * 86400000 + Z.of_nat hour * 3600000)); lia.
Qed.

Lemma mock_random_contract : random_contract (host := mockHost).
Proof. intros w. cbn. split; [discriminate | reflexivity]. Qed.

Lemma live_mixed : live (host := mockHost) mixed.
Proof.
  split.
  - apply (bool_decide_unpack _). vm_compute. reflexivity.
  - apply (bool_decide_unpack _). vm_compute. reflexivity.
Qed.

(** [getNextRunTime('0 0 9 * * *', 10:00)] is 09:00 of the next day. *)
Example getNextRunTime_next_day :
  fst (getNextRunTime (host := mockHost) "0 0 9 * * *" (Some (jan1 + 10 * hour_ms))
         (start jan1))
  = inl (jan1 + day_ms + 9 * hour_ms).
Proof. vm_compute. reflexivity. Qed.

Lemma getNextRunTime_strictly_after_witness :
  exists d,
    getNextRunTime (host := mockHost) "0 0 9 * * *" None (start (jan1 + 10 * hour_ms))
    = (inl d, start (jan1 + 10 * hour_ms))
    /\ jan1 + 10 * hour_ms < d.
Proof.
  apply (getNextRunTime_strictly_after (host := mockHost) mock_cron_contract
           "0 0 9 * * *" None (start (jan1 + 10 * hour_ms))).
  vm_compute. reflexivity.
Defined.

Lemma checkAndFire_calls_witness :
  exists fired s' cronCalls idleCalls,
    checkAndFire (host := mockHost) mixed = (inl fired, s')
    /\ callsSince mixed s' = (cronCalls ++ idleCalls)%list
    /\ map fst cronCalls = getDueTriggers mixed
    /\ NoDup (getDueTriggers mixed)
    /\ (getDueIdleTriggers (afterCron mixed) = [] -> idleCalls = [])
    /\ (getDueIdleTriggers (afterCron mixed) <> [] ->
          exists r okay, idleCalls = [(r, okay)]
                         /\ r ∈ getDueIdleTriggers (afterCron mixed))
    /\ fired = returned (callsSince mixed s')
    /\ afterCron mixed = cronPhase mixed
    /\ calls (cronPhase mixed) = (calls mixed ++ cronCalls)%list
    /\ (forall i r okay, cronCalls !! i = Some (r, okay) ->
          okay = negb (isSome (thrown r (fireEach (take i (getDueTriggers mixed)) mixed))))
    /\ (forall r okay, idleCalls = [(r, okay)] ->
          okay = negb (isSome (thrown r (drawn (cronPhase mixed)))))
    /\ let beforeSave :=
         match idleCalls with
         | (r, _) :: _ => fireOne r (drawn (cronPhase mixed))
         | [] => cronPhase mixed
         end in
       s' = (if (0 <? length fired)%nat then snd (save beforeSave) else beforeSave).
Proof.
  apply (checkAndFire_calls (host := mockHost) mixed (failFor "t1")
           live_mixed mock_random_contract).
  reflexivity.
Defined.

Lemma checkAndFire_isolates_failure_witness :
  exists (fired : list nat) s',
    checkAndFire (host := mockHost) mixed = (inl fired, s')
    /\ afterCron mixed
       = fireEach [1%nat] (snd (afterCall (failFor "t1") 0%nat mixed))
    /\ (0%nat, false) ∈ callsSince mixed s'
    /\ (0%nat ∉ fired)
    /\ deref s' 0%nat = deref mixed 0%nat.
Proof.
  assert (Hdue : getDueTriggers (host := mockHost) mixed = ([] ++ 0 :: [1])%nat%list)
    by (vm_compute; reflexivity).
  assert (Hthrown : thrown (host := mockHost) 0%nat (fireEach [] mixed) = Some "boom")
    by (vm_compute; reflexivity).
  destruct (checkAndFire_isolates_failure (host := mockHost) mixed (failFor "t1")
              [] [1%nat] 0%nat "boom" live_mixed mock_random_contract eq_refl
              Hdue Hthrown)
    as (fired & s' & idleCalls & Hrun & (cbr & Hcbr & Hafter) & Hcalled
        & _ & _ & _ & _ & _ & _ & Hspares & _).
  exists fired, s'. split; [exact Hrun|].
  split; [injection Hcbr as <-; exact Hafter|]. split; [exact Hcalled|].
  apply Hspares. intros r' m w. cbn.
  destruct (String.eqb _ "t1"); cbn; rewrite drop_all, app_nil_r; split; auto.
Defined.

(** The callback of the tests spares every object and leaves the manager
    alone. *)
Lemma failFor_quiet bad : quiet (host := mockHost) (failFor bad).
Proof.
  intros r m w. cbn.
  destruct (String.eqb _ bad); eexists _, _; reflexivity.
Qed.

(** Registering a key again after the trigger fired and was disabled: the
    label and the configuration are the new ones, [lastRun] is kept, and
    the trigger is enabled again. *)
Example register_again :
  let fired := exec (markFired 0%nat;; setEnabled "ws1" "wf1.yaml" "t1" false)
                 (tick hour_ms threeCron) in
  let again := exec (register "ws1" "wf1.yaml" "t1" "Renamed" (idleCfg 3)) fired in
  (lookupTrigger "ws1:wf1.yaml:t1" fired ≫= fun t => Some (enabled t, lastRun t))
  = Some (false, Some (jan1 + 9 * hour_ms))
  /\ (lookupTrigger "ws1:wf1.yaml:t1" again
       ≫= fun t => Some (label t, config t, enabled t, lastRun t))
     = Some ("Renamed", idleCfg 3, true, Some (jan1 + 9 * hour_ms)).
Proof. vm_compute. split; reflexivity. Qed.

(** The cycle at [mixed]: the callback throws for the 09:00 trigger, the
    10:00 trigger and one of the two due idle triggers fire. *)
Example checkAndFire_mixed :
  fst (checkAndFire (host := mockHost) mixed) = inl [1%nat; 3%nat]
  /\ calls (exec checkAndFire mixed) = [(0%nat, false); (1%nat, true); (3%nat, true)]
  /\ deref (exec checkAndFire mixed) 0%nat = deref mixed 0%nat
  /\ firedIds (world (exec checkAndFire mixed)) = ["ws1:wf2.yaml:t2"; "ws1:wf4.yaml:t4"].
Proof. vm_compute. repeat split. Qed.

(** With a callback that makes the system busy when a workflow starts,
    the first cron trigger fired ends the idle period: both cron triggers
    fire, and no idle trigger is due any more when the cron loop is
    through. *)
Example checkAndFire_busy :
  fst (checkAndFire (host := mockHost) mixedBusy) = inl [0%nat; 1%nat]
  /\ calls (exec checkAndFire mixedBusy) = [(0%nat, true); (1%nat, true)]
  /\ isIdle (exec checkAndFire mixedBusy) = false
  /\ firedIds (world (exec checkAndFire mixedBusy))
     = ["ws1:wf1.yaml:t1"; "ws1:wf2.yaml:t2"].
Proof. vm_compute. repeat split. Qed.

(** [triggers.test.ts], "idle triggers with different thresholds become due
    at correct times". *)
Example idle_thresholds :
  getDueIdleTriggers (host := mockHost) (tick (1 * minute_ms) threeIdle) = []
  /\ getDueIdleTriggers (host := mockHost) (tick (3 * minute_ms) threeIdle) = [0%nat]
  /\ getDueIdleTriggers (host := mockHost) (tick (6 * minute_ms) threeIdle) = [0%nat; 1%nat]
  /\ getDueIdleTriggers (host := mockHost) (tick (11 * minute_ms) threeIdle)
     = [0%nat; 1%nat; 2%nat].
Proof. vm_compute. repeat split. Qed.

(** [triggers.test.ts], "getDueTriggers returns triggers past their nextRun
    time", and the next run after firing at 09:00. *)
Example cron_due_times :
  getDueTriggers (host := mockHost) (tick (59 * minute_ms) threeCron) = []
  /\ getDueTriggers (host := mockHost) (tick hour_ms threeCron) = [0%nat]
  /\ getDueTriggers (host := mockHost) (tick (2 * hour_ms) threeCron) = [0%nat; 1%nat]
  /\ (deref (exec (markFired 0%nat) (tick hour_ms threeCron)) 0%nat ≫= nextRun)
     = Some (jan1 + day_ms + 9 * hour_ms).
Proof. vm_compute. repeat split. Qed.

End TriggerFacts.

(** * Properties of the executor *)

Module ExecutorFacts.
Import Executor ExecSpec TraversalSpec.

(** *** The maps built from the request *)

Lemma buildNodeMap_lookup nodes k n :
  buildNodeMap nodes !! k = Some n -> id n = k /\ n ∈ nodes.
Proof.
  unfold buildNodeMap.
  assert (Hgen : forall (m : gmap string WorkflowNode) (seen : list WorkflowNode),
            (forall k n, m !! k = Some n -> id n = k /\ n ∈ seen) ->
            forall k n, fold_left (fun m n => <[id n := n]> m) nodes m !! k = Some n ->
                        id n = k /\ n ∈ (seen ++ nodes)%list).
  { induction nodes as [|x nodes IH]; intros m seen Hm k' n' H; cbn in H.
    - rewrite app_nil_r. exact (Hm _ _ H).
    - change (x :: nodes) with ([x] ++ nodes)%list. rewrite app_assoc.
      apply (IH (<[id x := x]> m) (seen ++ [x])%list); [|exact H].
      intros k2 n2 H2. destruct (decide (id x = k2)) as [<-|Hne].
      + rewrite lookup_insert_eq in H2. injection H2 as <-.
        split; [reflexivity|]. apply elem_of_app. right. left.
      + rewrite lookup_insert_ne in H2 by exact Hne.
        destruct (Hm _ _ H2). split; [assumption|]. apply elem_of_app. left. assumption. }
  intros H. apply (Hgen ∅ []); [|exact H].
  intros k' n' H'. rewrite lookup_empty in H'. discriminate.
Qed.

(** The adjacency list of an id: the targets of the edges out of it, in
    the order of the edges. *)
Lemma buildAdjacencyMap_lookup edges k :
  default [] (buildAdjacencyMap edges !! k)
  = map target (List.filter (fun e => String.eqb (source e) k) edges).
Proof.
  unfold buildAdjacencyMap.
  assert (Hgen : forall m : gmap string (list string),
            default [] (fold_left
              (fun adjacency edge =>
                 let adjacency :=
                   match adjacency !! source edge with
                   | Some _ => adjacency
                   | None => <[source edge := []]> adjacency
                   end in
                 <[source edge := (default [] (adjacency !! source edge) ++ [target edge])%list]>
                   adjacency) edges m !! k)
            = (default [] (m !! k)
               ++ map target (List.filter (fun e => String.eqb (source e) k) edges))%list).
  { induction edges as [|e edges IH]; intros m; cbn.
    - rewrite app_nil_r. reflexivity.
    - rewrite IH. clear IH.
      assert (Hsame : forall m1 : gmap string (list string),
                (m1 = m \/ m1 = <[source e := []]> m /\ m !! source e = None) ->
                default [] (<[source e := (default [] (m1 !! source e) ++ [target e])%list]> m1 !! k)
                = (default [] (m !! k)
                   ++ (if String.eqb (source e) k then [target e] else []))%list).
      { intros m1 Hm1. destruct (String.eqb_spec (source e) k) as [<-|Hne].
        - rewrite lookup_insert_eq. cbn. f_equal.
          destruct Hm1 as [->|[-> Hnone]]; [reflexivity|].
          rewrite lookup_insert_eq, Hnone. reflexivity.
        - rewrite lookup_insert_ne by exact Hne. rewrite app_nil_r.
          destruct Hm1 as [->|[-> _]]; [reflexivity|].
          rewrite lookup_insert_ne by exact Hne. reflexivity. }
      destruct (m !! source e) eqn:Hsrc.
      + rewrite (Hsame m) by (left; reflexivity).
        destruct (String.eqb (source e) k); cbn; rewrite <- ?app_assoc; reflexivity.
      + rewrite (Hsame (<[source e := []]> m)) by (right; split; reflexivity).
        destruct (String.eqb (source e) k); cbn; rewrite <- ?app_assoc; reflexivity. }
  rewrite Hgen, lookup_empty. reflexivity.
Qed.

Section Facts.
Context {host : Host}.

(** *** One node *)

Lemma runCommands_nodeId node cwd startTime commands : forall outputs lastExitCode w,
  nodeId (fst (runCommands node cwd startTime commands outputs lastExitCode w)) = id node.
Proof.
  induction commands as [|command rest IH]; intros outputs code w; cbn; [reflexivity|].
  destruct (negb (Js.truthy (Js.trim command))); [apply IH|].
  destruct (executeShellCommand command cwd w) as [[out c] w'].
  destruct (negb (c =? 0)); [reflexivity | apply IH].
Qed.

Lemma executeNode_nodeId node rootDirectory w :
  nodeId (fst (executeNode node rootDirectory w)) = id node.
Proof.
  unfold executeNode. cbn zeta.
  destruct (String.eqb _ "shell").
  - destruct (length _ =? 0)%nat; [reflexivity | apply runCommands_nodeId].
  - destruct (String.eqb _ "trigger"); [reflexivity|].
    destruct (String.eqb _ "workdir"); reflexivity.
Qed.

(** *** The invariant of the loop *)

Lemma status_failed_iff st : status_eqb st failed = true <-> st = failed.
Proof. destruct st; cbn; split; congruence. Qed.

Lemma storedFrom_step results outs res :
  storedFrom results outs ->
  storedFrom (results ++ [res])
    (match output res with
     | Some out => if Js.truthy out then <[nodeId res := rawOutput out]> outs else outs
     | None => outs
     end).
Proof.
  intros Hst.
  assert (Hold : storedFrom (results ++ [res]) outs).
  { intros k v Hk. destruct (Hst k v Hk) as (r0 & out & Hin & H).
    exists r0, out. split; [apply elem_of_app; left; exact Hin | exact H]. }
  destruct (output res) as [out|] eqn:Hout; [|exact Hold].
  destruct (Js.truthy out); [|exact Hold].
  intros k v Hk. destruct (decide (nodeId res = k)) as [<-|Hne].
  - rewrite lookup_insert_eq in Hk. injection Hk as <-.
    exists res, out. split; [apply elem_of_app; right; left|]. auto.
  - rewrite lookup_insert_ne in Hk by exact Hne. exact (Hold k v Hk).
Qed.

Lemma Good_initial nodeMap nodes startNodes w :
  Good nodeMap (initialRun nodes startNodes w).
Proof.
  constructor; cbn; try reflexivity.
  - constructor.
  - intros x Hx. inversion Hx.
  - intros x Hx. inversion Hx.
  - intros _. constructor.
  - discriminate.
  - intros k v Hk. rewrite lookup_empty in Hk. discriminate.
Qed.

Lemma iteration_Good nodeMap adjacency rootDirectory current rest r :
  (forall k n, nodeMap !! k = Some n -> id n = k) ->
  overallSuccess r = true ->
  Good nodeMap r ->
  Good nodeMap (iteration nodeMap adjacency rootDirectory current rest r).
Proof.
  intros Hmap Hok [Hids Hnd Hvis Hknown Hsucc Hfail Hst]. unfold iteration.
  destruct (bool_decide (current ∈ visited r)) eqn:Hseen.
  { constructor; assumption. }
  apply bool_decide_eq_false in Hseen.
  destruct (nodeMap !! current) as [node|] eqn:Hnode.
  2:{ constructor; cbn; try assumption.
      intros x Hx. apply elem_of_union. right. exact (Hvis x Hx). }
  destruct (executeNode (processNodeTemplates node (context r))
              (Js.orElse rootDirectory (process_cwd (world r))) (world r))
    as [result w] eqn:Hexec.
  assert (Hid : nodeId result = current).
  { pose proof (executeNode_nodeId (processNodeTemplates node (context r))
                  (Js.orElse rootDirectory (process_cwd (world r))) (world r)) as H.
    rewrite Hexec in H. cbn in H. rewrite H. exact (Hmap _ _ Hnode). }
  assert (Hids' : map nodeId (run_results r ++ [result]) = (run_order r ++ [current])%list).
  { rewrite map_app, Hids. cbn. rewrite Hid. reflexivity. }
  assert (Hnd' : NoDup (run_order r ++ [current])).
  { apply NoDup_app. split; [exact Hnd|]. split; [|apply NoDup_singleton].
    intros x Hx Hin. apply list_elem_of_singleton in Hin as ->. exact (Hseen (Hvis _ Hx)). }
  assert (Hvis' : forall x, x ∈ (run_order r ++ [current])%list -> x ∈ {[current]} ∪ visited r).
  { intros x Hx. apply elem_of_app in Hx as [Hx|Hx].
    - apply elem_of_union. right. exact (Hvis x Hx).
    - apply list_elem_of_singleton in Hx as ->. apply elem_of_union. left.
      apply elem_of_singleton. reflexivity. }
  assert (Hknown' : forall x, x ∈ (run_order r ++ [current])%list -> is_Some (nodeMap !! x)).
  { intros x Hx. apply elem_of_app in Hx as [Hx|Hx]; [exact (Hknown x Hx)|].
    apply list_elem_of_singleton in Hx as ->. rewrite Hnode. eauto. }
  pose proof (storedFrom_step _ _ result Hst) as Hst'. rewrite Hid in Hst'.
  destruct (status_eqb (status result) failed) eqn:Hstatus.
  - apply status_failed_iff in Hstatus.
    constructor; cbn; try assumption.
    + discriminate.
    + intros _. exists (run_results r), result. auto.
    + destruct (output result) as [out|]; [destruct (Js.truthy out)|]; exact Hst'.
  - assert (Hnf : notFailed result).
    { intros E. apply status_failed_iff in E. congruence. }
    constructor; cbn; try assumption.
    + intros _. apply Forall_app. split; [exact (Hsucc Hok)|]. constructor; [exact Hnf|constructor].
    + congruence.
    + destruct (output result) as [out|]; [destruct (Js.truthy out)|]; exact Hst'.
Qed.

Lemma traverse_Good nodeMap adjacency rootDirectory fuel : forall r r',
  (forall k n, nodeMap !! k = Some n -> id n = k) ->
  Good nodeMap r ->
  traverse fuel nodeMap adjacency rootDirectory r = Some r' ->
  Good nodeMap r'.
Proof.
  induction fuel as [|fuel IH]; intros r r' Hmap Hgood Hrun; cbn in Hrun.
  - destruct (queue r); [congruence|].
    destruct (negb (overallSuccess r)); congruence.
  - destruct (queue r) as [|current rest]; [congruence|].
    destruct (overallSuccess r) eqn:Hok; cbn in Hrun; [|congruence].
    apply (IH _ _ Hmap (iteration_Good _ _ _ _ _ _ Hmap Hok Hgood) Hrun).
Qed.

(** The loop stops on an empty queue or on a failure. *)
Lemma traverse_stops nodeMap adjacency rootDirectory fuel : forall r r',
  traverse fuel nodeMap adjacency rootDirectory r = Some r' ->
  queue r' = [] \/ overallSuccess r' = false.
Proof.
  induction fuel as [|fuel IH]; intros r r' Hrun; cbn in Hrun.
  - destruct (queue r) eqn:Hq; [left; congruence|].
    destruct (overallSuccess r) eqn:Hok; cbn in Hrun; [discriminate|].
    right. congruence.
  - destruct (queue r) as [|current rest] eqn:Hq; [left; congruence|].
    destruct (overallSuccess r) eqn:Hok; cbn in Hrun; [|right; congruence].
    exact (IH _ _ Hrun).
Qed.

(** *** The loop ends *)

Lemma pending_split (edges : list WorkflowEdge) (visited : gset string) current :
  current ∉ visited ->
  length (List.filter (fun e => negb (bool_decide (source e ∈ visited))) edges)
  = (length (List.filter (fun e => String.eqb (source e) current) edges)
     + length (List.filter
                 (fun e => negb (bool_decide (source e ∈ {[current]} ∪ visited))) edges))%nat.
Proof.
  intros Hfresh. induction edges as [|e edges IH]; cbn; [reflexivity|].
  destruct (String.eqb_spec (source e) current) as [->|Hne].
  - rewrite (bool_decide_eq_false_2 _ Hfresh).
    rewrite bool_decide_eq_true_2
      by (apply elem_of_union; left; apply elem_of_singleton; reflexivity).
    cbn. rewrite IH. reflexivity.
  - destruct (decide (source e ∈ visited)) as [Hin|Hout].
    + rewrite (bool_decide_eq_true_2 _ Hin).
      rewrite bool_decide_eq_true_2 by (apply elem_of_union; right; exact Hin).
      cbn. exact IH.
    + rewrite (bool_decide_eq_false_2 _ Hout).
      rewrite bool_decide_eq_false_2.
      * cbn. rewrite IH. lia.
      * intros Hin. apply elem_of_union in Hin as [Hin|Hin]; [|exact (Hout Hin)].
        apply elem_of_singleton in Hin. exact (Hne Hin).
Qed.

Lemma filter_length_le {A} (p : A -> bool) (l : list A) :
  (length (List.filter p l) <= length l)%nat.
Proof. induction l as [|x l IH]; cbn; [lia|]. destruct (p x); cbn; lia. Qed.

Lemma iteration_weight nodeMap edges rootDirectory current rest r :
  queue r = current :: rest ->
  (weight edges (iteration nodeMap (buildAdjacencyMap edges) rootDirectory current rest r)
   < weight edges r)%nat.
Proof.
  intros Hq. unfold weight, iteration. rewrite Hq.
  destruct (bool_decide (current ∈ visited r)) eqn:Hseen; [cbn; lia|].
  apply bool_decide_eq_false in Hseen.
  pose proof (pending_split edges (visited r) current Hseen) as Hsplit.
  destruct (nodeMap !! current) as [node|]; [|cbn; lia].
  destruct (executeNode _ _ _) as [result w].
  destruct (status_eqb (status result) failed); cbn; [lia|].
  rewrite length_app, buildAdjacencyMap_lookup.
  pose proof (filter_length_le
                (fun nextId => negb (bool_decide (nextId ∈ {[current]} ∪ visited r)))
                (map target (List.filter (fun e => String.eqb (source e) current) edges)))
    as Hle.
  rewrite length_map in Hle. lia.
Qed.

Lemma traverse_terminates nodeMap edges rootDirectory fuel : forall r,
  (weight edges r <= fuel)%nat ->
  is_Some (traverse fuel nodeMap (buildAdjacencyMap edges) rootDirectory r).
Proof.
  induction fuel as [|fuel IH]; intros r Hw; cbn.
  - unfold weight in Hw. destruct (queue r); [eauto | cbn in Hw; lia].
  - destruct (queue r) as [|current rest] eqn:Hq; [eauto|].
    destruct (negb (overallSuccess r)); [eauto|].
    apply IH. pose proof (iteration_weight nodeMap edges rootDirectory current rest r Hq).
    lia.
Qed.

Lemma initial_weight nodes edges startNodes w :
  weight edges (initialRun nodes startNodes w) = (length startNodes + length edges)%nat.
Proof.
  unfold weight. cbn. f_equal. induction edges as [|e edges IH]; cbn; [reflexivity|].
  rewrite bool_decide_eq_false_2 by apply not_elem_of_empty.
  cbn. rewrite IH. reflexivity.
Qed.

(** What the handler answers, in terms of the loop: a 400 for a request it
    rejects, and otherwise the variables the loop ends with. *)
Lemma execute_run req w :
  (exists message, execute req w = Some (badRequest message, w))
  \/ exists nodes edges startNodes r,
       Executor.nodes req = Some nodes /\ Executor.edges req = Some edges
       /\ traverse (length startNodes + length edges) (buildNodeMap nodes)
            (buildAdjacencyMap edges) (rootDirectory req)
            (initialRun nodes startNodes w) = Some r
       /\ execute req w
          = Some (ok {| success := overallSuccess r; results := run_results r;
                        executionOrder := run_order r |}, world r).
Proof.
  unfold execute.
  destruct (Executor.nodes req) as [nodes|]; [|left; eauto].
  destruct (Executor.edges req) as [edges|]; [|left; eauto].
  match goal with
  | |- context [match ?start with inl _ => _ | inr _ => _ end] =>
      destruct start as [startNodes|message] eqn:Hstart
  end; [|left; eauto].
  right.
  destruct (traverse_terminates (buildNodeMap nodes) edges (rootDirectory req)
              (length startNodes + length edges) (initialRun nodes startNodes w))
    as [r Hr].
  { rewrite initial_weight. lia. }
  exists nodes, edges, startNodes, r.
  split; [reflexivity|]. split; [reflexivity|]. split; [exact Hr|].
  unfold initialRun in Hr. rewrite Hr. reflexivity.
Qed.

Lemma execute_Good req w body w' :
  execute req w = Some (ok body, w') ->
  exists nodes r,
    Executor.nodes req = Some nodes
    /\ Good (buildNodeMap nodes) r
    /\ (queue r = [] \/ overallSuccess r = false)
    /\ body = {| success := overallSuccess r; results := run_results r;
                 executionOrder := run_order r |}.
Proof.
  intros Hexec.
  destruct (execute_run req w) as [[message Hbad]|(nodes & edges & start & r & Hn & He & Hrun & Hok)].
  - rewrite Hbad in Hexec. discriminate.
  - rewrite Hok in Hexec. injection Hexec as <- <-.
    exists nodes, r. split; [exact Hn|]. split; [|split; [|reflexivity]].
    + eapply traverse_Good; [|apply Good_initial|exact Hrun].
      intros k n Hk. apply (buildNodeMap_lookup nodes k n Hk).
    + eapply traverse_stops. exact Hrun.
Qed.

Lemma execute_returns req w : is_Some (execute req w).
Proof.
  destruct (execute_run req w) as [[message Hbad]|(nodes & edges & start & r & _ & _ & _ & Hok)].
  - rewrite Hbad. eauto.
  - rewrite Hok. eauto.
Qed.

(** *** The run as its results tell it *)

Lemma storedOutputs_snoc results res :
  storedOutputs (results ++ [res])
  = match output res with
    | Some out =>
        if Js.truthy out then <[nodeId res := cleaned out]> (storedOutputs results)
        else storedOutputs results
    | None => storedOutputs results
    end.
Proof. unfold storedOutputs. rewrite fold_left_app. reflexivity. Qed.

Lemma iteration_traced nodes adjacency rootDirectory w0 current rest r :
  traced nodes rootDirectory w0 (run_results r) (world r)
  /\ context r = contextAfter nodes (run_results r) ->
  let r' := iteration (buildNodeMap nodes) adjacency rootDirectory current rest r in
  traced nodes rootDirectory w0 (run_results r') (world r')
  /\ context r' = contextAfter nodes (run_results r').
Proof.
  intros [Htr Hctx]. cbn zeta. unfold iteration.
  destruct (bool_decide (current ∈ visited r)); [split; assumption|].
  destruct (buildNodeMap nodes !! current) as [node|] eqn:Hnode; [|split; assumption].
  destruct (executeNode (processNodeTemplates node (context r))
              (Js.orElse rootDirectory (process_cwd (world r))) (world r))
    as [result w] eqn:Hexec.
  assert (Hid : nodeId result = current).
  { pose proof (executeNode_nodeId (processNodeTemplates node (context r))
                  (Js.orElse rootDirectory (process_cwd (world r))) (world r)) as H.
    rewrite Hexec in H. cbn in H. rewrite H.
    apply (buildNodeMap_lookup nodes current node Hnode). }
  assert (Htr' : traced nodes rootDirectory w0 (run_results r ++ [result]) w).
  { apply (traced_snoc nodes rootDirectory w0 (run_results r) (world r) node result w Htr).
    - rewrite Hid. exact Hnode.
    - rewrite <- Hctx. exact Hexec. }
  assert (Hctx' :
    match output result with
    | Some out =>
        if Js.truthy out
        then {| outputs := <[current := rawOutput out]> (outputs (context r));
                nodeLabels := nodeLabels (context r) |}
        else context r
    | None => context r
    end = contextAfter nodes (run_results r ++ [result])).
  { unfold contextAfter. rewrite storedOutputs_snoc, Hid.
    destruct (output result) as [out|]; [|exact Hctx].
    destruct (Js.truthy out); [|exact Hctx].
    rewrite Hctx. reflexivity. }
  destruct (status_eqb (status result) failed); cbn; split; assumption.
Qed.

Lemma reaches_traced nodes adjacency rootDirectory startNodes w r :
  reaches (buildNodeMap nodes) adjacency rootDirectory (initialRun nodes startNodes w) r ->
  traced nodes rootDirectory w (run_results r) (world r)
  /\ context r = contextAfter nodes (run_results r).
Proof.
  assert (Hgen : forall r0 r,
            reaches (buildNodeMap nodes) adjacency rootDirectory r0 r ->
            traced nodes rootDirectory w (run_results r0) (world r0)
            /\ context r0 = contextAfter nodes (run_results r0) ->
            traced nodes rootDirectory w (run_results r) (world r)
            /\ context r = contextAfter nodes (run_results r)).
  { intros r0 r1 Hreach. induction Hreach as [r1|r1 r2 current rest Hq Hok _ IH].
    - auto.
    - intros H. apply IH. apply iteration_traced. exact H. }
  intros Hreach. apply (Hgen _ _ Hreach). split; [constructor | reflexivity].
Qed.

(** The loop passes through the states it reaches. *)
Lemma traverse_reaches nodeMap adjacency rootDirectory fuel : forall r r',
  traverse fuel nodeMap adjacency rootDirectory r = Some r' ->
  reaches nodeMap adjacency rootDirectory r r'.
Proof.
  induction fuel as [|fuel IH]; intros r r' Hrun; cbn in Hrun.
  - destruct (queue r); [injection Hrun as <-; constructor|].
    destruct (negb (overallSuccess r)); [injection Hrun as <-; constructor | discriminate].
  - destruct (queue r) as [|current rest] eqn:Hq; [injection Hrun as <-; constructor|].
    destruct (overallSuccess r) eqn:Hok; cbn in Hrun; [|injection Hrun as <-; constructor].
    eapply reaches_next; [exact Hq | exact Hok | exact (IH _ _ Hrun)].
Qed.

(** From a state the loop reaches it goes on to the state it ends in. *)
Lemma reaches_traverse nodeMap adjacency rootDirectory r0 r :
  reaches nodeMap adjacency rootDirectory r0 r ->
  forall fuel rf,
    traverse fuel nodeMap adjacency rootDirectory r0 = Some rf ->
    exists fuel', traverse fuel' nodeMap adjacency rootDirectory r = Some rf.
Proof.
  induction 1 as [r|r r' current rest Hq Hok _ IH]; intros fuel rf Hrun; [eauto|].
  destruct fuel as [|fuel]; cbn in Hrun; rewrite Hq, Hok in Hrun; cbn in Hrun;
    [discriminate|].
  exact (IH _ _ Hrun).
Qed.

(** What the handler does with a request it takes. *)
Lemma execute_accepted req w body w' :
  execute req w = Some (ok body, w') ->
  exists nodes edges r,
    Executor.nodes req = Some nodes /\ Executor.edges req = Some edges
    /\ traverse (length (chosenStart req nodes edges) + length edges)
         (buildNodeMap nodes) (buildAdjacencyMap edges) (rootDirectory req)
         (initialRun nodes (chosenStart req nodes edges) w) = Some r
    /\ body = {| success := overallSuccess r; results := run_results r;
                 executionOrder := run_order r |}
    /\ w' = world r.
Proof.
  unfold execute, chosenStart.
  destruct (Executor.nodes req) as [nodes|]; [|discriminate].
  destruct (Executor.edges req) as [edges|]; [|discriminate].
  destruct (Js.truthyOpt (startNodeId req)).
  - destruct (buildNodeMap nodes !! default EmptyString (startNodeId req)) as [n|];
      [|discriminate].
    fold (initialRun nodes [default EmptyString (startNodeId req)] w).
    destruct (traverse _ _ _ _ _) as [r|] eqn:Hr; [|discriminate].
    cbn [mbind option_bind]. intros [= <- <-].
    exists nodes, edges, r. auto.
  - destruct (length (findTriggerNodes nodes edges) =? 0)%nat; [discriminate|].
    fold (initialRun nodes (findTriggerNodes nodes edges) w).
    destruct (traverse _ _ _ _ _) as [r|] eqn:Hr; [|discriminate].
    cbn [mbind option_bind]. intros [= <- <-].
    exists nodes, edges, r. auto.
Qed.

Lemma execute_traced req w body w' :
  execute req w = Some (ok body, w') ->
  exists nodes,
    Executor.nodes req = Some nodes
    /\ traced nodes (rootDirectory req) w (results body) w'.
Proof.
  intros Hexec.
  destruct (execute_accepted req w body w' Hexec)
    as (nodes & edges & r & Hn & _ & Hrun & -> & ->).
  exists nodes. split; [exact Hn|]. cbn.
  apply (reaches_traced nodes (buildAdjacencyMap edges) (rootDirectory req)
           (chosenStart req nodes edges) w r).
  eapply traverse_reaches. exact Hrun.
Qed.

(** The iteration in which a node fails. *)
Lemma iteration_failed nodeMap adjacency rootDirectory current rest r node res w1 :
  current ∉ visited r -> nodeMap !! current = Some node ->
  executeNode (processNodeTemplates node (context r))
    (Js.orElse rootDirectory (process_cwd (world r))) (world r) = (res, w1) ->
  status res = failed ->
  let r' := iteration nodeMap adjacency rootDirectory current rest r in
  run_results r' = (run_results r ++ [res])%list
  /\ run_order r' = (run_order r ++ [current])%list
  /\ overallSuccess r' = false /\ world r' = w1 /\ queue r' = rest.
Proof.
  intros Hnew Hnode Hexec Hfailed. cbn zeta. unfold iteration.
  rewrite bool_decide_eq_false_2 by exact Hnew. rewrite Hnode, Hexec, Hfailed.
  cbn. auto.
Qed.

(** C10: the handler always answers. In a response with results,
    [executionOrder] has no duplicates, each of its ids is the id of a node
    of the request, and the node ids of [results] are [executionOrder],
    entry by entry; so an id that no node has is in neither list. *)
Theorem execute_order_matches_results (req : ExecuteRequest) (w : World) :
  is_Some (execute req w)
  /\ forall body w', execute req w = Some (ok body, w') ->
       NoDup (executionOrder body)
       /\ map nodeId (results body) = executionOrder body
       /\ length (results body) = length (executionOrder body)
       /\ exists nodes, Executor.nodes req = Some nodes
            /\ (forall x, x ∈ executionOrder body -> exists n, n ∈ nodes /\ id n = x)
            /\ (forall x, (forall n, n ∈ nodes -> id n <> x) ->
                  (x ∉ executionOrder body) /\ (x ∉ map nodeId (results body))).
Proof.
  split; [apply execute_returns|].
  intros body w' Hexec.
  destruct (execute_Good req w body w' Hexec) as (nodes & r & Hn & Hgood & _ & ->).
  destruct Hgood as [Hids Hnd _ Hknown _ _ _]. cbn.
  assert (Hnode : forall x, x ∈ run_order r -> exists n, n ∈ nodes /\ id n = x).
  { intros x Hx. destruct (Hknown x Hx) as [n Hk].
    apply buildNodeMap_lookup in Hk as [Hid Hin]. eauto. }
  split; [exact Hnd|]. split; [exact Hids|].
  split; [rewrite <- Hids, length_map; reflexivity|].
  exists nodes. split; [exact Hn|]. split; [exact Hnode|].
  intros x Hnone.
  assert (Hx : x ∉ run_order r).
  { intros Hx. destruct (Hnode x Hx) as (n & Hin & Hid). exact (Hnone n Hin Hid). }
  split; [exact Hx|]. rewrite Hids. exact Hx.
Qed.

(** C1: the handler always answers. In a response with results, a result
    with status failed is the last entry of [results], its node is the last
    entry of [executionOrder], and [success] is false; conversely [success]
    is false only when the last result failed. The results are those of the
    nodes run one after the other, and when the node taken from the queue,
    in any state the loop reaches, runs to a failed result, the response
    is made of the results and the order of that state with this result
    and this node appended, with [success] false, and the world is the one
    the failed node left: the failure is recorded and nothing runs after
    it. Once a failure is recorded the loop runs no further iteration,
    whatever is left in the queue. *)
Theorem execute_stops_at_failure (req : ExecuteRequest) (w : World) :
  is_Some (execute req w)
  /\ (forall body w', execute req w = Some (ok body, w') ->
        (forall i res, results body !! i = Some res -> status res = failed ->
           S i = length (results body)
           /\ last (executionOrder body) = Some (nodeId res)
           /\ success body = false)
        /\ (success body = false ->
              exists res, last (results body) = Some res /\ status res = failed)
        /\ exists nodes edges,
             Executor.nodes req = Some nodes /\ Executor.edges req = Some edges
             /\ traced nodes (rootDirectory req) w (results body) w'
             /\ forall (r : Run) current rest node res w1,
                  reaches (buildNodeMap nodes) (buildAdjacencyMap edges)
                    (rootDirectory req)
                    (initialRun nodes (chosenStart req nodes edges) w) r ->
                  queue r = current :: rest ->
                  overallSuccess r = true ->
                  current ∉ visited r ->
                  buildNodeMap nodes !! current = Some node ->
                  executeNode (processNodeTemplates node (Executor.context r))
                    (Js.orElse (rootDirectory req) (process_cwd (world r)))
                    (world r) = (res, w1) ->
                  status res = failed ->
                  body = {| success := false;
                            results := (run_results r ++ [res])%list;
                            executionOrder := (run_order r ++ [current])%list |}
                  /\ w' = w1)
  /\ (forall fuel nodeMap adjacency rootDirectory (r : Run),
        overallSuccess r = false ->
        traverse fuel nodeMap adjacency rootDirectory r = Some r).
Proof.
  assert (Hstop : forall fuel nodeMap adjacency rootDirectory (r : Run),
            overallSuccess r = false ->
            traverse fuel nodeMap adjacency rootDirectory r = Some r).
  { intros fuel nodeMap adjacency rootDirectory r Hno.
    destruct fuel; cbn; destruct (queue r); rewrite ?Hno; reflexivity. }
  split; [apply execute_returns|]. split; [|exact Hstop].
  intros body w' Hexec.
  destruct (execute_Good req w body w' Hexec) as (nodes0 & r0 & Hn0 & Hgood & _ & Hbody).
  split; [|split].
  - subst body. destruct Hgood as [Hids _ _ _ Hsucc Hfail _]. cbn.
    intros i res Hi Hfailed.
    destruct (overallSuccess r0) eqn:Hok.
    { exfalso. specialize (Hsucc eq_refl). rewrite Forall_forall in Hsucc.
      apply (Hsucc res); [|exact Hfailed].
      apply list_elem_of_lookup. eauto. }
    destruct (Hfail eq_refl) as (before & final & Hres & Hst & Hbefore).
    assert (Hlast : i = length before).
    { destruct (decide (i < length before)%nat) as [Hlt|Hge].
      - exfalso. rewrite Hres, lookup_app_l in Hi by exact Hlt.
        rewrite Forall_forall in Hbefore. apply (Hbefore res); [|exact Hfailed].
        apply list_elem_of_lookup. eauto.
      - apply lookup_lt_Some in Hi. rewrite Hres, length_app in Hi. cbn in Hi. lia. }
    subst i. rewrite Hres, lookup_app_r in Hi by lia.
    rewrite Nat.sub_diag in Hi. injection Hi as <-.
    split; [rewrite Hres, length_app; cbn; lia|]. split; [|reflexivity].
    rewrite <- Hids, Hres, map_app. cbn. apply last_snoc.
  - subst body. destruct Hgood as [_ _ _ _ _ Hfail _]. cbn.
    intros Hno. destruct (Hfail Hno) as (before & final & Hres & Hst & _).
    exists final. rewrite Hres, last_snoc. auto.
  - clear nodes0 r0 Hn0 Hgood Hbody.
    destruct (execute_accepted req w body w' Hexec)
      as (nodes & edges & rf & Hn & He & Hrun & Hbody & Hw).
    exists nodes, edges. split; [exact Hn|]. split; [exact He|]. split.
    { subst body w'. cbn.
      apply (reaches_traced nodes (buildAdjacencyMap edges) (rootDirectory req)
               (chosenStart req nodes edges) w rf).
      eapply traverse_reaches. exact Hrun. }
    intros r current rest node res w1 Hreach Hq Hok Hnew Hnode Hres Hfailed.
    destruct (reaches_traverse _ _ _ _ _ Hreach _ _ Hrun) as [fuel' Hrest].
    destruct (iteration_failed (buildNodeMap nodes) (buildAdjacencyMap edges)
                (rootDirectory req) current rest r node res w1
                Hnew Hnode Hres Hfailed) as (Hrs & Hord & Hno & Hworld & _).
    destruct fuel' as [|fuel']; cbn in Hrest; rewrite Hq, Hok in Hrest; cbn in Hrest;
      [discriminate|].
    rewrite (Hstop fuel' _ _ _ _ Hno) in Hrest. injection Hrest as <-.
    subst body w'. rewrite Hrs, Hord, Hno, Hworld. auto.
Qed.

(** *** Template substitution *)

Local Arguments String.append !_ _ : simpl nomatch.

Lemma append_cons x (a b : string) : (String x a ++ b)%string = String x (a ++ b).
Proof. reflexivity. Qed.

Lemma append_assoc (a b c : string) : ((a ++ b) ++ c)%string = (a ++ b ++ c)%string.
Proof.
  induction a as [|x a IH]; [reflexivity|].
  rewrite !append_cons. f_equal. exact IH.
Qed.

Lemma length_append (a b : string) :
  String.length (a ++ b) = (String.length a + String.length b)%nat.
Proof.
  induction a as [|x a IH]; [reflexivity|].
  rewrite append_cons. cbn. f_equal. exact IH.
Qed.

Lemma span_eq p s : s = (fst (span p s) ++ snd (span p s))%string.
Proof.
  induction s as [|c s IH]; cbn; [reflexivity|].
  destruct (p c); [|reflexivity].
  destruct (span p s) as [a b]. cbn in *. rewrite IH at 1. reflexivity.
Qed.

Lemma stripPrefix_eq pat : forall s rest,
  stripPrefix pat s = Some rest -> s = (pat ++ rest)%string.
Proof.
  induction pat as [|a pat IH]; intros s rest H.
  - cbn in H. injection H as <-. reflexivity.
  - destruct s as [|b s]; cbn in H; [discriminate|].
    destruct (Ascii.eqb_spec a b) as [->|]; [|discriminate].
    rewrite (IH _ _ H). reflexivity.
Qed.

(** A greedy class stops at the first character outside it. *)
Lemma span_stop p s c tail :
  p c = false ->
  span p (s ++ String c tail)
  = (fst (span p s), (snd (span p s) ++ String c tail)%string).
Proof.
  intros Hc. induction s as [|x s IH]; cbn.
  - rewrite Hc. reflexivity.
  - destruct (p x); [|reflexivity].
    rewrite IH. destruct (span p s). reflexivity.
Qed.

Lemma span_exact p a c tail :
  every p a = true -> p c = false ->
  span p (a ++ String c tail) = (a, String c tail).
Proof.
  intros Ha Hc. induction a as [|x a IH]; cbn in *.
  - rewrite Hc. reflexivity.
  - apply andb_true_iff in Ha as [Hx Ha]. rewrite Hx, (IH Ha). reflexivity.
Qed.

(** A literal none of whose characters is [c] is not completed by a text
    that starts with [c]. *)
Lemma stripPrefix_stop pat c tail : forall s,
  every (fun a => negb (Ascii.eqb a c)) pat = true ->
  stripPrefix pat (s ++ String c tail)
  = (fun rest => (rest ++ String c tail)%string) <$> stripPrefix pat s.
Proof.
  induction pat as [|a pat IH]; intros s Hpat; [reflexivity|].
  cbn in Hpat. apply andb_true_iff in Hpat as [Ha Hpat].
  destruct s as [|b s]; cbn.
  - apply negb_true_iff in Ha. rewrite Ha. reflexivity.
  - destruct (Ascii.eqb a b); [apply IH; exact Hpat | reflexivity].
Qed.

Lemma matchTemplate_open s :
  matchTemplate s = stripPrefix "{{" s ≫= matchAfterOpen.
Proof. reflexivity. Qed.

Lemma matchAfterOpen_stop s1 tail :
  matchAfterOpen (s1 ++ String "{" tail) = matchAfterOpen s1.
Proof.
  unfold matchAfterOpen.
  rewrite (span_stop Js.isSpace s1 "{" tail) by reflexivity.
  destruct (span Js.isSpace s1) as [ws1 s2]. cbn [fst snd].
  rewrite (span_stop isIdentChar s2 "{" tail) by reflexivity.
  destruct (span isIdentChar s2) as [identifier s3]. cbn [fst snd].
  destruct (negb (Js.truthy identifier)); [reflexivity|].
  rewrite (stripPrefix_stop ".output" "{" tail s3) by reflexivity.
  destruct (stripPrefix ".output" s3) as [s4|]; [|reflexivity].
  cbn [fmap option_fmap option_map mbind option_bind].
  rewrite (span_stop Js.isSpace s4 "{" tail) by reflexivity.
  destruct (span Js.isSpace s4) as [ws2 s5]. cbn [fst snd].
  rewrite (stripPrefix_stop "}}" "{" tail s5) by reflexivity.
  destruct (stripPrefix "}}" s5); reflexivity.
Qed.

(** A match that starts before a reference ends before it. *)
Lemma matchTemplate_stop c p tail :
  matchTemplate (String c p ++ String "{" (String "{" tail))
  = matchTemplate (String c p).
Proof.
  rewrite !matchTemplate_open. cbn [append stripPrefix].
  destruct (Ascii.eqb "{" c); [|reflexivity].
  destruct p as [|c2 p]; cbn [append stripPrefix].
  - reflexivity.
  - destruct (Ascii.eqb "{" c2); [|reflexivity]. cbn.
    apply (matchAfterOpen_stop p (String "{" tail)).
Qed.

Lemma matchTemplate_within s identifier matched :
  matchTemplate s = Some (identifier, matched) ->
  exists rest, s = (matched ++ rest)%string.
Proof.
  rewrite matchTemplate_open.
  destruct (stripPrefix "{{" s) as [s1|] eqn:H1; [|discriminate].
  cbn [mbind option_bind].
  apply stripPrefix_eq in H1. subst s. unfold matchAfterOpen.
  pose proof (span_eq Js.isSpace s1) as E1.
  destruct (span Js.isSpace s1) as [ws1 s2]. cbn [fst snd] in E1.
  pose proof (span_eq isIdentChar s2) as E2.
  destruct (span isIdentChar s2) as [ident s3]. cbn [fst snd] in E2.
  destruct (negb (Js.truthy ident)); [discriminate|].
  destruct (stripPrefix ".output" s3) as [s4|] eqn:H4; [|discriminate].
  cbn [mbind option_bind].
  apply stripPrefix_eq in H4.
  pose proof (span_eq Js.isSpace s4) as E4.
  destruct (span Js.isSpace s4) as [ws2 s5]. cbn [fst snd] in E4.
  destruct (stripPrefix "}}" s5) as [rest|] eqn:H5; [|discriminate].
  cbn [mbind option_bind].
  apply stripPrefix_eq in H5. intros E. injection E as <- <-. exists rest.
  rewrite E1, E2, H4, E4, H5.
  repeat (cbn; rewrite ?append_assoc). reflexivity.
Qed.

Lemma replaceFrom_skip context a : forall b,
  replaceFrom (String.length a) (a ++ b) context = replaceFrom 0 b context.
Proof. induction a as [|c a IH]; intros b; cbn; [reflexivity | apply IH]. Qed.

(** Substitution in front of a reference does not look into it. *)
Lemma replaceFrom_app context tail pre : forall skip,
  (skip <= String.length pre)%nat ->
  replaceFrom skip (pre ++ String "{" (String "{" tail)) context
  = (replaceFrom skip pre context
     ++ replaceFrom 0 (String "{" (String "{" tail)) context)%string.
Proof.
  induction pre as [|c pre IH]; intros skip Hskip.
  - cbn in Hskip. assert (skip = 0%nat) as -> by lia. reflexivity.
  - rewrite append_cons. cbn [replaceFrom]. destruct skip as [|k].
    + rewrite <- append_cons, matchTemplate_stop.
      destruct (matchTemplate (String c pre)) as [[identifier matched]|] eqn:Hm.
      * apply matchTemplate_within in Hm as [rest Hrest].
        assert (Hlen : (String.length matched - 1 <= String.length pre)%nat).
        { apply (f_equal String.length) in Hrest. rewrite length_append in Hrest.
          cbn in Hrest. lia. }
        rewrite (IH _ Hlen), append_assoc. reflexivity.
      * rewrite (IH 0%nat) by lia. reflexivity.
    + apply IH. cbn in Hskip. lia.
Qed.

Lemma identChar_not_space c : isIdentChar c = true -> Js.isSpace c = false.
Proof.
  destruct c as [[] [] [] [] [] [] [] []]; vm_compute; congruence.
Qed.

Lemma identChar_lower_not_space c :
  isIdentChar c = true -> Js.isSpace (Js.lowerChar c) = false.
Proof.
  destruct c as [[] [] [] [] [] [] [] []]; vm_compute; congruence.
Qed.

Lemma matchTemplate_reference ws1 identifier ws2 post :
  every Js.isSpace ws1 = true -> every Js.isSpace ws2 = true ->
  every isIdentChar identifier = true -> identifier <> EmptyString ->
  matchTemplate (reference ws1 identifier ws2 ++ post)
  = Some (identifier, reference ws1 identifier ws2).
Proof.
  intros Hws1 Hws2 Hid Hne.
  destruct identifier as [|c identifier]; [congruence|].
  cbn in Hid. apply andb_true_iff in Hid as [Hc Hid].
  assert (Htext :
    (reference ws1 (String c identifier) ws2 ++ post)%string
    = String "{" (String "{"
        (ws1 ++ String c (identifier ++ String "."
           ("output" ++ ws2 ++ String "}" (String "}" post)))))%string).
  { unfold reference. repeat (cbn; rewrite ?append_assoc). reflexivity. }
  rewrite Htext, matchTemplate_open.
  cbn [stripPrefix Ascii.eqb Bool.eqb mbind option_bind]. unfold matchAfterOpen.
  rewrite (span_exact Js.isSpace ws1 c _ Hws1 (identChar_not_space c Hc)).
  rewrite <- append_cons.
  rewrite (span_exact isIdentChar (String c identifier) "." _);
    [|cbn; rewrite Hc, Hid; reflexivity|reflexivity].
  cbn [Js.truthy negb].
  change (stripPrefix ".output"
            (String "." ("output" ++ ws2 ++ String "}" (String "}" post))%string))
    with (Some (ws2 ++ String "}" (String "}" post))%string).
  cbn [mbind option_bind].
  rewrite (span_exact Js.isSpace ws2 "}" _ Hws2 eq_refl).
  reflexivity.
Qed.

(** The label loop, characterised. *)
Lemma label_condition identifier label :
  every isIdentChar identifier = true ->
  (String.eqb (normalizeLabel label) (Js.toLowerCase identifier)
   || String.eqb label identifier)
  = String.eqb (normalizeLabel label) (Js.toLowerCase identifier).
Proof.
  intros Hid. destruct (String.eqb_spec label identifier) as [->|]; [|apply orb_false_r].
  rewrite orb_true_r. symmetry. apply String.eqb_eq. unfold normalizeLabel.
  induction identifier as [|c s IH]; [reflexivity|].
  cbn in Hid. apply andb_true_iff in Hid as [Hc Hs]. cbn.
  rewrite (identChar_lower_not_space c Hc), (IH Hs). reflexivity.
Qed.

Lemma lookupByLabel_none identifier outs labels :
  every isIdentChar identifier = true ->
  (forall n l, (n, l) ∈ labels ->
     normalizeLabel l = Js.toLowerCase identifier -> outs !! n = None) ->
  lookupByLabel identifier outs labels = None.
Proof.
  intros Hid. induction labels as [|[n l] labels IH]; intros Hnone; [reflexivity|].
  cbn [lookupByLabel]. fold (normalizeLabel l). rewrite (label_condition _ _ Hid).
  assert (Hrest : lookupByLabel identifier outs labels = None).
  { apply IH. intros n' l' Hin. apply Hnone. right. exact Hin. }
  destruct (String.eqb_spec (normalizeLabel l) (Js.toLowerCase identifier)) as [E|]; [|exact Hrest].
  rewrite (Hnone n l ltac:(left) E). exact Hrest.
Qed.

Lemma lookupByLabel_first identifier outs before n l after v :
  every isIdentChar identifier = true ->
  normalizeLabel l = Js.toLowerCase identifier ->
  outs !! n = Some v ->
  (forall n' l', (n', l') ∈ before ->
     normalizeLabel l' = Js.toLowerCase identifier -> outs !! n' = None) ->
  lookupByLabel identifier outs (before ++ (n, l) :: after) = Some v.
Proof.
  intros Hid Hfit Hout. induction before as [|[n0 l0] before IH]; intros Hnone.
  - cbn [app lookupByLabel]. fold (normalizeLabel l).
    rewrite (label_condition _ _ Hid), Hfit, String.eqb_refl, Hout.
    cbn. destruct v; reflexivity.
  - cbn [app lookupByLabel]. fold (normalizeLabel l0). rewrite (label_condition _ _ Hid).
    assert (Hrest : lookupByLabel identifier outs (before ++ (n, l) :: after) = Some v).
    { apply IH. intros n' l' Hin. apply Hnone. right. exact Hin. }
    destruct (String.eqb_spec (normalizeLabel l0) (Js.toLowerCase identifier)) as [E|]; [|exact Hrest].
    rewrite (Hnone n0 l0 ltac:(left) E). exact Hrest.
Qed.

Lemma reaches_Good nodeMap adjacency rootDirectory r r' :
  (forall k n, nodeMap !! k = Some n -> id n = k) ->
  reaches nodeMap adjacency rootDirectory r r' ->
  Good nodeMap r -> Good nodeMap r'.
Proof.
  intros Hmap Hreach. induction Hreach as [r|r r' current rest Hq Hok _ IH]; intros Hgood.
  - exact Hgood.
  - apply IH. apply iteration_Good; assumption.
Qed.

Lemma replaceTemplates_reference context pre post ws1 identifier ws2 :
  every Js.isSpace ws1 = true -> every Js.isSpace ws2 = true ->
  every isIdentChar identifier = true -> identifier <> EmptyString ->
  replaceTemplates (pre ++ reference ws1 identifier ws2 ++ post) context
  = (replaceTemplates pre context
     ++ resolveTemplate context (reference ws1 identifier ws2) identifier
     ++ replaceTemplates post context)%string.
Proof.
  intros Hws1 Hws2 Hid Hne. unfold replaceTemplates.
  pose proof (matchTemplate_reference ws1 identifier ws2 post Hws1 Hws2 Hid Hne) as Hm.
  assert (Hopen : exists inner,
            reference ws1 identifier ws2 = String "{" (String "{" inner)).
  { unfold reference. cbn. eauto. }
  destruct Hopen as [inner Hopen]. rewrite Hopen in *.
  rewrite !append_cons.
  rewrite (replaceFrom_app context (inner ++ post) pre 0%nat) by lia.
  f_equal. cbn [replaceFrom].
  rewrite <- !append_cons, Hm. f_equal.
  change (String.length (String "{" (String "{" inner)) - 1)%nat
    with (String.length (String "{" inner)).
  rewrite append_cons. apply (replaceFrom_skip context (String "{" inner) post).
Qed.

(** The commands a shell node runs are its commands with the templates
    resolved. *)
Lemma executeNode_processed node context rootDirectory w commands :
  Js.orElse (nodeType (data node)) (type node) = "shell" ->
  Executor.commands (data node) = Some commands -> commands <> [] ->
  let processed := processNodeTemplates node context in
  executeNode processed rootDirectory w
  = runCommands processed
      (Js.orElse (path (data processed))
         (if Js.truthy rootDirectory then rootDirectory else process_cwd w))
      (Date_now w)
      (map (fun command => replaceTemplates command context) commands) [] 0 w.
Proof.
  intros Hshell Hcmds Hne. cbn zeta. unfold executeNode.
  change (nodeType (data (processNodeTemplates node context)))
    with (nodeType (data node)).
  change (type (processNodeTemplates node context)) with (type node).
  rewrite Hshell.
  change (Executor.commands (data (processNodeTemplates node context)))
    with ((fun cmds => map (fun cmd => replaceTemplates cmd context) cmds)
            <$> Executor.commands (data node)).
  rewrite Hcmds.
  destruct commands as [|command rest]; [contradiction|]. reflexivity.
Qed.

(** C8: in a parameter string, a reference [{{ identifier.output }}]
    (white space allowed inside the braces, the identifier of letters,
    digits, [_] and [-]) is replaced on its own, the text before and after
    it being substituted independently. With an output stored under the
    identifier as a node id, the replacement is that output. Otherwise it is
    the output of the first node, in the order of the nodes, whose label in
    lower case with each run of white space turned into an underscore
    equals the identifier in lower case and that has an output. When there
    is no such node the reference stays as it is. Every output stored in a
    state the loop reaches is the output of a result of that node, without
    the lines that start with "$ " and trimmed. What is stored is the
    output as the spec cleans it; in every state the loop reaches the
    outputs in store are exactly the cleaned outputs of the results so
    far, the later result of a node replacing the earlier, and each result
    is that of its node run with the templates resolved against the
    outputs of the results before it. The commands a shell node runs are
    its commands with the templates resolved, and a node with one command
    that is not blank hands its resolved text to the shell. *)
Theorem templates_resolve (context : ExecutionContext)
    (pre post ws1 identifier ws2 : string) :
  every Js.isSpace ws1 = true -> every Js.isSpace ws2 = true ->
  every isIdentChar identifier = true -> identifier <> EmptyString ->
  let ref := reference ws1 identifier ws2 in
  replaceTemplates (pre ++ ref ++ post) context
  = (replaceTemplates pre context
     ++ resolveTemplate context ref identifier
     ++ replaceTemplates post context)%string
  /\ (forall v, outputs context !! identifier = Some v ->
        resolveTemplate context ref identifier = v)
  /\ (outputs context !! identifier = None ->
      forall before nodeId label after v,
        nodeLabels context = (before ++ (nodeId, label) :: after)%list ->
        normalizeLabel label = Js.toLowerCase identifier ->
        outputs context !! nodeId = Some v ->
        (forall n l, (n, l) ∈ before ->
           normalizeLabel l = Js.toLowerCase identifier ->
           outputs context !! n = None) ->
        resolveTemplate context ref identifier = v)
  /\ (outputs context !! identifier = None ->
      (forall n l, (n, l) ∈ nodeLabels context ->
         normalizeLabel l = Js.toLowerCase identifier ->
         outputs context !! n = None) ->
      resolveTemplate context ref identifier = ref)
  /\ (forall nodes adjacency rootDirectory startNodes w r,
        reaches (buildNodeMap nodes) adjacency rootDirectory
          (initialRun nodes startNodes w) r ->
        storedFrom (run_results r) (outputs (Executor.context r)))
  /\ (forall out, rawOutput out = cleaned out)
  /\ (forall nodes adjacency rootDirectory startNodes w r,
        reaches (buildNodeMap nodes) adjacency rootDirectory
          (initialRun nodes startNodes w) r ->
        Executor.context r = contextAfter nodes (run_results r)
        /\ traced nodes rootDirectory w (run_results r) (world r))
  /\ (forall node rootDirectory w commands,
        Js.orElse (nodeType (data node)) (type node) = "shell" ->
        Executor.commands (data node) = Some commands -> commands <> [] ->
        let processed := processNodeTemplates node context in
        executeNode processed rootDirectory w
        = runCommands processed
            (Js.orElse (path (data processed))
               (if Js.truthy rootDirectory then rootDirectory else process_cwd w))
            (Date_now w)
            (map (fun command => replaceTemplates command context) commands) [] 0 w)
  /\ (forall node rootDirectory w command,
        Js.orElse (nodeType (data node)) (type node) = "shell" ->
        Executor.commands (data node) = Some [command] ->
        blank (replaceTemplates command context) = false ->
        let processed := processNodeTemplates node context in
        snd (executeNode processed rootDirectory w)
        = snd (spawn_sh (replaceTemplates command context)
                 (Js.orElse (path (data processed))
                    (if Js.truthy rootDirectory then rootDirectory else process_cwd w))
                 w)).
Proof.
  intros Hws1 Hws2 Hid Hne. cbn zeta.
  split; [apply replaceTemplates_reference; assumption|].
  split; [|split; [|split; [|split; [|split; [|split; [|split]]]]]].
  - intros v Hv. unfold resolveTemplate. rewrite Hv. destruct v; reflexivity.
  - intros Hnone before n l after v Hlabels Hfit Hout Hfirst.
    unfold resolveTemplate. rewrite Hnone, Hlabels.
    rewrite (lookupByLabel_first identifier _ before n l after v Hid Hfit Hout Hfirst).
    reflexivity.
  - intros Hnone Hall. unfold resolveTemplate. rewrite Hnone.
    rewrite (lookupByLabel_none identifier _ _ Hid Hall). reflexivity.
  - intros nodes adjacency rootDirectory startNodes w r Hreach.
    apply (good_stored (buildNodeMap nodes) r).
    eapply reaches_Good; [|exact Hreach|apply Good_initial].
    intros k n Hk. apply (buildNodeMap_lookup nodes k n Hk).
  - reflexivity.
  - intros nodes adjacency rootDirectory startNodes w r Hreach.
    destruct (reaches_traced nodes adjacency rootDirectory startNodes w r Hreach).
    split; assumption.
  - intros node rootDirectory w commands Hshell Hcmds Hnil.
    apply executeNode_processed; assumption.
  - intros node rootDirectory w command Hshell Hcmds Hblank.
    rewrite (executeNode_processed node context rootDirectory w [command] Hshell Hcmds)
      by discriminate.
    cbn [map runCommands]. unfold blank in Hblank. rewrite Hblank.
    unfold executeShellCommand.
    destruct (spawn_sh _ _ w) as [[stdout stderr code|message] w1]; cbn [snd].
    + destruct (negb (default 0 code =? 0)); reflexivity.
    + reflexivity.
Qed.

End Facts.

(** *** The properties at the graphs of the spec's examples *)

Import ShellScenario.

(** "trigger -> shellA -> shellB where shellA's command exits nonzero":
    the run is unsuccessful, shellB is in neither list and its command was
    never run. *)
Example failing_chain_run :
  exists body w,
    execute (host := shHost) failingChain w0 = Some (ok body, w)
    /\ success body = false
    /\ executionOrder body = ["trigger"; "shellA"]
    /\ map nodeId (results body) = ["trigger"; "shellA"]
    /\ map status (results body) = [completed; failed]
    /\ ran w = ["false"].
Proof. eexists _, _. vm_compute. repeat split. Qed.

(** The command of shellB as it was run: the two references to shellA, by
    id and by label, replaced by its cleaned output, the unknown one
    kept. *)
Example template_chain_run :
  exists body w,
    execute (host := shHost) templateChain w0 = Some (ok body, w)
    /\ success body = true
    /\ executionOrder body = ["trigger"; "shellA"; "shellB"]
    /\ ran w = ["echo hello"; "echo hello hello {{ missing.output }}"].
Proof. eexists _, _. vm_compute. repeat split. Qed.

Example rawOutput_drops_echo :
  rawOutput ("$ echo hello" ++ String Js.LF "hello") = "hello".
Proof. vm_compute. reflexivity. Qed.

(** White space and capitals beyond ASCII in a label: the no-break space
    becomes an underscore and the capital E with acute accent its small
    letter. *)
Example normalizeLabel_latin1 :
  normalizeLabel
    (String "A" (String (ascii_of_nat 160) (String (ascii_of_nat 201) EmptyString)))
  = String "a" (String "_" (String (ascii_of_nat 233) EmptyString)).
Proof. vm_compute. reflexivity. Qed.

Lemma execute_stops_at_failure_witness :
  exists body w,
    execute (host := shHost) failingChain w0 = Some (ok body, w)
    /\ (forall i res,
          results body !! i = Some res -> status res = failed ->
          S i = length (results body)
          /\ last (executionOrder body) = Some (nodeId res)
          /\ success body = false)
    /\ traced (host := shHost) (default [] (Executor.nodes failingChain))
         (rootDirectory failingChain) w0 (results body) w
    /\ body = {| success := false;
                 results :=
                   [ {| nodeId := "trigger"; status := completed;
                        output := Some "Trigger activated"; error := None;
                        exitCode := None; startTime := Some 0; endTime := Some 0 |};
                     fst (executeNode (host := shHost)
                            (shellNode "shellA" None ["false"]) "/work" w0) ];
                 executionOrder := ["trigger"; "shellA"] |}.
Proof.
  destruct (execute_stops_at_failure (host := shHost) failingChain w0) as (_ & H & _).
  eexists _, _. split; [reflexivity|].
  destruct (H _ _ eq_refl) as (Hlast & _ & nodes & edges & Hn & He & Htr & Hstop).
  split; [exact Hlast|]. split.
  - injection Hn as <-. exact Htr.
  - injection Hn as <-. injection He as <-.
    pose (afterTrigger :=
      @Build_Run shHost
        [ {| nodeId := "trigger"; status := completed;
             output := Some "Trigger activated"; error := None;
             exitCode := None; startTime := Some 0; endTime := Some 0 |} ]
        ["trigger"] {["trigger"]} true ["shellA"]
        {| outputs := {["trigger" := "Trigger activated"]};
           nodeLabels := [("trigger", "trigger"); ("shellA", "shellA");
                          ("shellB", "shellB")] |}
        w0).
    refine (proj1 (Hstop afterTrigger
              "shellA" [] (shellNode "shellA" None ["false"]) _ _ _ eq_refl eq_refl _ _ _ _)).
    + eapply reaches_next; [reflexivity | reflexivity |].
      vm_compute. apply reaches_here.
    + vm_compute. set_solver.
    + reflexivity.
    + vm_compute. reflexivity.
    + reflexivity.
Defined.

Lemma execute_order_matches_results_witness :
  exists body w,
    execute (host := shHost) templateChain w0 = Some (ok body, w)
    /\ NoDup (executionOrder body)
    /\ map nodeId (results body) = executionOrder body.
Proof.
  destruct (execute_order_matches_results (host := shHost) templateChain w0) as (_ & H).
  eexists _, _. split; [reflexivity|].
  destruct (H _ _ eq_refl) as (Hnd & Hids & _). split; [exact Hnd | exact Hids].
Defined.

Lemma templates_resolve_witness :
  replaceTemplates "echo {{ shellA.output }} and {{build_step.output}}!" afterShellA
  = "echo hello and hello!"
  /\ replaceTemplates "echo {{ missing.output }}" afterShellA
     = "echo {{ missing.output }}"
  /\ ran (snd (executeNode (host := shHost)
                 (processNodeTemplates
                    (shellNode "shellB" None ["echo {{ shellA.output }}"]) afterShellA)
                 "/work" w0))
     = ["echo hello"].
Proof.
  split; [|split].
  - destruct (templates_resolve (host := shHost) afterShellA
                "echo " " and {{build_step.output}}!" " " "shellA" " "
                eq_refl eq_refl eq_refl ltac:(discriminate)) as (Hsplit & Hid & _).
    cbn zeta in Hsplit, Hid.
    etransitivity; [exact Hsplit|]. rewrite (Hid "hello" eq_refl).
    vm_compute. reflexivity.
  - destruct (templates_resolve (host := shHost) afterShellA
                "echo " EmptyString " " "missing" " "
                eq_refl eq_refl eq_refl ltac:(discriminate)) as (Hsplit & _ & _ & Hnone & _).
    cbn zeta in Hsplit, Hnone.
    etransitivity; [exact Hsplit|]. rewrite Hnone.
    + vm_compute. reflexivity.
    + vm_compute. reflexivity.
    + intros n l Hin Hfit. vm_compute in Hin.
      repeat (apply elem_of_cons in Hin as [[= -> ->]|Hin]; [vm_compute in Hfit; discriminate|]).
      inversion Hin.
  - destruct (templates_resolve (host := shHost) afterShellA
                "echo " EmptyString " " "shellA" " "
                eq_refl eq_refl eq_refl ltac:(discriminate))
      as (_ & _ & _ & _ & _ & _ & _ & _ & Hone).
    cbn zeta in Hone.
    rewrite (Hone (shellNode "shellB" None ["echo {{ shellA.output }}"]) "/work" w0
               "echo {{ shellA.output }}" eq_refl eq_refl eq_refl).
    vm_compute. reflexivity.
Defined.

End ExecutorFacts.

(** * More properties of the trigger manager *)

Module RegistryFacts.
Import Triggers TriggerSpec Lifecycle RegistrySpec.

(** *** Insertion-ordered maps *)

Lemma has_keys {V} k (m : list (string * V)) :
  JsMap.has k m = true <-> k ∈ JsMap.keys m.
Proof.
  unfold JsMap.has. induction m as [|[k' v] m IH]; cbn.
  - split; [discriminate | intros H; inversion H].
  - destruct (String.eqb_spec k k') as [->|Hne].
    + split; [intros _; left | reflexivity].
    + rewrite IH. split; [intros H; right; exact H|].
      intros H. apply elem_of_cons in H as [H|H]; [congruence | exact H].
Qed.

Lemma get_keys {V} k (m : list (string * V)) :
  is_Some (JsMap.get k m) <-> k ∈ JsMap.keys m.
Proof.
  rewrite <- has_keys. unfold JsMap.has.
  destruct (JsMap.get k m); split; eauto; try discriminate.
  intros [? [=]].
Qed.

Lemma get_set_ne {V} k k' (v : V) m :
  k <> k' -> JsMap.get k' (JsMap.set k v m) = JsMap.get k' m.
Proof.
  intros Hne. induction m as [|[k0 v0] m IH]; cbn.
  - destruct (String.eqb_spec k' k); [congruence | reflexivity].
  - destruct (String.eqb_spec k k0) as [->|Hk]; cbn.
    + destruct (String.eqb_spec k' k0); [congruence | reflexivity].
    + rewrite IH. reflexivity.
Qed.

Lemma keys_set {V} k (v : V) m :
  JsMap.keys (JsMap.set k v m)
  = if JsMap.has k m then JsMap.keys m else (JsMap.keys m ++ [k])%list.
Proof.
  unfold JsMap.has, JsMap.keys. induction m as [|[k' v'] m IH]; cbn; [reflexivity|].
  destruct (String.eqb k k'); cbn; [reflexivity|].
  rewrite IH. destruct (JsMap.get k m); reflexivity.
Qed.

Lemma set_entries {V} k (v : V) m e :
  e ∈ JsMap.set k v m -> e = (k, v) \/ e ∈ m.
Proof.
  induction m as [|[k' v'] m IH]; cbn.
  - intros H. apply list_elem_of_singleton in H. auto.
  - destruct (String.eqb_spec k k') as [->|Hne]; intros H;
      apply elem_of_cons in H as [->|H].
    + auto.
    + right. right. exact H.
    + right. left.
    + destruct (IH H) as [->|Hin]; [auto | right; right; exact Hin].
Qed.

Lemma get_entry {V} k (v : V) m : JsMap.get k m = Some v -> (k, v) ∈ m.
Proof.
  induction m as [|[k' v'] m IH]; cbn; [discriminate|].
  destruct (String.eqb_spec k k') as [->|Hne].
  - intros [= ->]. left.
  - intros H. right. exact (IH H).
Qed.

Lemma entry_get {V} k (v : V) m :
  NoDup (JsMap.keys m) -> (k, v) ∈ m -> JsMap.get k m = Some v.
Proof.
  unfold JsMap.keys. induction m as [|[k' v'] m IH]; cbn; intros Hnd Hin.
  - inversion Hin.
  - apply NoDup_cons in Hnd as [Hk Hnd].
    apply elem_of_cons in Hin as [[= -> ->]|Hin].
    + rewrite String.eqb_refl. reflexivity.
    + destruct (String.eqb_spec k k') as [->|Hne]; [|exact (IH Hnd Hin)].
      exfalso. apply Hk. apply list_elem_of_fmap. exists (k', v). auto.
Qed.

(** Under unique keys, [delete] removes every entry of the key. *)
Lemma delete_filter {V} k (m : list (string * V)) :
  NoDup (JsMap.keys m) ->
  JsMap.delete k m = List.filter (fun e => negb (String.eqb (fst e) k)) m.
Proof.
  unfold JsMap.keys. induction m as [|[k' v'] m IH]; cbn; intros Hnd; [reflexivity|].
  apply NoDup_cons in Hnd as [Hk Hnd]. rewrite (String.eqb_sym k' k).
  destruct (String.eqb_spec k k') as [->|Hne]; cbn.
  - clear IH. induction m as [|[k2 v2] m IH2]; cbn; [reflexivity|].
    cbn in Hk, Hnd. apply NoDup_cons in Hnd as [_ Hnd].
    destruct (String.eqb_spec k2 k') as [->|Hk2]; cbn.
    + exfalso. apply Hk. left.
    + f_equal. apply IH2; [|exact Hnd]. intros H. apply Hk. right. exact H.
  - f_equal. exact (IH Hnd).
Qed.

Lemma keys_filter_NoDup {V} (p : string * V -> bool) (m : list (string * V)) :
  NoDup (JsMap.keys m) -> NoDup (JsMap.keys (List.filter p m)).
Proof.
  unfold JsMap.keys. induction m as [|e m IH]; cbn; intros Hnd; [constructor|].
  apply NoDup_cons in Hnd as [Hk Hnd]. destruct (p e); cbn; [|exact (IH Hnd)].
  apply NoDup_cons. split; [|exact (IH Hnd)].
  intros Hin. apply Hk. apply list_elem_of_fmap in Hin as (e' & -> & Hin).
  apply TriggerFacts.elem_of_List_filter in Hin as [Hin _].
  apply list_elem_of_fmap. eauto.
Qed.

Lemma get_filter {V} (p : string -> bool) (m : list (string * V)) k :
  JsMap.get k (List.filter (fun e => p (fst e)) m)
  = if p k then JsMap.get k m else None.
Proof.
  induction m as [|[k' v'] m IH]; cbn; [destruct (p k); reflexivity|].
  destruct (p k') eqn:Hp; cbn.
  - destruct (String.eqb_spec k k') as [->|Hne]; [rewrite Hp; reflexivity | exact IH].
  - rewrite IH. destruct (String.eqb_spec k k') as [->|Hne]; [rewrite Hp|]; reflexivity.
Qed.

(** *** Keys *)

Local Arguments String.append !_ _ : simpl nomatch.

Lemma split_at_colon a : forall b x y,
  colonFree a = true -> colonFree b = true ->
  (a ++ String ":" x)%string = (b ++ String ":" y)%string ->
  a = b /\ x = y.
Proof.
  unfold colonFree.
  induction a as [|c a IH]; intros [|d b] x y Ha Hb E; cbn in *.
  - injection E as ->. auto.
  - injection E as <- _. cbn in Hb. discriminate.
  - injection E as -> _. cbn in Ha. discriminate.
  - injection E as -> E.
    apply andb_true_iff in Ha as [_ Ha]. apply andb_true_iff in Hb as [_ Hb].
    destruct (IH b x y Ha Hb E) as [-> ->]. auto.
Qed.

(** X1: The key of a trigger determines its workspace, workflow path and
    node id whenever the workspaces and paths contain no colon. *)
Theorem getTriggerKey_injective (w1 p1 n1 w2 p2 n2 : string) :
  colonFree w1 = true -> colonFree p1 = true ->
  colonFree w2 = true -> colonFree p2 = true ->
  getTriggerKey w1 p1 n1 = getTriggerKey w2 p2 n2 ->
  w1 = w2 /\ p1 = p2 /\ n1 = n2.
Proof.
  intros Hw1 Hp1 Hw2 Hp2 E. unfold getTriggerKey in E.
  change (":" ++ p1 ++ ":" ++ n1)%string with (String ":" (p1 ++ String ":" n1)) in E.
  change (":" ++ p2 ++ ":" ++ n2)%string with (String ":" (p2 ++ String ":" n2)) in E.
  destruct (split_at_colon _ _ _ _ Hw1 Hw2 E) as [-> E'].
  destruct (split_at_colon _ _ _ _ Hp1 Hp2 E') as [-> ->]. auto.
Qed.

(** X2: A colon in a workspace or a path makes keys collide: the workflow
    [(w:x, p)] and the workflow [(w, x:p)] share their keys, so after
    registering a trigger for the one, looking the node up for the other
    finds that trigger. *)
Theorem register_key_collision {host : Host} (s : Sys)
    (w x p n label : string) (config : TriggerConfig) :
  let s' := snd (register (w ++ ":" ++ x) p n label config s) in
  getTriggerKey (w ++ ":" ++ x) p n = getTriggerKey w (x ++ ":" ++ p) n
  /\ get w (x ++ ":" ++ p) n s' = Some (length (heap (this s)))
  /\ exists t, deref s' (length (heap (this s))) = Some t
               /\ workspace t = (w ++ ":" ++ x)%string /\ workflowPath t = p.
Proof.
  cbn zeta.
  assert (E : getTriggerKey (w ++ ":" ++ x) p n = getTriggerKey w (x ++ ":" ++ p) n).
  { unfold getTriggerKey.
    rewrite !ExecutorFacts.append_assoc. reflexivity. }
  split; [exact E|].
  destruct (TriggerFacts.register_stores (w ++ ":" ++ x) p n label config s)
    as (Hget & Hderef & _).
  split.
  - unfold get in *. rewrite <- E. exact Hget.
  - eexists. split; [exact Hderef|]. split; reflexivity.
Qed.

(** *** The cron wrapper *)

Lemma trimStart_spaces s : ExecSpec.every Js.isSpace s = true -> Js.trimStart s = EmptyString.
Proof.
  induction s as [|c s IH]; cbn; [reflexivity|].
  intros H. apply andb_true_iff in H as [Hc Hs]. rewrite Hc. exact (IH Hs).
Qed.

(** X3: [isValidCron] accepts exactly the expressions that are not blank
    and that the parser accepts; the empty string and a string of white
    space are rejected whatever the parser would say. *)
Theorem isValidCron_exact {host : Host} (cronExpr : string) :
  (isValidCron cronExpr = true
   <-> Js.trim cronExpr <> EmptyString /\ exists expr, cron_parse cronExpr = inl expr)
  /\ (ExecSpec.every Js.isSpace cronExpr = true -> isValidCron cronExpr = false).
Proof.
  assert (Hiff : isValidCron cronExpr = true
            <-> Js.trim cronExpr <> EmptyString
                /\ exists expr, cron_parse cronExpr = inl expr).
  { unfold isValidCron.
    destruct cronExpr as [|c rest] eqn:Hc.
    - cbn. split; [discriminate | intros [H _]; exfalso; apply H; reflexivity].
    - rewrite <- Hc. replace (Js.truthy cronExpr) with true by (subst; reflexivity).
      cbn [negb orb].
      destruct (String.eqb_spec (Js.trim cronExpr) EmptyString) as [E|E].
      + split; [discriminate | intros [H _]; contradiction].
      + destruct (cron_parse cronExpr) as [expr|err].
        * split; [eauto | reflexivity].
        * split; [discriminate | intros [_ [expr [=]]]]. }
  split; [exact Hiff|].
  intros Hblank. apply not_true_is_false. intros Hv.
  apply Hiff in Hv as [Hne _]. apply Hne.
  unfold Js.trim. rewrite (trimStart_spaces _ Hblank). reflexivity.
Qed.

Section Registry.
Context {host : Host}.

Ltac eff :=
  unfold mbind, Eff_bind, mret, Eff_ret, tryCatch, throw, gets, modify, now in *.

(** *** Registration *)

Lemma registered_not_due (Hcron : cron_contract) config s d :
  registeredNextRun config s = Some d -> clock_now (world s) < d.
Proof.
  unfold registeredNextRun, nextRunFrom.
  destruct (cron config) as [expr|]; [|discriminate].
  destruct (String.eqb (type config) "cron" && Js.truthy expr); [|discriminate].
  destruct (cron_parse expr) as [parsed|err]; [|discriminate].
  destruct (Hcron parsed (clock_now (world s))) as (d' & Hd & Hlt). rewrite Hd.
  intros [= <-]. exact Hlt.
Qed.

(** X4: [register] never throws. The trigger it stores has no [nextRun] when
    its type is not cron or its expression does not parse; under the
    contract of the cron package an expression [isValidCron] accepts gives
    a [nextRun], any [nextRun] is strictly after the time of registration,
    and so the new trigger is not among the due cron triggers at that
    time. *)
Theorem register_next_run (s : Sys)
    (workspace workflowPath nodeId label : string) (config : TriggerConfig) :
  let r := length (heap (this s)) in
  let s' := snd (register workspace workflowPath nodeId label config s) in
  fst (register workspace workflowPath nodeId label config s) = inl r
  /\ exists t, deref s' r = Some t
       /\ (type config <> "cron" -> nextRun t = None)
       /\ (forall expr err, cron config = Some expr ->
             cron_parse expr = inr err -> nextRun t = None)
       /\ (cron_contract ->
             (forall expr, type config = "cron" -> cron config = Some expr ->
                isValidCron expr = true -> is_Some (nextRun t))
             /\ (forall d, nextRun t = Some d -> clock_now (world s) < d)
             /\ r ∉ getDueTriggers s').
Proof.
  cbn zeta.
  destruct (TriggerFacts.register_stores workspace workflowPath nodeId label config s)
    as (_ & Hderef & _).
  rewrite TriggerFacts.register_run in *. cbn [fst snd] in *.
  split; [reflexivity|]. eexists. split; [exact Hderef|]. cbn [nextRun registered].
  split; [|split; [|intros Hcron; split; [|split]]].
  - intros Hty. unfold registeredNextRun.
    destruct (cron config) as [expr|]; [|reflexivity].
    destruct (String.eqb_spec (type config) "cron"); [contradiction | reflexivity].
  - intros expr err Hexpr Herr. unfold registeredNextRun, nextRunFrom.
    rewrite Hexpr, Herr. destruct (_ && _); reflexivity.
  - intros expr Hty Hexpr Hvalid. unfold registeredNextRun, nextRunFrom.
    rewrite Hexpr, Hty. cbn [String.eqb].
    assert (Htruthy : Js.truthy expr = true).
    { destruct expr; [discriminate Hvalid | reflexivity]. }
    apply TriggerFacts.isValidCron_parses in Hvalid as [parsed Hparsed].
    rewrite Htruthy, Hparsed.
    destruct (Hcron parsed (clock_now (world s))) as (d & Hd & _). rewrite Hd.
    cbn. eauto.
  - intros d Hd. exact (registered_not_due Hcron config s d Hd).
  - intros Hdue. unfold getDueTriggers in Hdue.
    apply TriggerFacts.elem_of_List_filter in Hdue as [_ Hp].
    apply TriggerFacts.holds_true in Hp as (t & Ht & Hp).
    rewrite Hderef in Ht. injection Ht as <-. cbn in Hp.
    destruct (String.eqb (type config) "cron"); [|discriminate]. cbn in Hp.
    destruct (registeredNextRun config s) as [d|] eqn:Hd; [|discriminate].
    pose proof (registered_not_due Hcron config s d Hd).
    apply Z.leb_le in Hp. lia.
Qed.

(** X5: [register] leaves the rest of a registry with live references as it
    is: every other key leads to the trigger it led to, the objects already
    there are untouched, and the order of the keys stays, a new key going
    to the end. *)
Theorem register_frame (s : Sys)
    (workspace workflowPath nodeId label : string) (config : TriggerConfig) :
  live s ->
  let key := getTriggerKey workspace workflowPath nodeId in
  let s' := snd (register workspace workflowPath nodeId label config s) in
  (forall k, k <> key -> lookupTrigger k s' = lookupTrigger k s)
  /\ (forall r, (r < length (heap (this s)))%nat -> deref s' r = deref s r)
  /\ JsMap.keys (triggers (this s'))
     = (if JsMap.has key (triggers (this s)) then JsMap.keys (triggers (this s))
        else JsMap.keys (triggers (this s)) ++ [key])%list
  /\ idleSince (this s') = idleSince (this s)
  /\ world s' = world s.
Proof.
  intros [_ Hlt]. cbn zeta. rewrite TriggerFacts.register_run. cbn [snd].
  assert (Hold : forall r, (r < length (heap (this s)))%nat ->
            deref (onThis (fun m =>
                     with_triggers
                       (JsMap.set (getTriggerKey workspace workflowPath nodeId)
                          (length (heap (this s))) (triggers m))
                       (with_heap
                          (heap m ++ [registered workspace workflowPath nodeId label config s])%list
                          m)) s) r
            = deref s r).
  { intros r Hr. unfold deref. cbn. apply lookup_app_l. exact Hr. }
  split; [|split; [exact Hold|split; [|split; reflexivity]]].
  - intros k Hne. unfold lookupTrigger. cbn [this onThis triggers with_triggers with_heap].
    rewrite get_set_ne by congruence.
    destruct (JsMap.get k (triggers (this s))) as [r|] eqn:Hk; [|reflexivity].
    cbn. apply Hold. rewrite Forall_forall in Hlt. apply Hlt.
    apply get_entry in Hk. unfold getAll, JsMap.values.
    apply list_elem_of_fmap. exists (k, r). auto.
  - cbn. apply keys_set.
Qed.

(** *** Removal *)

Lemma unregister_run workspace workflowPath nodeId s :
  unregister workspace workflowPath nodeId s
  = (inl (JsMap.has (getTriggerKey workspace workflowPath nodeId) (triggers (this s))),
     onThis (fun m =>
       with_triggers
         (JsMap.delete (getTriggerKey workspace workflowPath nodeId) (triggers m)) m) s).
Proof. reflexivity. Qed.

(** X6: In a registry with unique keys [unregister] answers whether the key
    was there, the key is gone afterwards, so a second [unregister]
    answers false, and every other key and every object is as before. *)
Theorem unregister_exact (s : Sys) (workspace workflowPath nodeId : string) :
  keysUnique s ->
  let key := getTriggerKey workspace workflowPath nodeId in
  let s' := snd (unregister workspace workflowPath nodeId s) in
  fst (unregister workspace workflowPath nodeId s)
  = inl (bool_decide (is_Some (get workspace workflowPath nodeId s)))
  /\ get workspace workflowPath nodeId s' = None
  /\ fst (unregister workspace workflowPath nodeId s') = inl false
  /\ (forall k, k <> key ->
        JsMap.get k (triggers (this s')) = JsMap.get k (triggers (this s)))
  /\ heap (this s') = heap (this s).
Proof.
  intros Hnd. cbn zeta. rewrite !unregister_run. cbn [fst snd].
  unfold keysUnique in Hnd.
  assert (Hgone : JsMap.get (getTriggerKey workspace workflowPath nodeId)
                    (JsMap.delete (getTriggerKey workspace workflowPath nodeId)
                       (triggers (this s))) = None).
  { rewrite (delete_filter _ _ Hnd).
    rewrite (get_filter (fun k => negb
               (String.eqb k (getTriggerKey workspace workflowPath nodeId)))).
    rewrite String.eqb_refl. reflexivity. }
  split; [|split; [exact Hgone|split; [|split; [|reflexivity]]]].
  - unfold get, JsMap.has. f_equal.
    destruct (JsMap.get _ (triggers (this s))); symmetry;
      [apply bool_decide_eq_true_2; eauto
      |apply bool_decide_eq_false_2; intros [? [=]]].
  - cbn. unfold JsMap.has. rewrite Hgone. reflexivity.
  - intros k Hne. cbn. rewrite (delete_filter _ _ Hnd).
    rewrite (get_filter (fun k => negb
               (String.eqb k (getTriggerKey workspace workflowPath nodeId)))).
    destruct (String.eqb_spec k (getTriggerKey workspace workflowPath nodeId));
      [contradiction | reflexivity].
Qed.

Lemma filter_all {A} (p : A -> bool) (l : list A) :
  (forall x, x ∈ l -> p x = true) -> List.filter p l = l.
Proof.
  induction l as [|x l IH]; intros H; cbn; [reflexivity|].
  rewrite (H x) by left. f_equal. apply IH. intros y Hy. apply H. right. exact Hy.
Qed.

Lemma filter_twice {A} (p q : A -> bool) (l : list A) :
  List.filter q (List.filter p l) = List.filter (fun x => p x && q x) l.
Proof.
  induction l as [|x l IH]; cbn; [reflexivity|].
  destruct (p x); cbn; [destruct (q x); rewrite IH; reflexivity | exact IH].
Qed.

Lemma filter_same {A} (p q : A -> bool) (l : list A) :
  (forall x, x ∈ l -> p x = q x) -> List.filter p l = List.filter q l.
Proof.
  induction l as [|x l IH]; intros H; cbn; [reflexivity|].
  rewrite (H x) by left. rewrite IH; [reflexivity|].
  intros y Hy. apply H. right. exact Hy.
Qed.

Lemma filter_split_length {A} (p : A -> bool) (l : list A) :
  (length (List.filter p l) + length (List.filter (fun x => negb (p x)) l))%nat
  = length l.
Proof. induction l as [|x l IH]; cbn; [reflexivity|]. destruct (p x); cbn; lia. Qed.

Lemma filter_keys {V} (p : string -> bool) (m : list (string * V)) :
  List.filter p (JsMap.keys m) = JsMap.keys (List.filter (fun e => p (fst e)) m).
Proof.
  unfold JsMap.keys. induction m as [|e m IH]; cbn; [reflexivity|].
  destruct (p (fst e)); cbn; rewrite IH; reflexivity.
Qed.

(** Deleting a list of keys one by one, under unique keys. *)
Lemma delete_all {V} (doomed : list string) : forall m : list (string * V),
  NoDup (JsMap.keys m) ->
  fold_left (fun m k => JsMap.delete k m) doomed m
  = List.filter (fun e => negb (bool_decide (fst e ∈ doomed))) m.
Proof.
  induction doomed as [|k doomed IH]; intros m Hnd; cbn.
  - symmetry. apply filter_all. intros e _.
    rewrite bool_decide_eq_false_2; [reflexivity | intros H; inversion H].
  - rewrite (delete_filter k m Hnd).
    rewrite IH by (apply keys_filter_NoDup; exact Hnd).
    rewrite filter_twice. apply filter_same. intros e _.
    destruct (String.eqb_spec (fst e) k) as [E|E]; cbn.
    + rewrite bool_decide_eq_true_2; [reflexivity | rewrite E; left].
    + destruct (decide (fst e ∈ doomed)) as [Hin|Hout].
      * rewrite !bool_decide_eq_true_2; [reflexivity | right; exact Hin | exact Hin].
      * rewrite !bool_decide_eq_false_2; [reflexivity | | exact Hout].
        intros H. apply elem_of_cons in H as [H|H]; [exact (E H) | exact (Hout H)].
Qed.

Lemma forOf_delete (doomed : list string) : forall s : Sys,
  forOf doomed (fun id =>
    modify (onThis (fun m => with_triggers (JsMap.delete id (triggers m)) m))) s
  = (inl tt,
     onThis (fun m =>
       with_triggers (fold_left (fun ts k => JsMap.delete k ts) doomed (triggers m)) m) s).
Proof.
  induction doomed as [|k doomed IH]; intros s; cbn.
  - destruct s as [[] ? ?]. reflexivity.
  - eff. cbn. rewrite IH. reflexivity.
Qed.

Lemma unregisterWorkflow_run (s : Sys) (workspace workflowPath : string) :
  keysUnique s ->
  let prefix := (workspace ++ ":" ++ workflowPath ++ ":")%string in
  unregisterWorkflow workspace workflowPath s
  = (inl (length (List.filter (Js.startsWith prefix) (JsMap.keys (triggers (this s))))),
     onThis (fun m =>
       with_triggers
         (List.filter (fun e => negb (Js.startsWith prefix (fst e))) (triggers m)) m) s).
Proof.
  intros Hnd. cbn zeta. unfold unregisterWorkflow. eff. cbn [fst snd].
  rewrite forOf_delete. unfold keysUnique in Hnd.
  set (prefix := (workspace ++ ":" ++ workflowPath ++ ":")%string).
  assert (Hleft :
    fold_left (fun ts k => JsMap.delete k ts)
      (List.filter (Js.startsWith prefix) (JsMap.keys (triggers (this s))))
      (triggers (this s))
    = List.filter (fun e => negb (Js.startsWith prefix (fst e))) (triggers (this s))).
  { rewrite (delete_all _ _ Hnd). apply filter_same. intros e He. f_equal.
    destruct (Js.startsWith prefix (fst e)) eqn:Hp.
    - apply bool_decide_eq_true_2. apply TriggerFacts.elem_of_List_filter.
      split; [|exact Hp]. unfold JsMap.keys. apply list_elem_of_fmap. eauto.
    - apply bool_decide_eq_false_2. intros Hin.
      apply TriggerFacts.elem_of_List_filter in Hin as [_ Hin]. congruence. }
  unfold onThis. cbn. rewrite Hleft. reflexivity.
Qed.

(** X7: In a registry with unique keys [unregisterWorkflow] removes exactly
    the entries whose key starts with [workspace:workflowPath:], keeps the
    others in their order, touches no object, and returns the number of
    entries removed. *)
Theorem unregisterWorkflow_exact (s : Sys) (workspace workflowPath : string) :
  keysUnique s ->
  let prefix := (workspace ++ ":" ++ workflowPath ++ ":")%string in
  exists (count : nat) (s' : Sys),
    unregisterWorkflow workspace workflowPath s = (inl count, s')
    /\ triggers (this s')
       = List.filter (fun e => negb (Js.startsWith prefix (fst e))) (triggers (this s))
    /\ (count + length (triggers (this s')))%nat = length (triggers (this s))
    /\ (forall k, JsMap.get k (triggers (this s'))
                  = if Js.startsWith prefix k then None
                    else JsMap.get k (triggers (this s)))
    /\ heap (this s') = heap (this s)
    /\ idleSince (this s') = idleSince (this s).
Proof.
  intros Hnd. cbn zeta. rewrite (unregisterWorkflow_run s workspace workflowPath Hnd).
  set (prefix := (workspace ++ ":" ++ workflowPath ++ ":")%string).
  eexists _, _. split; [reflexivity|]. cbn.
  split; [reflexivity|]. split; [|split; [|split; reflexivity]].
  - rewrite filter_keys. unfold JsMap.keys. rewrite length_map.
    apply filter_split_length.
  - intros k. rewrite (get_filter (fun k => negb (Js.startsWith prefix k))).
    destruct (Js.startsWith prefix k); reflexivity.
Qed.

Lemma prefix_append (p rest : string) : Js.startsWith p (p ++ rest) = true.
Proof.
  unfold Js.startsWith. induction p as [|c p IH]; cbn.
  - destruct rest; reflexivity.
  - destruct (ascii_dec c c) as [_|Hne]; [exact IH | contradiction].
Qed.

(** X8: The prefix test of [unregisterWorkflow] also catches the workflows
    whose path continues the given one after a colon: in a registry with
    unique keys, after [unregisterWorkflow(workspace, path)] no trigger of
    the workflow [path:more] of that workspace is left. *)
Theorem unregisterWorkflow_catches_longer_paths (s : Sys)
    (workspace workflowPath more nodeId : string) :
  keysUnique s ->
  get workspace (workflowPath ++ ":" ++ more) nodeId
    (snd (unregisterWorkflow workspace workflowPath s)) = None.
Proof.
  intros Hnd. rewrite (unregisterWorkflow_run s workspace workflowPath Hnd).
  cbn [snd]. unfold get. cbn [this onThis triggers with_triggers].
  rewrite (get_filter
             (fun k => negb (Js.startsWith (workspace ++ ":" ++ workflowPath ++ ":") k))).
  replace (getTriggerKey workspace (workflowPath ++ ":" ++ more) nodeId)
    with ((workspace ++ ":" ++ workflowPath ++ ":") ++ more ++ ":" ++ nodeId)%string.
  - rewrite prefix_append. reflexivity.
  - unfold getTriggerKey. rewrite !ExecutorFacts.append_assoc. reflexivity.
Qed.

(** *** Due cron triggers, enabling, firing *)

Lemma due_cron_iff (s : Sys) (r : ref) :
  r ∈ getDueTriggers s
  <-> r ∈ getAll s
      /\ exists t d, deref s r = Some t /\ enabled t = true
           /\ type (config t) = "cron"
           /\ nextRun t = Some d /\ d <= clock_now (world s).
Proof.
  unfold getDueTriggers.
  rewrite TriggerFacts.elem_of_List_filter, TriggerFacts.holds_true. split.
  - intros (Hin & t & Ht & Hp). split; [exact Hin|].
    destruct (enabled t) eqn:He; [|discriminate]. cbn in Hp.
    destruct (String.eqb_spec (type (config t)) "cron") as [Hty|]; [|discriminate].
    cbn in Hp. destruct (nextRun t) as [d|] eqn:Hd; [|discriminate].
    apply Z.leb_le in Hp. exists t, d. auto.
  - intros (Hin & t & d & Ht & He & Hty & Hd & Hle). split; [exact Hin|].
    exists t. split; [exact Ht|]. rewrite He, Hty, Hd. cbn. apply Z.leb_le. exact Hle.
Qed.

Lemma due_idle_enabled (s : Sys) (r : ref) (t : RegisteredTrigger) :
  r ∈ getDueIdleTriggers s -> deref s r = Some t -> enabled t = true.
Proof.
  unfold getDueIdleTriggers. destruct (idleSince (this s)); [|intros H; inversion H].
  intros H Ht. apply TriggerFacts.elem_of_List_filter in H as [_ H].
  apply TriggerFacts.holds_true in H as (t' & Ht' & Hp).
  rewrite Ht in Ht'. injection Ht' as <-.
  destruct (enabled t); [reflexivity | discriminate].
Qed.

(** X9: [getDueTriggers] lists, in registry order, exactly the registered
    triggers that are enabled, of type cron, and have a [nextRun] that is
    not after the clock's time; a disabled trigger and a trigger without
    [nextRun] are never in it. *)
Theorem getDueTriggers_exact (s : Sys) :
  sublist (getDueTriggers s) (getAll s)
  /\ (forall r, r ∈ getDueTriggers s
        <-> r ∈ getAll s
            /\ exists t d, deref s r = Some t /\ enabled t = true
                 /\ type (config t) = "cron"
                 /\ nextRun t = Some d /\ d <= clock_now (world s))
  /\ (forall r t, deref s r = Some t ->
        enabled t = false \/ nextRun t = None -> r ∉ getDueTriggers s).
Proof.
  split; [apply TriggerFacts.filter_sublist|]. split; [apply due_cron_iff|].
  intros r t Ht Hoff Hdue. apply due_cron_iff in Hdue as (_ & t' & d & Ht' & He & _ & Hd & _).
  rewrite Ht in Ht'. injection Ht' as <-. destruct Hoff; congruence.
Qed.

(** X10: [setEnabled] on a key that is not registered answers false and changes
    nothing. On a registered key it answers true and assigns [enabled] of
    that trigger only: its other fields, the other objects, the registry
    and the idle state stay. A trigger switched off is in neither due list;
    switching an enabled trigger off and on again gives the state back. *)
Theorem setEnabled_frame (s : Sys) (workspace workflowPath nodeId : string) (b : bool) :
  let s' := snd (setEnabled workspace workflowPath nodeId b s) in
  (get workspace workflowPath nodeId s = None ->
     setEnabled workspace workflowPath nodeId b s = (inl false, s))
  /\ (forall r, get workspace workflowPath nodeId s = Some r ->
        fst (setEnabled workspace workflowPath nodeId b s) = inl true
        /\ deref s' r = with_enabled b <$> deref s r
        /\ (forall r', r' <> r -> deref s' r' = deref s r')
        /\ triggers (this s') = triggers (this s)
        /\ idleSince (this s') = idleSince (this s)
        /\ (b = false -> (r ∉ getDueTriggers s') /\ (r ∉ getDueIdleTriggers s'))
        /\ (forall t, deref s r = Some t -> enabled t = true ->
              snd (setEnabled workspace workflowPath nodeId true
                     (snd (setEnabled workspace workflowPath nodeId false s))) = s)).
Proof.
  cbn zeta. rewrite TriggerFacts.setEnabled_run. split.
  - intros ->. reflexivity.
  - intros r Hr. rewrite Hr. cbn [fst snd].
    assert (Hat : deref (onThis (fun m => with_heap (alter (with_enabled b) r (heap m)) m) s) r
                  = with_enabled b <$> deref s r).
    { unfold deref. cbn. apply list_lookup_alter_eq. }
    split; [reflexivity|]. split; [exact Hat|]. split; [|split; [reflexivity|split; [reflexivity|split]]].
    + intros r' Hne. unfold deref. cbn. apply list_lookup_alter_ne. congruence.
    + intros ->. split; intros Hdue.
      * apply due_cron_iff in Hdue as (_ & t & d & Ht & He & _).
        rewrite Hat in Ht. destruct (deref s r); [|discriminate].
        injection Ht as <-. discriminate He.
      * destruct (TriggerFacts.due_idle_deref _ _ Hdue) as [t Ht].
        pose proof (due_idle_enabled _ _ _ Hdue Ht) as He.
        rewrite Hat in Ht. destruct (deref s r); [|discriminate].
        injection Ht as <-. discriminate He.
    + intros t Ht He. rewrite !TriggerFacts.setEnabled_run.
      unfold get in *. rewrite Hr. cbn. rewrite Hr. cbn.
      assert (Hback : alter (with_enabled true) r
                        (alter (with_enabled false) r (heap (this s)))
                      = heap (this s)).
      { rewrite TriggerFacts.alter_twice.
        rewrite (TriggerFacts.alter_same_at _ (fun x => x) (heap (this s)) r).
        - apply list_alter_id. reflexivity.
        - intros x Hx. unfold deref in Ht. rewrite Ht in Hx. injection Hx as <-.
          destruct t. cbn in *. subst. reflexivity. }
      destruct s as [[h ts cb f i] w c]. unfold onThis. cbn in *.
      rewrite Hback. reflexivity.
Qed.

(** X11: [markFired] never throws and assigns to the given object only. Its
    [lastRun] becomes the clock's time. For a cron trigger with an
    expression that parses, [nextRun] becomes what the cron package gives
    as the next occurrence after that time, and is cleared when the package
    throws; under the contract of the package it is a date strictly after
    that time. [nextRun] is cleared when the expression does not parse. So
    a trigger that has an expression whenever its type is cron is not among
    the due cron triggers right after it was marked. For any other trigger
    [nextRun] stays. *)
Theorem markFired_effect (s : Sys) (r : ref) (t : RegisteredTrigger) :
  deref s r = Some t ->
  let s' := snd (markFired r s) in
  fst (markFired r s) = inl tt
  /\ (forall r', r' <> r -> deref s' r' = deref s r')
  /\ exists t', deref s' r = Some t'
       /\ lastRun t' = Some (clock_now (world s))
       /\ config t' = config t /\ enabled t' = enabled t
       /\ (Js.truthyOpt (cron (config t)) = false \/ type (config t) <> "cron" ->
             nextRun t' = nextRun t)
       /\ (forall expr parsed, type (config t) = "cron" -> cron (config t) = Some expr ->
             Js.truthy expr = true -> cron_parse expr = inl parsed ->
             nextRun t' = match cron_next parsed (clock_now (world s)) with
                          | inl d => Some d
                          | inr _ => None
                          end
             /\ (cron_contract ->
                   exists d, nextRun t' = Some d
                             /\ cron_next parsed (clock_now (world s)) = inl d
                             /\ clock_now (world s) < d))
       /\ (forall expr err, type (config t) = "cron" -> cron (config t) = Some expr ->
             Js.truthy expr = true -> cron_parse expr = inr err -> nextRun t' = None)
       /\ (cron_contract ->
             (type (config t) = "cron" -> Js.truthyOpt (cron (config t)) = true) ->
             (forall d, type (config t) = "cron" -> nextRun t' = Some d ->
                clock_now (world s) < d)
             /\ r ∉ getDueTriggers s').
Proof.
  intros Ht. cbn zeta. rewrite TriggerFacts.markFired_run. cbn [fst snd].
  split; [reflexivity|]. split.
  { intros r' Hne. unfold deref. cbn. apply list_lookup_alter_ne. congruence. }
  assert (Hat : deref (onThis (fun m => with_heap (alter (markedFired s) r (heap m)) m) s) r
                = Some (markedFired s t)).
  { unfold deref in *. cbn. rewrite list_lookup_alter_eq, Ht. reflexivity. }
  exists (markedFired s t). split; [exact Hat|].
  destruct (TriggerFacts.markedFired_static s t) as [He Hc].
  assert (Hnext : forall d, cron_contract -> type (config t) = "cron" ->
            Js.truthyOpt (cron (config t)) = true ->
            nextRun (markedFired s t) = Some d -> clock_now (world s) < d).
  { intros d Hcron Hty Htruthy. unfold markedFired, nextRunFrom.
    destruct (cron (config t)) as [expr|]; [|discriminate Htruthy].
    cbn in Htruthy. rewrite Hty, Htruthy. cbn.
    destruct (cron_parse expr) as [parsed|err]; [|discriminate].
    destruct (Hcron parsed (clock_now (world s))) as (d' & Hd & Hlt). rewrite Hd.
    intros [= <-]. exact Hlt. }
  split; [|split; [exact Hc|split; [exact He|split; [|split; [|split; [|intros Hcron Hexpr; split]]]]]].
  - unfold markedFired. destruct (cron (config t)) as [expr|]; [|reflexivity].
    destruct (_ && _); reflexivity.
  - intros [Hno|Hty]; unfold markedFired.
    + destruct (cron (config t)) as [expr|]; [|reflexivity].
      cbn in Hno. rewrite Hno, andb_false_r. reflexivity.
    + destruct (cron (config t)) as [expr|]; [|reflexivity].
      destruct (String.eqb_spec (type (config t)) "cron"); [contradiction | reflexivity].
  - intros expr parsed Hty Hexpr Htruthy Hparsed.
    assert (Hset : nextRun (markedFired s t)
                   = match cron_next parsed (clock_now (world s)) with
                     | inl d => Some d
                     | inr _ => None
                     end).
    { unfold markedFired, nextRunFrom. rewrite Hexpr, Hty, Htruthy, Hparsed. cbn.
      destruct (cron_next parsed (clock_now (world s))); reflexivity. }
    split; [exact Hset|]. intros Hcron.
    destruct (Hcron parsed (clock_now (world s))) as (d & Hd & Hlt).
    exists d. rewrite Hset, Hd. auto.
  - intros expr err Hty Hexpr Htruthy Herr. unfold markedFired, nextRunFrom.
    rewrite Hexpr, Hty, Htruthy, Herr. reflexivity.
  - intros d Hty. apply Hnext; auto.
  - intros Hdue.
    apply due_cron_iff in Hdue as (_ & t' & d & Ht' & _ & Hty & Hd & Hle).
    rewrite Hat in Ht'. injection Ht' as <-. rewrite Hc in Hty.
    pose proof (Hnext d Hcron Hty (Hexpr Hty) Hd). cbn in Hle. lia.
Qed.

(** *** The check cycle, with or without a callback *)

Lemma fireEach_keeps (P : Sys -> Prop) :
  (forall r s, P s -> P (fireOne r s)) ->
  forall due s, P s -> P (fireEach due s).
Proof.
  intros Hone due. induction due as [|r due IH]; intros s Hs; [exact Hs|].
  change (fireEach (r :: due) s) with (fireEach due (fireOne r s)).
  apply IH, Hone, Hs.
Qed.

Lemma afterCron_cronPhase s : afterCron s = cronPhase s.
Proof.
  unfold afterCron, cronPhase.
  destruct (TriggerFacts.fireAll_fireEach (getDueTriggers s) [] s) as (pushed & -> & _).
  reflexivity.
Qed.

(** The shape of a cycle whatever the callback, and what it keeps of a
    property that firing one trigger, drawing a random number and saving
    keep. *)
Lemma checkAndFire_keeps (P : Sys -> Prop) (s : Sys) :
  (forall r s, P s -> P (fireOne r s)) ->
  (forall s, P s -> P (drawn s)) ->
  (forall s, P s -> P (snd (save s))) ->
  P s ->
  exists (cronFired idleFired : list ref) (s' : Sys),
    checkAndFire s = (inl (cronFired ++ idleFired)%list, s')
    /\ sublist cronFired (getDueTriggers s)
    /\ (idleFired = []
        \/ exists r, idleFired = [r] /\ r ∈ getDueIdleTriggers (afterCron s))
    /\ P s'.
Proof.
  intros Hone Hdrawn Hsave Hs. rewrite afterCron_cronPhase.
  destruct (TriggerFacts.fireAll_fireEach (getDueTriggers s) [] s) as (pushed & Hall & Hsub).
  cbn [app] in Hall. fold (cronPhase s) in Hall.
  assert (Hs1 : P (cronPhase s)) by exact (fireEach_keeps P Hone (getDueTriggers s) s Hs).
  destruct (TriggerFacts.fireIdle_run pushed (cronPhase s)) as [Hnone Hsome].
  assert (Hend : forall (fired : list ref) s2, P s2 ->
            P (if (0 <? length fired)%nat then snd (save s2) else s2)).
  { intros fired s2 H2. destruct (0 <? length fired)%nat; auto. }
  destruct (getDueIdleTriggers (cronPhase s)) as [|c cands] eqn:Hdue.
  - exists pushed, []. eexists. rewrite app_nil_r.
    split; [exact (TriggerFacts.checkAndFire_run s _ _ _ Hall (Hnone eq_refl))|].
    split; [exact Hsub|]. split; [left; reflexivity|]. apply Hend, Hs1.
  - destruct Hsome as (chosen & Hmem & _ & Hidle); [discriminate|].
    destruct chosen as [r|].
    + exists pushed, (if isSome (thrown r (drawn (cronPhase s))) then [] else [r]).
      eexists. split; [exact (TriggerFacts.checkAndFire_run s _ _ _ Hall Hidle)|].
      split; [exact Hsub|]. split; [|apply Hend, Hone, Hdrawn, Hs1].
      destruct (isSome _); [left; reflexivity | right].
      exists r. split; [reflexivity | apply Hmem; reflexivity].
    + exists pushed, []. eexists. rewrite app_nil_r.
      split; [exact (TriggerFacts.checkAndFire_run s _ _ _ Hall Hidle)|].
      split; [exact Hsub|]. split; [left; reflexivity|]. apply Hend, Hdrawn, Hs1.
Qed.

(** X12: Whatever the callback does to the manager, to the trigger objects
    and to itself, and without a callback, [checkAndFire] returns. The
    triggers it returns were due: a sublist of the due cron triggers in
    their order, then at most one trigger that was among the due idle
    triggers once the cron triggers had fired. When the callback leaves
    the manager alone, or there is none, the cycle changes neither the
    registry nor the callback, the file name or the idle state, and of the
    trigger objects only [nextRun] and [lastRun]. *)
Theorem checkAndFire_frame (s : Sys) :
  exists (cronFired idleFired : list ref) (s' : Sys),
    checkAndFire s = (inl (cronFired ++ idleFired)%list, s')
    /\ sublist cronFired (getDueTriggers s)
    /\ (idleFired = []
        \/ exists r, idleFired = [r] /\ r ∈ getDueIdleTriggers (afterCron s))
    /\ (calm s -> steady s s').
Proof.
  apply (checkAndFire_keeps (fun s' => calm s -> steady s s')).
  - intros r s1 H1 Hcalm. specialize (H1 Hcalm).
    eapply TriggerFacts.steady_trans; [exact H1|].
    apply TriggerFacts.fireOne_steady. exact (TriggerFacts.calm_steady _ _ H1 Hcalm).
  - intros s1 H1 Hcalm.
    exact (TriggerFacts.steady_trans _ _ _ (H1 Hcalm) (TriggerFacts.steady_world s1 _)).
  - intros s1 H1 Hcalm. destruct (TriggerFacts.save_run s1) as [w ->].
    exact (TriggerFacts.steady_trans _ _ _ (H1 Hcalm) (TriggerFacts.steady_world s1 w)).
  - intros _. apply TriggerFacts.steady_refl.
Qed.

(** X13: A cycle in which nothing is due does nothing: no call, no write, the
    state as it was, the empty list returned. *)
Theorem checkAndFire_nothing_due (s : Sys) :
  getDueTriggers s = [] -> getDueIdleTriggers s = [] ->
  checkAndFire s = (inl [], s).
Proof.
  intros Hcron Hidle. unfold checkAndFire, fireIdle. eff. cbn.
  rewrite Hcron. cbn. rewrite Hidle. cbn. reflexivity.
Qed.

Lemma calm_none s : onTriggerFire (this s) = None -> calm s.
Proof. intros Hcb cb H. congruence. Qed.

Lemma fireOne_none r s :
  onTriggerFire (this s) = None ->
  thrown r s = None /\ fireOne r s = snd (markFired r s).
Proof. intros Hcb. unfold thrown, fireOne. rewrite Hcb. split; reflexivity. Qed.

Lemma fireAll_none due : forall fired s,
  onTriggerFire (this s) = None ->
  (forall r, r ∈ due -> is_Some (deref s r)) ->
  fireAll due fired s = (inl (fired ++ due)%list, fireEach due s)
  /\ steady s (fireEach due s) /\ calls (fireEach due s) = calls s
  /\ forall r, r ∈ due ->
       exists t, deref (fireEach due s) r = Some t /\ is_Some (lastRun t).
Proof.
  induction due as [|r due IH]; intros fired s Hcb Hlive.
  - cbn. rewrite app_nil_r. split; [reflexivity|].
    split; [apply TriggerFacts.steady_refl|]. split; [reflexivity|].
    intros r Hr. inversion Hr.
  - change (fireEach (r :: due) s) with (fireEach due (fireOne r s)).
    destruct (fireOne_none r s Hcb) as [Hthrown Hone].
    pose proof (TriggerFacts.fireOne_steady r s (calm_none s Hcb)) as Hs1.
    destruct (TriggerFacts.fireOne_marks r s (calm_none s Hcb)
                (Hlive r ltac:(left)) Hthrown) as (t1 & Ht1 & Hm1).
    destruct (IH (fired ++ [r])%list (fireOne r s)) as (Hrest & Hs2 & Hcalls & Hmarked).
    + rewrite (steady_callback _ _ Hs1). exact Hcb.
    + intros r' Hr'. destruct (Hlive r') as [t' Ht']; [right; exact Hr'|].
      destruct (steady_objects _ _ Hs1 r' t' Ht') as (t'' & Ht'' & _). eauto.
    + cbn [fireAll]. eff. rewrite TriggerFacts.fireTrigger_fireOne, Hthrown.
      cbn [isSome]. rewrite Hrest, <- app_assoc.
      split; [reflexivity|].
      split; [exact (TriggerFacts.steady_trans _ _ _ Hs1 Hs2)|].
      split; [rewrite Hcalls, Hone; apply TriggerFacts.markFired_calls|].
      intros r' Hr'. apply elem_of_cons in Hr' as [->|Hr']; [|exact (Hmarked r' Hr')].
      destruct (steady_objects _ _ Hs2 r t1 Ht1) as (t2 & Ht2 & _ & Hm2). eauto.
Qed.

(** X14: Without a callback a cycle marks and returns every due cron trigger,
    in registry order, and then one of the due idle triggers when there is
    one; it makes no call, and every trigger it returns has a [lastRun]
    afterwards. *)
Theorem checkAndFire_without_callback (s : Sys) :
  onTriggerFire (this s) = None ->
  exists (idleFired : list ref) (s' : Sys),
    checkAndFire s = (inl (getDueTriggers s ++ idleFired)%list, s')
    /\ calls s' = calls s
    /\ (idleFired = []
        \/ exists r, idleFired = [r] /\ r ∈ getDueIdleTriggers (afterCron s))
    /\ (random_contract -> getDueIdleTriggers (afterCron s) <> [] -> idleFired <> [])
    /\ forall r, r ∈ (getDueTriggers s ++ idleFired)%list ->
         exists t, deref s' r = Some t /\ is_Some (lastRun t).
Proof.
  intros Hcb. rewrite afterCron_cronPhase.
  destruct (fireAll_none (getDueTriggers s) [] s Hcb (TriggerFacts.due_cron_deref s))
    as (Hcron & Hs1 & Hcalls1 & Hmarked1).
  cbn [app] in Hcron. fold (cronPhase s) in Hcron, Hs1, Hcalls1, Hmarked1.
  assert (Hcb1 : onTriggerFire (this (cronPhase s)) = None)
    by (rewrite (steady_callback _ _ Hs1); exact Hcb).
  assert (Hend : forall idleFired s2,
            fireIdle (getDueTriggers s) (cronPhase s)
            = (inl (getDueTriggers s ++ idleFired)%list, s2) ->
            steady (cronPhase s) s2 -> calls s2 = calls s ->
            (forall r, r ∈ idleFired ->
               exists t, deref s2 r = Some t /\ is_Some (lastRun t)) ->
            exists s',
              checkAndFire s = (inl (getDueTriggers s ++ idleFired)%list, s')
              /\ calls s' = calls s
              /\ forall r, r ∈ (getDueTriggers s ++ idleFired)%list ->
                   exists t, deref s' r = Some t /\ is_Some (lastRun t)).
  { intros idleFired s2 Hidle Hs2 Hcalls2 Hmarked2.
    eexists. split; [exact (TriggerFacts.checkAndFire_run s _ _ _ Hcron Hidle)|].
    assert (Hsame : forall s3, this s3 = this s2 -> calls s3 = calls s2 ->
              calls s3 = calls s
              /\ forall r, r ∈ (getDueTriggers s ++ idleFired)%list ->
                   exists t, deref s3 r = Some t /\ is_Some (lastRun t)).
    { intros s3 Hthis Hc. split; [congruence|].
      intros r Hr. unfold deref. rewrite Hthis. fold (deref s2 r).
      apply elem_of_app in Hr as [Hr|Hr]; [|exact (Hmarked2 r Hr)].
      destruct (Hmarked1 r Hr) as (t1 & Ht1 & Hm1).
      destruct (steady_objects _ _ Hs2 r t1 Ht1) as (t2 & Ht2 & _ & Hm2). eauto. }
    destruct (0 <? length _)%nat.
    - destruct (TriggerFacts.save_keeps s2) as [Hthis Hc]. exact (Hsame _ Hthis Hc).
    - exact (Hsame s2 eq_refl eq_refl). }
  destruct (TriggerFacts.fireIdle_run (getDueTriggers s) (cronPhase s)) as [Hnone Hsome].
  destruct (getDueIdleTriggers (cronPhase s)) as [|c cands] eqn:Hdue.
  - exists []. destruct (Hend [] (cronPhase s)) as (s' & Hrun & Hcalls & Hmarked).
    + rewrite app_nil_r. exact (Hnone eq_refl).
    + apply TriggerFacts.steady_refl.
    + exact Hcalls1.
    + intros r Hr. inversion Hr.
    + exists s'. split; [exact Hrun|]. split; [exact Hcalls|].
      split; [left; reflexivity|]. split; [congruence | exact Hmarked].
  - destruct Hsome as (chosen & Hmem & Hrand & Hidle); [discriminate|].
    destruct chosen as [r|].
    + assert (Hcbd : onTriggerFire (this (drawn (cronPhase s))) = None) by exact Hcb1.
      destruct (fireOne_none r (drawn (cronPhase s)) Hcbd) as [Hthrown Hone].
      rewrite Hthrown in Hidle. cbn [isSome] in Hidle.
      assert (Hr : r ∈ getDueIdleTriggers (cronPhase s))
        by (rewrite Hdue; apply Hmem; reflexivity).
      destruct (TriggerFacts.due_idle_deref (cronPhase s) r Hr) as [t Ht].
      exists [r]. destruct (Hend [r] _ Hidle) as (s' & Hrun & Hcalls & Hmarked).
      * eapply TriggerFacts.steady_trans; [apply (TriggerFacts.steady_world (cronPhase s))|].
        apply (TriggerFacts.fireOne_steady r (drawn (cronPhase s))).
        apply calm_none. exact Hcbd.
      * rewrite Hone, TriggerFacts.markFired_calls. exact Hcalls1.
      * intros r' Hr'. apply list_elem_of_singleton in Hr' as ->.
        apply (TriggerFacts.fireOne_marks r (drawn (cronPhase s)));
          [apply calm_none; exact Hcbd | exists t; exact Ht | exact Hthrown].
      * exists s'. split; [exact Hrun|]. split; [exact Hcalls|].
        split; [right; exists r; rewrite <- Hdue; auto|].
        split; [discriminate | exact Hmarked].
    + exists []. destruct (Hend [] (drawn (cronPhase s))) as (s' & Hrun & Hcalls & Hmarked).
      * rewrite app_nil_r. exact Hidle.
      * apply TriggerFacts.steady_world.
      * exact Hcalls1.
      * intros r Hr. inversion Hr.
      * exists s'. split; [exact Hrun|]. split; [exact Hcalls|].
        split; [left; reflexivity|]. split; [|exact Hmarked].
        intros Hrc _. destruct (Hrand Hrc) as [? [=]].
Qed.

(** *** What every state of a manager satisfies *)

Lemma sound_same_store s s' :
  triggers (this s') = triggers (this s) -> heap (this s') = heap (this s) ->
  sound s -> sound s'.
Proof.
  intros Ht Hh ([Hnd Hlt] & Hk & Hkd). unfold sound, live, keysUnique, keyed, getAll, deref in *.
  rewrite Ht, Hh. auto.
Qed.

Lemma sound_steady s s' : steady s s' -> sound s -> sound s'.
Proof.
  intros Hst ([Hnd Hlt] & Hk & Hkd). unfold sound, live, keysUnique, keyed, getAll in *.
  rewrite (steady_triggers _ _ Hst), (steady_length _ _ Hst).
  split; [auto|]. split; [exact Hk|].
  intros k r Hin. destruct (Hkd k r Hin) as (t & Ht & Hid).
  destruct (steady_objects _ _ Hst r t Ht) as (t' & Ht' & E & _).
  exists t'. split; [exact Ht'|]. apply (f_equal id) in E. cbn in E. congruence.
Qed.

Lemma sound_filter (p : string * ref -> bool) s :
  sound s ->
  sound (onThis (fun m => with_triggers (List.filter p (triggers m)) m) s).
Proof.
  intros ([Hnd Hlt] & Hk & Hkd).
  unfold sound, live, keysUnique, keyed, getAll, deref in *. cbn.
  assert (Hsub : sublist (JsMap.values (List.filter p (triggers (this s))))
                   (JsMap.values (triggers (this s)))).
  { unfold JsMap.values. apply fmap_sublist. apply TriggerFacts.filter_sublist. }
  split; [split|split].
  - exact (sublist_NoDup _ _ Hnd Hsub).
  - rewrite Forall_forall in *. intros r Hr. apply Hlt.
    exact (elem_of_sublist _ _ _ Hr Hsub).
  - apply keys_filter_NoDup. exact Hk.
  - intros k r Hin. apply TriggerFacts.elem_of_List_filter in Hin as [Hin _].
    exact (Hkd k r Hin).
Qed.

Lemma sound_register workspace workflowPath nodeId label config s :
  sound s -> sound (snd (register workspace workflowPath nodeId label config s)).
Proof.
  intros (Hlive & Hk & Hkd). split; [apply TriggerFacts.register_live; exact Hlive|].
  destruct (TriggerFacts.register_stores workspace workflowPath nodeId label config s)
    as (_ & Hderef & _).
  cbn zeta in *. split.
  - unfold keysUnique in *. rewrite TriggerFacts.register_run.
    cbn [snd this onThis triggers with_triggers with_heap]. rewrite keys_set.
    destruct (JsMap.has _ (triggers (this s))) eqn:Hhas; [exact Hk|].
    apply NoDup_app. split; [exact Hk|]. split; [|apply NoDup_singleton].
    intros x Hx Hin. apply list_elem_of_singleton in Hin as ->.
    apply has_keys in Hx. congruence.
  - intros k r Hin. rewrite TriggerFacts.register_run in Hin. cbn in Hin.
    apply set_entries in Hin as [[= -> ->]|Hin].
    + eexists. split; [exact Hderef | reflexivity].
    + destruct (Hkd k r Hin) as (t & Ht & Hid). exists t. split; [|exact Hid].
      rewrite TriggerFacts.register_run.
      unfold deref in *. cbn. rewrite lookup_app_l; [exact Ht|].
      apply lookup_lt_Some in Ht. exact Ht.
Qed.

Lemma sound_perform op s :
  match op with opCheckAndFire => False | _ => True end ->
  sound s -> sound (perform op s).
Proof.
  intros Hop Hs.
  destruct op as [ws wp nid lbl cfg | ws wp nid | ws wp | ws wp nid en | trigger
                 | isIdle | cb | | | | change]; cbn [perform].
  - apply sound_register. exact Hs.
  - rewrite unregister_run. cbn [snd].
    destruct Hs as (Hl & Hk & Hkd).
    pose proof (sound_filter
                  (fun e => negb (String.eqb (fst e)
                     (getTriggerKey ws wp nid))) s
                  (conj Hl (conj Hk Hkd))) as H.
    unfold onThis in *. cbn in *. rewrite (delete_filter _ _ Hk). exact H.
  - destruct Hs as (Hl & Hk & Hkd).
    rewrite (unregisterWorkflow_run s ws wp Hk). cbn [snd].
    apply sound_filter. exact (conj Hl (conj Hk Hkd)).
  - rewrite TriggerFacts.setEnabled_run.
    destruct (get ws wp nid s) as [r|]; [|exact Hs]. cbn [snd].
    destruct Hs as ([Hnd Hlt] & Hk & Hkd).
    unfold sound, live, keysUnique, keyed, getAll, deref in *. cbn.
    rewrite length_alter. split; [auto|]. split; [exact Hk|].
    intros k r' Hin. destruct (Hkd k r' Hin) as (t & Ht & Hid).
    destruct (decide (r = r')) as [->|Hne].
    + rewrite list_lookup_alter_eq, Ht. cbn. eexists. split; [reflexivity | exact Hid].
    + rewrite list_lookup_alter_ne by exact Hne. eauto.
  - exact (sound_steady _ _ (TriggerFacts.steady_markFired trigger s) Hs).
  - revert Hs. apply sound_same_store;
      destruct s as [[h ts cb f [since|]] w c]; destruct isIdle; reflexivity.
  - revert Hs. apply sound_same_store; reflexivity.
  - contradiction.
  - destruct (TriggerFacts.save_run s) as [w Hsave]. rewrite Hsave.
    revert Hs. apply sound_same_store; reflexivity.
  - split; [split; constructor|]. split; [constructor|].
    intros k r Hin. inversion Hin.
  - revert Hs. apply sound_same_store; reflexivity.
Qed.

(** The calls other than [onFire] and [checkAndFire] leave the callback. *)
Lemma callback_perform op s :
  match op with opCheckAndFire | opOnFire _ => False | _ => True end ->
  keysUnique s ->
  onTriggerFire (this (perform op s)) = onTriggerFire (this s).
Proof.
  intros Hop Hk.
  destruct op as [ws wp nid lbl cfg | ws wp nid | ws wp | ws wp nid en | trigger
                 | isIdle | cb | | | | change]; cbn [perform]; try contradiction.
  - rewrite TriggerFacts.register_run. reflexivity.
  - rewrite unregister_run. reflexivity.
  - rewrite (unregisterWorkflow_run s ws wp Hk). reflexivity.
  - rewrite TriggerFacts.setEnabled_run.
    destruct (get ws wp nid s) as [r|]; reflexivity.
  - apply TriggerFacts.markFired_callback.
  - destruct s as [[h ts cb f [since|]] w c]; destruct isIdle; reflexivity.
  - destruct (TriggerFacts.save_keeps s) as [-> _]. reflexivity.
  - reflexivity.
  - reflexivity.
Qed.

(** A call of a polite callback leaves a sound manager sound, and a polite
    callback registered. *)
Lemma afterCall_polite cb r s :
  polite cb -> sound s ->
  sound (snd (afterCall cb r s)) /\ courteous (snd (afterCall cb r s)).
Proof.
  intros Hcb Hs. destruct cb as [body]. pose proof Hcb as Hbody.
  cbn [polite] in Hbody. specialize (Hbody r (reach (this s)) (world s) Hs).
  unfold afterCall.
  change {| objects := heap (this s); registry := triggers (this s);
            idle := idleSince (this s) |} with (reach (this s)).
  destruct (body r (reach (this s)) (world s)) as [[[err kept] w] installed].
  destruct Hbody as [Hsound Hinstalled]. split; [exact Hsound|].
  intros cb' Hcb'. cbn in Hcb'. injection Hcb' as <-.
  destruct installed as [cb'|]; [exact Hinstalled | exact Hcb].
Qed.

Lemma fireOne_polite r s :
  sound s /\ courteous s -> sound (fireOne r s) /\ courteous (fireOne r s).
Proof.
  intros [Hs Hc].
  assert (Hmark : forall s1, sound s1 /\ courteous s1 ->
            sound (snd (markFired r s1)) /\ courteous (snd (markFired r s1))).
  { intros s1 [Hs1 Hc1]. split.
    - exact (sound_steady _ _ (TriggerFacts.steady_markFired r s1) Hs1).
    - intros cb Hcb. rewrite TriggerFacts.markFired_callback in Hcb. exact (Hc1 cb Hcb). }
  unfold fireOne. destruct (onTriggerFire (this s)) as [cb|] eqn:Hcb.
  - pose proof (afterCall_polite cb r s (Hc cb Hcb) Hs) as H1.
    destruct (afterCall cb r s) as [[e|] s1]; cbn [snd] in H1; [exact H1|].
    exact (Hmark s1 H1).
  - apply Hmark. split; assumption.
Qed.

Lemma polite_perform op s :
  politeOp op ->
  sound s /\ courteous s -> sound (perform op s) /\ courteous (perform op s).
Proof.
  intros Hop [Hs Hc].
  destruct (match op with opCheckAndFire => true | _ => false end) eqn:Hcheck.
  { destruct op; try discriminate. cbn [perform].
    destruct (checkAndFire_keeps (fun s' => sound s' /\ courteous s') s)
      as (cronFired & idleFired & s' & Hrun & _ & _ & H').
    - intros r s1. apply fireOne_polite.
    - intros s1 H1. exact H1.
    - intros s1 [Hs1 Hc1]. destruct (TriggerFacts.save_run s1) as [w ->]. split.
      + revert Hs1. apply sound_same_store; reflexivity.
      + exact Hc1.
    - split; assumption.
    - rewrite Hrun. exact H'. }
  split.
  - apply sound_perform; [destruct op; try exact I; discriminate | exact Hs].
  - destruct op as [ws wp nid lbl cfg | ws wp nid | ws wp | ws wp nid en | trigger
                   | isIdle | callback | | | | change];
      try discriminate;
      try (intros cb Hcb; rewrite callback_perform in Hcb;
           [exact (Hc cb Hcb) | exact I | exact (proj1 (proj2 Hs))]).
    intros cb Hcb. cbn in Hcb. injection Hcb as <-. exact Hop.
Qed.

(** X15: Whatever calls of [register], [unregister], [unregisterWorkflow],
    [setEnabled], [markFired], [setIdle], [onFire], [checkAndFire], [save]
    and [clear] are made on a new manager, in whatever order and whatever
    happens in the world between them, the registry holds no key twice, its
    references are distinct and lead to objects, and every object has the
    key it is stored under as its [id]; provided the callbacks given to
    [onFire], which may call the manager, assign to the trigger objects
    and install other callbacks, themselves leave a registry of which this
    is true in a state of which it is true. A callback that leaves the
    manager alone is such a callback. *)
Theorem manager_always_sound (ops : list Op) (file : option string) (w : World) :
  (Forall politeOp ops ->
   sound (performAll ops {| this := newManager file; world := w; calls := [] |}))
  /\ forall cb, quiet cb -> polite cb.
Proof.
  split.
  - intros Hops. assert (Hgen : forall s, sound s /\ courteous s ->
              sound (performAll ops s) /\ courteous (performAll ops s)).
    { induction Hops as [|op ops Hop _ IH]; intros s Hs; [exact Hs|].
      cbn. apply IH. apply polite_perform; assumption. }
    apply Hgen. split.
    + split; [apply TriggerFacts.live_new|]. split; [constructor|].
      intros k r Hin. inversion Hin.
    + intros cb Hcb. discriminate Hcb.
  - intros [body] Hquiet r m wld Hm. cbn [quiet] in Hquiet.
    destruct (Hquiet r m wld) as (err & w' & ->).
    rewrite drop_all, app_nil_r. split; [|exact I].
    destruct m. exact Hm.
Qed.

End Registry.

(** *** Loading the persisted state *)

Section Persistence.
Context {host : Host} {storage : Storage}.

Ltac eff :=
  unfold mbind, Eff_bind, mret, Eff_ret, tryCatch, throw, gets, modify, now in *.

Lemma forOf_restore entries : forall s,
  forOf entries (fun entry =>
    r ← alloc (revive (snd entry));
    modify (onThis (fun m =>
      with_triggers (JsMap.set (fst entry) r (triggers m)) m))) s
  = (inl tt, restored entries s).
Proof.
  induction entries as [|e entries IH]; intros s; [reflexivity|].
  cbn [forOf]. eff. unfold alloc at 1. cbn [fst snd]. rewrite IH. reflexivity.
Qed.

Lemma load_run s :
  load s
  = match triggersFile (this s) with
    | None => (inl tt, s)
    | Some path =>
        match fs_readState path (world s) with
        | (readOk entries, w) =>
            (inl tt, restored entries {| this := this s; world := w; calls := calls s |})
        | (readFailed _ _, w) =>
            (inl tt, {| this := this s; world := w; calls := calls s |})
        end
    end.
Proof.
  unfold load. eff. cbn. destruct (triggersFile (this s)) as [path|]; [|reflexivity].
  destruct (fs_readState path (world s)) as [[entries|code message] w]; cbn.
  - rewrite forOf_restore. reflexivity.
  - reflexivity.
Qed.

Lemma restored_snoc entries e s :
  restored (entries ++ [e]) s = restoreEntry e (restored entries s).
Proof. unfold restored. rewrite fold_left_app. reflexivity. Qed.

Lemma restoreEntry_live e s : live s -> live (restoreEntry e s).
Proof.
  intros [Hnd Hlt]. unfold live, getAll, restoreEntry in *. cbn.
  rewrite Forall_forall in Hlt.
  assert (Hfresh : length (heap (this s)) ∉ JsMap.values (triggers (this s))).
  { intros Hin. specialize (Hlt _ Hin). lia. }
  split.
  - apply TriggerFacts.values_set_NoDup; assumption.
  - apply Forall_forall. intros x Hx. rewrite length_app. cbn.
    apply TriggerFacts.values_set_elem in Hx as [->|Hx]; [lia|].
    specialize (Hlt _ Hx). lia.
Qed.

Lemma restoreEntry_keys e s : keysUnique s -> keysUnique (restoreEntry e s).
Proof.
  unfold keysUnique, restoreEntry. cbn [this onThis triggers with_triggers with_heap].
  intros Hk. rewrite keys_set.
  destruct (JsMap.has (fst e) (triggers (this s))) eqn:Hhas; [exact Hk|].
  apply NoDup_app. split; [exact Hk|]. split; [|apply NoDup_singleton].
  intros x Hx Hin. apply list_elem_of_singleton in Hin as ->.
  apply has_keys in Hx. congruence.
Qed.

Lemma restoreEntry_old e s r :
  (r < length (heap (this s)))%nat -> deref (restoreEntry e s) r = deref s r.
Proof. intros Hr. unfold deref, restoreEntry. cbn. apply lookup_app_l. exact Hr. Qed.

Lemma restoreEntry_grows e s :
  (length (heap (this s)) <= length (heap (this (restoreEntry e s))))%nat.
Proof. unfold restoreEntry. cbn. rewrite length_app. lia. Qed.

Lemma restoreEntry_lookup e s k :
  live s ->
  lookupTrigger k (restoreEntry e s)
  = if String.eqb k (fst e) then Some (revive (snd e)) else lookupTrigger k s.
Proof.
  intros [_ Hlt]. unfold lookupTrigger.
  destruct (String.eqb_spec k (fst e)) as [->|Hne].
  - unfold restoreEntry. cbn [this onThis triggers with_triggers with_heap].
    rewrite TriggerFacts.JsMap_get_set. cbn. unfold deref. cbn.
    rewrite lookup_app_r by lia. rewrite Nat.sub_diag. reflexivity.
  - replace (triggers (this (restoreEntry e s)))
      with (JsMap.set (fst e) (length (heap (this s))) (triggers (this s)))
      by reflexivity.
    rewrite get_set_ne by congruence.
    destruct (JsMap.get k (triggers (this s))) as [r|] eqn:Hk; [|reflexivity].
    cbn. apply restoreEntry_old. rewrite Forall_forall in Hlt. apply Hlt.
    apply get_entry in Hk. unfold getAll, JsMap.values.
    apply list_elem_of_fmap. exists (k, r). auto.
Qed.

Lemma restored_live entries : forall s, live s -> live (restored entries s).
Proof.
  induction entries as [|e entries IH]; intros s Hs; [exact Hs|].
  cbn. apply IH. apply restoreEntry_live. exact Hs.
Qed.

Lemma restored_keys entries : forall s, keysUnique s -> keysUnique (restored entries s).
Proof.
  induction entries as [|e entries IH]; intros s Hs; [exact Hs|].
  cbn. apply IH. apply restoreEntry_keys. exact Hs.
Qed.

Lemma restored_old entries : forall s r,
  (r < length (heap (this s)))%nat -> deref (restored entries s) r = deref s r.
Proof.
  induction entries as [|e entries IH]; intros s r Hr; [reflexivity|].
  change (restored (e :: entries) s) with (restored entries (restoreEntry e s)).
  rewrite IH.
  - apply restoreEntry_old. exact Hr.
  - pose proof (restoreEntry_grows e s). lia.
Qed.

Lemma restored_rest entries : forall s,
  idleSince (this (restored entries s)) = idleSince (this s)
  /\ onTriggerFire (this (restored entries s)) = onTriggerFire (this s)
  /\ triggersFile (this (restored entries s)) = triggersFile (this s)
  /\ calls (restored entries s) = calls s
  /\ world (restored entries s) = world s.
Proof.
  induction entries as [|e entries IH]; intros s; [auto|].
  change (restored (e :: entries) s) with (restored entries (restoreEntry e s)).
  destruct (IH (restoreEntry e s)) as (-> & -> & -> & -> & ->). auto.
Qed.

Lemma restored_absent entries s k :
  live s -> k ∉ entries.*1 ->
  lookupTrigger k (restored entries s) = lookupTrigger k s.
Proof.
  intros Hs. induction entries as [|e entries IH] using rev_ind; intros Hk; [reflexivity|].
  rewrite restored_snoc, restoreEntry_lookup by (apply restored_live; exact Hs).
  rewrite fmap_app in Hk. cbn in Hk.
  destruct (String.eqb_spec k (fst e)) as [->|Hne].
  - exfalso. apply Hk. apply elem_of_app. right. left.
  - apply IH. intros Hin. apply Hk. apply elem_of_app. left. exact Hin.
Qed.

Lemma restored_present entries s k st :
  live s -> NoDup entries.*1 -> (k, st) ∈ entries ->
  lookupTrigger k (restored entries s) = Some (revive st).
Proof.
  intros Hs. induction entries as [|e entries IH] using rev_ind; intros Hnd Hin;
    [inversion Hin|].
  rewrite restored_snoc, restoreEntry_lookup by (apply restored_live; exact Hs).
  rewrite fmap_app in Hnd. apply NoDup_app in Hnd as (Hnd & Hsep & _).
  apply elem_of_app in Hin as [Hin|Hin].
  - assert (Hk : k ∈ entries.*1) by (apply list_elem_of_fmap; exists (k, st); auto).
    destruct (String.eqb_spec k (fst e)) as [->|Hne].
    + exfalso. apply (Hsep _ Hk). left.
    + exact (IH Hnd Hin).
  - apply list_elem_of_singleton in Hin as <-. cbn. rewrite String.eqb_refl. reflexivity.
Qed.

(** X16: [load] never throws. Without a file it does nothing, and when the
    file cannot be read or parsed, whatever the error, the manager is as
    it was: the registry, the objects, the callback and the idle state. *)
Theorem load_failure_harmless (s : Sys) :
  fst (load s) = inl tt
  /\ (triggersFile (this s) = None -> load s = (inl tt, s))
  /\ (forall path code message w,
        triggersFile (this s) = Some path ->
        fs_readState path (world s) = (readFailed code message, w) ->
        this (snd (load s)) = this s /\ calls (snd (load s)) = calls s).
Proof.
  rewrite load_run. split; [|split].
  - destruct (triggersFile (this s)) as [path|]; [|reflexivity].
    destruct (fs_readState path (world s)) as [[entries|code message] w]; reflexivity.
  - intros ->. reflexivity.
  - intros path code message w -> ->. split; reflexivity.
Qed.

(** X17: After [load] has read a file into a registry with live references,
    every key of the file leads to the record of the file, its dates
    revived and its [enabled] as stored, replacing what was registered
    under that key; the keys the file does not have lead to what they led
    to, no existing object is changed, and the registry still has live
    references and, if it had them, unique keys. *)
Theorem load_restores (s : Sys) (path : string)
    (entries : list (string * Stored.StoredTrigger)) (w : World) :
  live s ->
  triggersFile (this s) = Some path ->
  fs_readState path (world s) = (readOk entries, w) ->
  NoDup entries.*1 ->
  let s' := snd (load s) in
  (forall k st, (k, st) ∈ entries -> lookupTrigger k s' = Some (revive st))
  /\ (forall k, k ∉ entries.*1 -> lookupTrigger k s' = lookupTrigger k s)
  /\ (forall r, (r < length (heap (this s)))%nat -> deref s' r = deref s r)
  /\ live s' /\ (keysUnique s -> keysUnique s')
  /\ idleSince (this s') = idleSince (this s)
  /\ onTriggerFire (this s') = onTriggerFire (this s).
Proof.
  intros Hs Hfile Hread Hnd. cbn zeta. rewrite load_run, Hfile, Hread. cbn [snd].
  set (s0 := {| this := this s; world := w; calls := calls s |}).
  assert (Hs0 : live s0) by exact Hs.
  destruct (restored_rest entries s0) as (Hi & Hc & _).
  split; [|split; [|split; [|split; [|split; [|split]]]]].
  - intros k st Hin. exact (restored_present entries s0 k st Hs0 Hnd Hin).
  - intros k Hk. exact (restored_absent entries s0 k Hs0 Hk).
  - intros r Hr. exact (restored_old entries s0 r Hr).
  - exact (restored_live entries s0 Hs0).
  - intros Hk. exact (restored_keys entries s0 Hk).
  - exact Hi.
  - exact Hc.
Qed.

(** X18: Loading and then registering a trigger the file knows: the new
    registration takes its [lastRun] from the file, and is enabled
    whatever the file says. *)
Theorem load_then_register (s : Sys) (path : string)
    (entries : list (string * Stored.StoredTrigger)) (w : World)
    (workspace workflowPath nodeId label : string) (config : TriggerConfig)
    (st : Stored.StoredTrigger) :
  live s ->
  triggersFile (this s) = Some path ->
  fs_readState path (world s) = (readOk entries, w) ->
  NoDup entries.*1 ->
  (getTriggerKey workspace workflowPath nodeId, st) ∈ entries ->
  exists t,
    lookupTrigger (getTriggerKey workspace workflowPath nodeId)
      (snd (register workspace workflowPath nodeId label config (snd (load s))))
    = Some t
    /\ lastRun t = reviveDate (Stored.lastRun st)
    /\ enabled t = true.
Proof.
  intros Hs Hfile Hread Hnd Hin.
  destruct (TriggerFacts.register_stores workspace workflowPath nodeId label config
              (snd (load s))) as (_ & _ & Hl).
  cbn zeta in Hl. rewrite Hl. eexists. split; [reflexivity|].
  split; [|reflexivity]. cbn [lastRun registered].
  rewrite load_run, Hfile, Hread. cbn [snd].
  set (s0 := {| this := this s; world := w; calls := calls s |}).
  assert (Hs0 : live s0) by exact Hs.
  rewrite (restored_present entries s0 _ st Hs0 Hnd Hin). reflexivity.
Qed.

End Persistence.

(** *** The timer of the check loop *)

Lemma clearInterval_own (others : list nat) (h : nat) :
  h ∉ others ->
  List.filter (fun h' => negb (h' =? h)%nat) (others ++ [h])%list = others.
Proof.
  intros Hh. rewrite List.filter_app. cbn. rewrite Nat.eqb_refl. cbn. rewrite app_nil_r.
  induction others as [|x others IH]; [reflexivity|]. cbn.
  destruct (Nat.eqb_spec x h) as [->|Hne].
  - exfalso. apply Hh. left.
  - cbn. f_equal. apply IH. intros Hin. apply Hh. right. exact Hin.
Qed.

(** X19: However [start] and [stop] are called, the manager never has more
    than one timer running and never touches a timer of somebody else:
    the active timers are those that were there, followed by the one in
    [checkInterval] if there is one. So a second [start] cancels the timer
    of the first, and after [stop] none of the manager's timers is left. *)
Theorem loop_owns_one_timer (ops : list LoopOp) (others : list nat) (next : nat) :
  Forall (fun h => (h < next)%nat) others ->
  let l := fold_left (fun l op => performLoop op l) ops
             {| checkInterval := None;
                timers := {| active := others; nextHandle := next |} |} in
  active (timers l) = (others ++ ownTimer l)%list
  /\ checkInterval (stop l) = None
  /\ active (timers (stop l)) = others
  /\ exists h, checkInterval (start l) = Some h
       /\ active (timers (start l)) = (others ++ [h])%list.
Proof.
  intros Hothers. cbn zeta.
  set (inv := fun l : Loop =>
         (next <= nextHandle (timers l))%nat
         /\ active (timers l) = (others ++ ownTimer l)%list
         /\ forall h, checkInterval l = Some h ->
              (next <= h)%nat /\ (h < nextHandle (timers l))%nat).
  assert (Hfresh : forall h, (next <= h)%nat -> h ∉ others).
  { intros h Hh Hin. rewrite Forall_forall in Hothers. specialize (Hothers _ Hin). lia. }
  assert (Hstop : forall l, inv l ->
            inv (stop l) /\ checkInterval (stop l) = None
            /\ active (timers (stop l)) = others).
  { intros [c [a n]] (Hn & Ha & Hc). unfold stop, ownTimer in *. cbn in *.
    destruct c as [h|]; cbn.
    - destruct (Hc h eq_refl) as [Hlo Hhi]. subst a.
      unfold clearInterval. cbn [active nextHandle timers checkInterval].
      rewrite !(clearInterval_own others h (Hfresh h Hlo)).
      split; [|split; reflexivity]. split; [exact Hn|].
      split; [rewrite app_nil_r; reflexivity | discriminate].
    - rewrite app_nil_r in Ha. split; [|split; [reflexivity | exact Ha]].
      split; [exact Hn|]. split; [rewrite app_nil_r; exact Ha | discriminate]. }
  assert (Hstart : forall l, inv l ->
            inv (start l)
            /\ exists h, checkInterval (start l) = Some h
                 /\ active (timers (start l)) = (others ++ [h])%list).
  { intros l Hl. destruct (Hstop l Hl) as ((Hn & _ & _) & Hnone & Hact).
    unfold start.
    assert (E : (match checkInterval l with Some _ => stop l | None => l end) = stop l).
    { unfold stop. destruct (checkInterval l); reflexivity. }
    rewrite E. unfold setInterval. cbn. rewrite Hact.
    split; [|eexists; split; reflexivity].
    split; [cbn in *; lia|]. split; [reflexivity|]. intros h [= <-]. cbn in *. lia. }
  assert (Hinv : forall l, inv l -> inv (fold_left (fun l op => performLoop op l) ops l)).
  { induction ops as [|op ops IH]; intros l Hl; [exact Hl|].
    cbn. apply IH. destruct op; cbn; [apply Hstart | apply Hstop]; exact Hl. }
  match goal with |- context [fold_left ?f ops ?l0] =>
    assert (H0 : inv l0); [|pose proof (Hinv l0 H0) as Hl; set (l := fold_left f ops l0) in *]
  end.
  { split; [cbn; lia|]. split; [cbn; rewrite app_nil_r; reflexivity | discriminate]. }
  destruct (Hstop l Hl) as (_ & Hnone & Hact).
  destruct (Hstart l Hl) as (_ & Hs).
  destruct Hl as (_ & Ha & _). auto.
Qed.

(** *** The random choice *)

Section Choice.
Context {host : Host}.

(** X20: [selectRandom] never throws and never returns a trigger that is not
    in the array. Of the empty array it returns null without drawing a
    number. With [Math.random] in its range the index is within bounds:
    of an array that is not empty it returns an element, of an array with
    one element that element. *)
Theorem selectRandom_in_bounds (candidates : list ref) (s : Sys) :
  selectRandom [] s = (inl None, s)
  /\ exists (choice : option ref) (w : World),
       selectRandom candidates s
       = (inl choice, {| this := this s; world := w; calls := calls s |})
       /\ (forall r, choice = Some r -> r ∈ candidates)
       /\ (random_contract -> candidates <> [] -> is_Some choice)
       /\ (random_contract -> forall r, candidates = [r] -> choice = Some r).
Proof.
  split; [reflexivity|].
  destruct (TriggerFacts.selectRandom_spec candidates s) as (choice & w & Hrun & Hmem & Hsome).
  exists choice, w. split; [exact Hrun|]. split; [exact Hmem|]. split; [exact Hsome|].
  intros Hrand r ->. destruct (Hsome Hrand ltac:(discriminate)) as [r' ->].
  specialize (Hmem r' eq_refl). apply list_elem_of_singleton in Hmem as ->. reflexivity.
Qed.

End Choice.

(** *** The properties at states of the test suite *)

Import Scenario RegistryScenario.

Lemma keysUnique_threeCron : keysUnique (host := mockHost) threeCron.
Proof. apply (bool_decide_unpack _). vm_compute. reflexivity. Qed.

Lemma keysUnique_mixed : keysUnique (host := mockHost) mixed.
Proof. apply (bool_decide_unpack _). vm_compute. reflexivity. Qed.

Lemma getTriggerKey_injective_witness :
  "ws1" = "ws1" /\ "wf1.yaml" = "wf1.yaml" /\ "t1" = "t1".
Proof.
  apply (getTriggerKey_injective "ws1" "wf1.yaml" "t1" "ws1" "wf1.yaml" "t1");
    reflexivity.
Defined.

Lemma register_frame_witness :
  deref (host := mockHost)
    (snd (register "ws2" "wf9.yaml" "t9" "New" (idleCfg 1) mixed)) 0%nat
  = deref mixed 0%nat
  /\ lookupTrigger "ws1:wf1.yaml:t1"
       (snd (register "ws2" "wf9.yaml" "t9" "New" (idleCfg 1) mixed))
     = lookupTrigger "ws1:wf1.yaml:t1" mixed.
Proof.
  destruct (register_frame (host := mockHost) mixed "ws2" "wf9.yaml" "t9" "New" (idleCfg 1)
              TriggerFacts.live_mixed) as (Hkeys & Hold & _).
  split.
  - apply Hold. vm_compute. lia.
  - apply Hkeys. discriminate.
Defined.

Lemma unregister_exact_witness :
  fst (unregister (host := mockHost) "ws1" "wf1.yaml" "t1" threeCron) = inl true
  /\ get "ws1" "wf1.yaml" "t1" (snd (unregister "ws1" "wf1.yaml" "t1" threeCron)) = None.
Proof.
  destruct (unregister_exact (host := mockHost) threeCron "ws1" "wf1.yaml" "t1"
              keysUnique_threeCron) as (H1 & H2 & _).
  split; [exact H1 | exact H2].
Defined.

Lemma unregisterWorkflow_exact_witness :
  exists count s',
    unregisterWorkflow (host := mockHost) "ws1" "wf1.yaml" mixed = (inl count, s')
    /\ (count + length (triggers (this s')))%nat = length (triggers (this mixed)).
Proof.
  destruct (unregisterWorkflow_exact (host := mockHost) mixed "ws1" "wf1.yaml"
              keysUnique_mixed) as (count & s' & H1 & _ & H2 & _).
  exists count, s'. split; [exact H1 | exact H2].
Defined.

Lemma unregisterWorkflow_catches_longer_paths_witness :
  get (host := mockHost) "ws1" ("wf1.yaml" ++ ":" ++ "v2") "t1"
    (snd (unregisterWorkflow "ws1" "wf1.yaml" threeCron)) = None.
Proof.
  apply (unregisterWorkflow_catches_longer_paths (host := mockHost) threeCron
           "ws1" "wf1.yaml" "v2" "t1" keysUnique_threeCron).
Defined.

(** A string of a no-break space is no cron expression, whatever the
    parser says. *)
Example isValidCron_no_break_space :
  isValidCron (host := mockHost) (String (ascii_of_nat 160) EmptyString) = false
  /\ Js.trim (String (ascii_of_nat 160) (String "a" (String (ascii_of_nat 160) EmptyString)))
     = "a".
Proof. split; vm_compute; reflexivity. Qed.

Lemma markFired_effect_witness :
  fst (markFired (host := mockHost) 0%nat threeCronAtTen) = inl tt
  /\ exists t',
       deref (host := mockHost) (snd (markFired 0%nat threeCronAtTen)) 0%nat = Some t'
       /\ lastRun t' = Some (jan1 + 10 * hour_ms)
       /\ nextRun t' = Some (jan1 + day_ms + 9 * hour_ms).
Proof.
  assert (Ht : is_Some (deref (host := mockHost) threeCronAtTen 0%nat))
    by (vm_compute; eauto).
  destruct Ht as [t Ht].
  destruct (markFired_effect (host := mockHost) threeCronAtTen 0%nat t Ht)
    as (H & _ & t' & Ht' & Hlast & _ & _ & _ & Hnext & _).
  split; [exact H|]. exists t'. split; [exact Ht'|].
  split; [rewrite Hlast; vm_compute; reflexivity|].
  vm_compute in Ht. injection Ht as <-.
  destruct (Hnext "0 0 9 * * *" 9%nat eq_refl eq_refl eq_refl eq_refl) as [-> _].
  vm_compute. reflexivity.
Defined.

Lemma checkAndFire_frame_witness :
  exists fired s',
    checkAndFire (host := mockHost) mixed = (inl fired, s')
    /\ steady mixed s'.
Proof.
  destruct (checkAndFire_frame (host := mockHost) mixed)
    as (cronFired & idleFired & s' & Hrun & _ & _ & Hsteady).
  exists (cronFired ++ idleFired)%list, s'. split; [exact Hrun|].
  apply Hsteady. intros cb Hcb.
  assert (E : onTriggerFire (this mixed) = Some (failFor "t1")) by reflexivity.
  rewrite E in Hcb. injection Hcb as <-.
  exact (TriggerFacts.failFor_quiet "t1").
Defined.

Lemma manager_always_sound_witness :
  sound (host := mockHost)
    (performAll
       [opRegister "ws1" "wf1.yaml" "t1" "Nine" (cronCfg "0 0 9 * * *");
        opOnFire (failFor "t1");
        opWorld (host := mockHost) (advance (2 * hour_ms));
        opCheckAndFire;
        opUnregisterWorkflow "ws1" "wf1.yaml"]
       (start (jan1 + 8 * hour_ms))).
Proof.
  destruct (manager_always_sound (host := mockHost)
              [opRegister "ws1" "wf1.yaml" "t1" "Nine" (cronCfg "0 0 9 * * *");
               opOnFire (failFor "t1");
               opWorld (host := mockHost) (advance (2 * hour_ms));
               opCheckAndFire;
               opUnregisterWorkflow "ws1" "wf1.yaml"]
              None {| time := jan1 + 8 * hour_ms; firedIds := [] |})
    as [Hsound Hquiet].
  apply Hsound. repeat constructor.
  apply Hquiet. exact (TriggerFacts.failFor_quiet "t1").
Defined.

(** The condition on the callbacks is needed: after a cycle with a callback
    that stores the entries of the registry twice, every key is there
    twice. *)
Example tangled_registry :
  ~ keysUnique (host := mockHost) (snd (checkAndFire (exec (onFire tangle) mixed))).
Proof.
  unfold keysUnique. intros H. apply (bool_decide_pack _) in H.
  vm_compute in H. exact H.
Qed.

Lemma checkAndFire_nothing_due_witness :
  checkAndFire (host := mockHost) threeCron = (inl [], threeCron).
Proof.
  apply (checkAndFire_nothing_due (host := mockHost) threeCron); reflexivity.
Defined.

Lemma checkAndFire_without_callback_witness :
  exists idleFired s',
    checkAndFire (host := mockHost) threeCronAtTen
    = (inl (getDueTriggers threeCronAtTen ++ idleFired)%list, s')
    /\ calls s' = calls threeCronAtTen.
Proof.
  destruct (checkAndFire_without_callback (host := mockHost) threeCronAtTen eq_refl)
    as (idleFired & s' & H1 & H2 & _).
  exists idleFired, s'. split; [exact H1 | exact H2].
Defined.

(** Without a callback the two triggers due at 10:00 are marked and
    returned. *)
Example checkAndFire_marks_without_callback :
  fst (checkAndFire (host := mockHost) threeCronAtTen) = inl [0%nat; 1%nat].
Proof. vm_compute. reflexivity. Qed.

Lemma load_restores_witness :
  lookupTrigger (host := mockHost) "ws1:wf1.yaml:t1"
    (snd (load (storage := mockStorage) fromDisk))
  = Some (revive (storage := mockStorage) storedNine).
Proof.
  destruct (load_restores (storage := mockStorage) fromDisk "triggers.json"
              [("ws1:wf1.yaml:t1", storedNine)] (world fromDisk)
              (TriggerFacts.live_new _ _) eq_refl eq_refl
              ltac:(apply (bool_decide_unpack _); vm_compute; reflexivity))
    as (H & _).
  apply H. left.
Defined.

Lemma load_then_register_witness :
  exists t,
    lookupTrigger (host := mockHost) (getTriggerKey "ws1" "wf1.yaml" "t1")
      (snd (register "ws1" "wf1.yaml" "t1" "Nine" (cronCfg "0 0 9 * * *")
              (snd (load (storage := mockStorage) fromDisk))))
    = Some t
    /\ lastRun t = reviveDate (storage := mockStorage) (Stored.lastRun storedNine)
    /\ enabled t = true.
Proof.
  apply (load_then_register (storage := mockStorage) fromDisk "triggers.json"
           [("ws1:wf1.yaml:t1", storedNine)] (world fromDisk)
           "ws1" "wf1.yaml" "t1" "Nine" (cronCfg "0 0 9 * * *") storedNine
           (TriggerFacts.live_new _ _) eq_refl eq_refl
           ltac:(apply (bool_decide_unpack _); vm_compute; reflexivity)).
  left.
Defined.

(** The trigger loaded switched off is on again after the scan registers
    it, with the last run of the file. *)
Example load_then_register_example :
  (t ← lookupTrigger (host := mockHost) "ws1:wf1.yaml:t1"
         (snd (register "ws1" "wf1.yaml" "t1" "Nine" (cronCfg "0 0 9 * * *")
                 (snd (load (storage := mockStorage) fromDisk))));
   Some (enabled t, lastRun t))
  = Some (true, Some jan1).
Proof. vm_compute. reflexivity. Qed.

Lemma loop_owns_one_timer_witness :
  active (timers (fold_left (fun l op => performLoop op l)
                    [opStart; opStart; opStop; opStart]
                    {| checkInterval := None;
                       timers := {| active := [0; 1]%nat; nextHandle := 2 |} |}))
  = [0; 1; 4]%nat.
Proof.
  destruct (loop_owns_one_timer [opStart; opStart; opStop; opStart] [0; 1]%nat 2%nat
              ltac:(repeat constructor)) as (H & _).
  exact H.
Defined.

End RegistryFacts.

(** * More properties of the executor *)

Module WorkflowFacts.
Import Executor ExecSpec TraversalSpec.

Local Arguments String.append !_ _ : simpl nomatch.

(** *** The maps built from the request *)

Lemma buildNodeMap_None nodes k :
  buildNodeMap nodes !! k = None <-> forall n, n ∈ nodes -> id n <> k.
Proof.
  unfold buildNodeMap.
  assert (Hgen : forall m : gmap string WorkflowNode,
            fold_left (fun m n => <[id n := n]> m) nodes m !! k = None
            <-> m !! k = None /\ forall n, n ∈ nodes -> id n <> k).
  { induction nodes as [|x nodes IH]; intros m; cbn.
    - split; [intros H; split; [exact H|]; intros n Hn; inversion Hn | tauto].
    - rewrite IH. split.
      + intros [Hm Hrest]. destruct (decide (id x = k)) as [E|Hne].
        * rewrite E, lookup_insert_eq in Hm. discriminate.
        * rewrite lookup_insert_ne in Hm by exact Hne. split; [exact Hm|].
          intros n Hn. apply elem_of_cons in Hn as [->|Hn]; [exact Hne | exact (Hrest n Hn)].
      + intros [Hm Hall]. split.
        * rewrite lookup_insert_ne; [exact Hm|]. apply Hall. left.
        * intros n Hn. apply Hall. right. exact Hn. }
  rewrite Hgen, lookup_empty. split; [tauto | auto].
Qed.

Lemma buildNodeMap_Some nodes n :
  n ∈ nodes -> is_Some (buildNodeMap nodes !! id n).
Proof.
  intros Hn. destruct (buildNodeMap nodes !! id n) eqn:E; [eauto|].
  exfalso. exact (proj1 (buildNodeMap_None nodes (id n)) E n Hn eq_refl).
Qed.

Lemma buildAdjacencyMap_None edges k :
  buildAdjacencyMap edges !! k = None <-> forall e, e ∈ edges -> source e <> k.
Proof.
  unfold buildAdjacencyMap.
  match goal with |- fold_left ?f edges ∅ !! k = None <-> _ =>
    assert (Hgen : forall m : gmap string (list string),
              fold_left f edges m !! k = None
              <-> m !! k = None /\ forall e, e ∈ edges -> source e <> k)
  end.
  { induction edges as [|x edges IH]; intros m; cbn.
    - split; [intros H; split; [exact H|]; intros e He; inversion He | tauto].
    - rewrite IH. split.
      + intros [Hm Hrest]. destruct (decide (source x = k)) as [E|Hne].
        * rewrite E, lookup_insert_eq in Hm. discriminate.
        * rewrite lookup_insert_ne in Hm by exact Hne.
          assert (Hk : m !! k = None).
          { destruct (m !! source x); [exact Hm|].
            rewrite lookup_insert_ne in Hm by exact Hne. exact Hm. }
          split; [exact Hk|].
          intros e He. apply elem_of_cons in He as [->|He]; [exact Hne | exact (Hrest e He)].
      + intros [Hm Hall]. split.
        * assert (Hne : source x <> k) by (apply Hall; left).
          rewrite lookup_insert_ne by exact Hne.
          destruct (m !! source x); [exact Hm|].
          rewrite lookup_insert_ne by exact Hne. exact Hm.
        * intros e He. apply Hall. right. exact He. }
  rewrite Hgen, lookup_empty. split; [tauto | auto].
Qed.

(** X21: [buildAdjacencyMap] has an entry exactly for the ids that are the
    source of an edge; the entry lists the targets of the edges out of that
    id, one for each edge, repeated edges included, in the order of the
    edges, and is never empty. *)
Theorem buildAdjacencyMap_exact (edges : list WorkflowEdge) (k : string) :
  (buildAdjacencyMap edges !! k = None <-> forall e, e ∈ edges -> source e <> k)
  /\ (forall targets, buildAdjacencyMap edges !! k = Some targets ->
        targets = map target (List.filter (fun e => String.eqb (source e) k) edges)
        /\ targets <> [])
  /\ (forall t, t ∈ default [] (buildAdjacencyMap edges !! k)
        <-> exists e, e ∈ edges /\ source e = k /\ target e = t).
Proof.
  pose proof (ExecutorFacts.buildAdjacencyMap_lookup edges k) as Hlook.
  split; [apply buildAdjacencyMap_None|]. split.
  - intros targets Hsome. rewrite Hsome in Hlook. cbn in Hlook. split; [exact Hlook|].
    intros ->.
    assert (Hnone : forall e, e ∈ edges -> source e <> k).
    { intros e He E. symmetry in Hlook. apply map_eq_nil in Hlook.
      assert (Hin : e ∈ List.filter (fun e => String.eqb (source e) k) edges).
      { apply TriggerFacts.elem_of_List_filter. split; [exact He|].
        apply String.eqb_eq. exact E. }
      rewrite Hlook in Hin. inversion Hin. }
    apply buildAdjacencyMap_None in Hnone. congruence.
  - intros t. rewrite Hlook, list_elem_of_fmap. split.
    + intros (e & -> & He). apply TriggerFacts.elem_of_List_filter in He as [He Hs].
      apply String.eqb_eq in Hs. eauto.
    + intros (e & He & Hs & <-). exists e. split; [reflexivity|].
      apply TriggerFacts.elem_of_List_filter. split; [exact He|].
      apply String.eqb_eq. exact Hs.
Qed.

(** *** Start nodes *)

(** X22: [findTriggerNodes] returns ids of nodes of the request. When a node
    is a trigger by its [nodeType] or its [type], it returns the ids of
    exactly those nodes, in their order, whether edges lead into them or
    not, and of no other node. Otherwise it returns the ids of the nodes
    into which no edge leads. So it returns nothing exactly when no node is
    a trigger and an edge leads into every node. *)
Theorem findTriggerNodes_exact (nodes : list WorkflowNode) (edges : list WorkflowEdge) :
  (forall x, x ∈ findTriggerNodes nodes edges -> exists n, n ∈ nodes /\ id n = x)
  /\ (forall n, n ∈ nodes -> explicitTrigger n = true ->
        findTriggerNodes nodes edges = map id (List.filter explicitTrigger nodes))
  /\ ((forall n, n ∈ nodes -> explicitTrigger n = false) ->
        findTriggerNodes nodes edges
        = map id (List.filter
                    (fun n => negb (bool_decide (id n ∈ map target edges))) nodes))
  /\ (findTriggerNodes nodes edges = []
      <-> forall n, n ∈ nodes ->
            explicitTrigger n = false /\ exists e, e ∈ edges /\ target e = id n).
Proof.
  assert (Hset : forall n : WorkflowNode,
            bool_decide (id n ∈ (list_to_set (map target edges) : gset string))
            = bool_decide (id n ∈ map target edges)).
  { intros n. apply bool_decide_ext. apply elem_of_list_to_set. }
  assert (Hfall : List.filter
                    (fun n => negb (bool_decide
                       (id n ∈ (list_to_set (map target edges) : gset string)))) nodes
                  = List.filter
                      (fun n => negb (bool_decide (id n ∈ map target edges))) nodes).
  { apply List.filter_ext. intros n. rewrite Hset. reflexivity. }
  assert (Hsome : forall n, n ∈ nodes -> explicitTrigger n = true ->
            findTriggerNodes nodes edges = map id (List.filter explicitTrigger nodes)).
  { intros n Hn Ht. unfold findTriggerNodes. cbn zeta.
    fold explicitTrigger.
    change (List.filter (fun n0 => explicitTrigger n0) nodes)
      with (List.filter explicitTrigger nodes).
    assert (Hin : n ∈ List.filter explicitTrigger nodes)
      by (apply TriggerFacts.elem_of_List_filter; auto).
    destruct (List.filter explicitTrigger nodes) as [|t ts] eqn:E; [inversion Hin|].
    reflexivity. }
  assert (Hnone : (forall n, n ∈ nodes -> explicitTrigger n = false) ->
            findTriggerNodes nodes edges
            = map id (List.filter
                        (fun n => negb (bool_decide (id n ∈ map target edges))) nodes)).
  { intros Hall. unfold findTriggerNodes. cbn zeta. fold explicitTrigger.
    change (List.filter (fun n0 => explicitTrigger n0) nodes)
      with (List.filter explicitTrigger nodes).
    assert (E : List.filter explicitTrigger nodes = []).
    { destruct (List.filter explicitTrigger nodes) as [|t ts] eqn:E; [reflexivity|].
      assert (Hin : t ∈ List.filter explicitTrigger nodes) by (rewrite E; left).
      apply TriggerFacts.elem_of_List_filter in Hin as [Hin Ht].
      rewrite (Hall t Hin) in Ht. discriminate. }
    rewrite E. cbn. rewrite Hfall. reflexivity. }
  assert (Hcases : (exists n, n ∈ nodes /\ explicitTrigger n = true)
                   \/ forall n, n ∈ nodes -> explicitTrigger n = false).
  { clear. induction nodes as [|x nodes IH]; [right; intros n Hn; inversion Hn|].
    destruct (explicitTrigger x) eqn:Hx; [left; exists x; split; [left | exact Hx]|].
    destruct IH as [(n & Hn & Ht)|Hall].
    - left. exists n. split; [right; exact Hn | exact Ht].
    - right. intros n Hn. apply elem_of_cons in Hn as [->|Hn]; [exact Hx | exact (Hall n Hn)]. }
  split; [|split; [exact Hsome|split; [exact Hnone|]]].
  - intros x Hx. destruct Hcases as [(n & Hn & Ht)|Hall].
    + rewrite (Hsome n Hn Ht) in Hx. apply list_elem_of_fmap in Hx as (m & -> & Hm).
      apply TriggerFacts.elem_of_List_filter in Hm as [Hm _]. eauto.
    + rewrite (Hnone Hall) in Hx. apply list_elem_of_fmap in Hx as (m & -> & Hm).
      apply TriggerFacts.elem_of_List_filter in Hm as [Hm _]. eauto.
  - split.
    + intros Hempty n Hn.
      destruct Hcases as [(t & Ht & Htrig)|Hall].
      * exfalso. rewrite (Hsome t Ht Htrig) in Hempty. apply map_eq_nil in Hempty.
        assert (Hin : t ∈ List.filter explicitTrigger nodes)
          by (apply TriggerFacts.elem_of_List_filter; auto).
        rewrite Hempty in Hin. inversion Hin.
      * split; [exact (Hall n Hn)|]. rewrite (Hnone Hall) in Hempty.
        apply map_eq_nil in Hempty.
        destruct (decide (id n ∈ map target edges)) as [Hin|Hout].
        -- apply list_elem_of_fmap in Hin as (e & He & Hin). eauto.
        -- exfalso.
           assert (Hin : n ∈ List.filter
                     (fun n => negb (bool_decide (id n ∈ map target edges))) nodes).
           { apply TriggerFacts.elem_of_List_filter. split; [exact Hn|].
             rewrite bool_decide_eq_false_2 by exact Hout. reflexivity. }
           rewrite Hempty in Hin. inversion Hin.
    + intros Hall. rewrite Hnone by (intros n Hn; exact (proj1 (Hall n Hn))).
      clear Hset Hfall Hsome Hnone Hcases.
      destruct (List.filter (fun n => negb (bool_decide (id n ∈ map target edges))) nodes)
        as [|t ts] eqn:E; [reflexivity|].
      assert (Hin : t ∈ List.filter
                (fun n => negb (bool_decide (id n ∈ map target edges))) nodes)
        by (rewrite E; left).
      apply TriggerFacts.elem_of_List_filter in Hin as [Hin Ht].
      destruct (Hall t Hin) as (_ & e & He & Htarget).
      rewrite bool_decide_eq_true_2 in Ht; [discriminate|].
      apply list_elem_of_fmap. exists e. auto.
Qed.

Section Workflow.
Context {host : Host}.

(** *** One node *)

Lemma runCommands_outcome node cwd startTime commands : forall outputs w,
  let res := fst (runCommands node cwd startTime commands outputs 0 w) in
  is_Some (output res)
  /\ ((status res = completed /\ exitCode res = Some 0 /\ error res = None)
      \/ (status res = failed /\ is_Some (error res)
          /\ exists c, exitCode res = Some c /\ c <> 0)).
Proof.
  induction commands as [|command rest IH]; intros outputs w; cbn.
  - split; [eauto | left; auto].
  - destruct (negb (Js.truthy (Js.trim command))); [apply IH|].
    destruct (executeShellCommand command cwd w) as [[out c] w'].
    destruct (Z.eqb_spec c 0) as [->|Hne]; cbn.
    + apply IH.
    + split; [eauto|]. right. split; [reflexivity|]. split; [eauto|]. eauto.
Qed.

(** X23: A node never ends as pending or running, and always has an output.
    It fails exactly when it has a nonzero exit code, which only a shell
    node can have, and then it carries an error message; a node that
    completes carries none and has no exit code or the exit code 0. A node
    that is not a shell node completes without anything being run. *)
Theorem executeNode_status (node : WorkflowNode) (rootDirectory : string) (w : World) :
  let res := fst (executeNode node rootDirectory w) in
  let kind := Js.orElse (nodeType (data node)) (type node) in
  (status res = completed \/ status res = failed)
  /\ is_Some (output res)
  /\ (status res = failed <-> exists c, exitCode res = Some c /\ c <> 0)
  /\ (status res = failed -> kind = "shell" /\ is_Some (error res))
  /\ (status res = completed ->
        error res = None /\ (exitCode res = None \/ exitCode res = Some 0))
  /\ (kind <> "shell" ->
        status res = completed /\ exitCode res = None
        /\ snd (executeNode node rootDirectory w) = w).
Proof.
  cbn zeta. unfold executeNode. cbn zeta.
  destruct (String.eqb_spec (Js.orElse (nodeType (data node)) (type node)) "shell")
    as [Hshell|Hother].
  - destruct (length (default [] (commands (data node))) =? 0)%nat.
    + cbn. split; [auto|]. split; [eauto|]. split.
      * split; [discriminate | intros (c & [=] & _)].
      * split; [discriminate|]. split; [auto | contradiction].
    + match goal with |- context [runCommands ?n ?c ?s ?cs [] 0 w] =>
        destruct (runCommands_outcome n c s cs [] w) as (Hout & Hcase)
      end.
      cbn zeta in Hout, Hcase.
      split; [|split; [exact Hout|split; [|split; [|split; [|contradiction]]]]].
      * destruct Hcase as [(-> & _)|(-> & _)]; auto.
      * destruct Hcase as [(Hs & He & _)|(Hs & _ & Hc)].
        -- rewrite Hs, He. split; [discriminate|]. intros (c & [= <-] & Hne). contradiction.
        -- rewrite Hs. split; [intros _; exact Hc | reflexivity].
      * intros Hf. split; [exact Hshell|].
        destruct Hcase as [(Hs & _)|(_ & He & _)]; [congruence | exact He].
      * intros Hc. destruct Hcase as [(_ & He & Herr)|(Hs & _)]; [auto | congruence].
  - assert (Hdone : forall text,
              let res := {| nodeId := id node; status := completed; output := Some text;
                            error := None; exitCode := None;
                            startTime := Some (Date_now w);
                            endTime := Some (Date_now w) |} in
              (status res = completed \/ status res = failed)
              /\ is_Some (output res)
              /\ (status res = failed <-> exists c, exitCode res = Some c /\ c <> 0)
              /\ (status res = failed ->
                    Js.orElse (nodeType (data node)) (type node) = "shell"
                    /\ is_Some (error res))
              /\ (status res = completed ->
                    error res = None /\ (exitCode res = None \/ exitCode res = Some 0))).
    { intros text. cbn. split; [auto|]. split; [eauto|]. split.
      - split; [discriminate | intros (c & [=] & _)].
      - split; [discriminate | auto]. }
    destruct (String.eqb _ "trigger"); [|destruct (String.eqb _ "workdir")]; cbn [fst snd];
      (match goal with |- context [Some ?text] =>
         destruct (Hdone text) as (H1 & H2 & H3 & H4 & H5)
       end;
       split; [exact H1|]; split; [exact H2|]; split; [exact H3|];
       split; [exact H4|]; split; [exact H5|]; intros _; auto).
Qed.

(** X24: The commands after a failing command are not run: they change
    neither the result of the node nor the world. *)
Theorem runCommands_stops_at_failure (node : WorkflowNode) (cwd : string) (startTime : Z)
    (before after : list string) (outputs : list string) (lastExitCode : Z) (w : World) :
  status (fst (runCommands node cwd startTime before outputs lastExitCode w)) = failed ->
  runCommands node cwd startTime (before ++ after) outputs lastExitCode w
  = runCommands node cwd startTime before outputs lastExitCode w.
Proof.
  revert outputs lastExitCode w.
  induction before as [|command rest IH]; intros outputs code w; cbn.
  - discriminate.
  - destruct (negb (Js.truthy (Js.trim command))); [apply IH|].
    destruct (executeShellCommand command cwd w) as [[out c] w'].
    destruct (negb (c =? 0)); [reflexivity | apply IH].
Qed.

Lemma runCommands_skip_blank node cwd startTime commands : forall outputs code w,
  runCommands node cwd startTime commands outputs code w
  = runCommands node cwd startTime (List.filter (fun c => negb (blank c)) commands)
      outputs code w.
Proof.
  induction commands as [|command rest IH]; intros outputs code w; [reflexivity|].
  cbn [List.filter]. unfold blank at 1. destruct (negb (Js.truthy (Js.trim command))) eqn:Hb.
  - cbn. rewrite Hb. apply IH.
  - cbn. rewrite Hb.
    destruct (executeShellCommand command cwd w) as [[out c] w'].
    destruct (negb (c =? 0)); [reflexivity | apply IH].
Qed.

(** X25: Commands that are empty or white space are passed over: a shell node
    runs as if they were not in its list. But they count for the test for
    an empty list, so a shell node with nothing but blank commands runs
    nothing and completes with the empty output and the exit code 0, not
    with the output of a node without commands. *)
Theorem blank_commands_are_skipped (node : WorkflowNode) (rootDirectory : string)
    (w : World) :
  (forall cwd startTime commands outputs code,
     runCommands node cwd startTime commands outputs code w
     = runCommands node cwd startTime (List.filter (fun c => negb (blank c)) commands)
         outputs code w)
  /\ (forall commands,
        Js.orElse (nodeType (data node)) (type node) = "shell" ->
        Executor.commands (data node) = Some commands ->
        commands <> [] -> Forall (fun c => blank c = true) commands ->
        executeNode node rootDirectory w
        = ({| nodeId := id node; status := completed; output := Some EmptyString;
              error := None; exitCode := Some 0;
              startTime := Some (Date_now w); endTime := Some (Date_now w) |}, w)).
Proof.
  split; [intros; apply runCommands_skip_blank|].
  intros commands Hshell Hcmds Hne Hblank. unfold executeNode. cbn zeta.
  rewrite Hshell, Hcmds. cbn [String.eqb Ascii.eqb Bool.eqb].
  change (default [] (Some commands)) with commands.
  destruct commands as [|c cs]; [contradiction|]. cbn [length Nat.eqb].
  rewrite runCommands_skip_blank.
  assert (E : List.filter (fun c => negb (blank c)) (c :: cs) = []).
  { clear -Hblank. induction Hblank as [|x l Hx _ IH]; [reflexivity|].
    cbn. rewrite Hx. exact IH. }
  rewrite E. reflexivity.
Qed.

(** *** Templates that resolve to nothing *)

Lemma matchTemplate_starts s identifier matched :
  matchTemplate s = Some (identifier, matched) ->
  exists m, matched = String "{" m.
Proof.
  unfold matchTemplate.
  destruct (stripPrefix "{{" s) as [s1|]; [|discriminate]. cbn [mbind option_bind].
  destruct (span Js.isSpace s1) as [ws1 s2].
  destruct (span isIdentChar s2) as [ident s3].
  destruct (negb (Js.truthy ident)); [discriminate|].
  destruct (stripPrefix ".output" s3) as [s4|]; [|discriminate]. cbn [mbind option_bind].
  destruct (span Js.isSpace s4) as [ws2 s5].
  destruct (stripPrefix "}}" s5) as [rest|]; [|discriminate]. cbn [mbind option_bind].
  intros [= _ <-]. eexists. reflexivity.
Qed.

Lemma lookupByLabel_empty identifier labels :
  lookupByLabel identifier ∅ labels = None.
Proof.
  induction labels as [|[n l] labels IH]; [reflexivity|]. cbn [lookupByLabel].
  rewrite lookup_empty. destruct (_ || _); exact IH.
Qed.

(** Substitution with a replacement function that gives every match
    back is the identity. *)
Lemma replaceFrom_identity context :
  (forall matched identifier, resolveTemplate context matched identifier = matched) ->
  forall text, replaceFrom 0 text context = text.
Proof.
  intros Hres.
  assert (Hgen : forall n text, (String.length text <= n)%nat ->
            replaceFrom 0 text context = text).
  { induction n as [|n IH]; intros text Hlen.
    - destruct text; [reflexivity | cbn in Hlen; lia].
    - destruct text as [|c rest]; [reflexivity|]. cbn [replaceFrom].
      destruct (matchTemplate (String c rest)) as [[identifier matched]|] eqn:Hm.
      + rewrite Hres.
        destruct (matchTemplate_starts _ _ _ Hm) as [m ->].
        apply ExecutorFacts.matchTemplate_within in Hm as [tail Htail].
        rewrite ExecutorFacts.append_cons in Htail. injection Htail as -> ->.
        replace (String.length (String "{" m) - 1)%nat with (String.length m)
          by (cbn; lia).
        rewrite ExecutorFacts.replaceFrom_skip, IH.
        * reflexivity.
        * cbn in Hlen. rewrite ExecutorFacts.length_append in Hlen. lia.
      + rewrite IH; [reflexivity|]. cbn in Hlen. lia. }
  intros text. apply (Hgen (String.length text)). lia.
Qed.

Lemma matchTemplate_needs_brace c rest :
  Ascii.eqb c "{" = false -> matchTemplate (String c rest) = None.
Proof.
  intros Hc. unfold matchTemplate. cbn [stripPrefix].
  rewrite Ascii.eqb_sym, Hc. reflexivity.
Qed.

(** X26: Texts that [replaceTemplates] gives back as they are: every text, as
    long as no node has produced an output, so that the node a run starts
    with runs with its data as written; and in any context a text without
    an opening brace. *)
Theorem templates_left_alone (context : ExecutionContext) :
  (outputs context = ∅ ->
     (forall text, replaceTemplates text context = text)
     /\ forall node, processNodeTemplates node context = node)
  /\ (forall text,
        every (fun c => negb (Ascii.eqb c "{")) text = true ->
        replaceTemplates text context = text).
Proof.
  split.
  - intros Hempty.
    assert (Hid : forall text, replaceTemplates text context = text).
    { apply replaceFrom_identity. intros matched identifier. unfold resolveTemplate.
      rewrite Hempty, lookup_empty, lookupByLabel_empty. reflexivity. }
    split; [exact Hid|].
    intros [i t [l nt cmds sf p pr]]. unfold processNodeTemplates. cbn. f_equal. f_equal.
    + destruct cmds as [cmds|]; [|reflexivity]. cbn. f_equal.
      induction cmds as [|c cmds IH]; [reflexivity|]. cbn. rewrite Hid, IH. reflexivity.
    + destruct p as [p|]; [|reflexivity]. cbn. rewrite Hid.
      destruct (Js.truthy p); reflexivity.
    + destruct pr as [pr|]; [|reflexivity]. cbn. rewrite Hid.
      destruct (Js.truthy pr); reflexivity.
  - unfold replaceTemplates. induction text as [|c rest IH]; [reflexivity|].
    cbn [every]. intros H. apply andb_true_iff in H as [Hc Hrest].
    apply negb_true_iff in Hc. cbn [replaceFrom].
    rewrite (matchTemplate_needs_brace c rest Hc), (IH Hrest). reflexivity.
Qed.

(** *** The cleaned output *)

Lemma splitLines_nonempty s : Js.splitLines s <> [].
Proof.
  induction s as [|c s IH]; cbn; [discriminate|].
  destruct (Ascii.eqb c Js.LF); [discriminate|].
  destruct (Js.splitLines s); discriminate.
Qed.

Lemma join_cons sep p q rest :
  Js.join sep (p :: q :: rest) = (p ++ sep ++ Js.join sep (q :: rest))%string.
Proof. reflexivity. Qed.

(** Splitting at line feeds and joining with line feeds gives the text
    back. *)
Lemma join_splitLines s : Js.join (String Js.LF EmptyString) (Js.splitLines s) = s.
Proof.
  induction s as [|c s IH]; [reflexivity|]. cbn [Js.splitLines].
  destruct (Ascii.eqb_spec c Js.LF) as [->|Hne].
  - pose proof (splitLines_nonempty s) as Hn.
    destruct (Js.splitLines s) as [|h t]; [contradiction|].
    rewrite join_cons, IH. reflexivity.
  - pose proof (splitLines_nonempty s) as Hn.
    destruct (Js.splitLines s) as [|h t]; [contradiction|].
    destruct t as [|h' t].
    + cbn in *. rewrite IH. reflexivity.
    + rewrite join_cons in *. rewrite ExecutorFacts.append_cons, IH. reflexivity.
Qed.

Lemma splitLines_first a b :
  every (fun c => negb (Ascii.eqb c Js.LF)) a = true ->
  Js.splitLines (a ++ String Js.LF b) = a :: Js.splitLines b.
Proof.
  induction a as [|c a IH]; intros Ha.
  - reflexivity.
  - cbn [every] in Ha. apply andb_true_iff in Ha as [Hc Ha].
    apply negb_true_iff in Hc. rewrite ExecutorFacts.append_cons. cbn [Js.splitLines].
    rewrite Hc, (IH Ha). reflexivity.
Qed.

Lemma filter_all_true {A} (p : A -> bool) (l : list A) :
  Forall (fun x => p x = true) l -> List.filter p l = l.
Proof.
  induction 1 as [|x l Hx _ IH]; [reflexivity|]. cbn. rewrite Hx, IH. reflexivity.
Qed.

(** X27: What is stored for the templates of later nodes after one command:
    the output of the command without its echo line, provided the command
    has no line feed and no line of the output starts with a dollar sign
    and a space. *)
Theorem rawOutput_one_command (command out : string) :
  every (fun c => negb (Ascii.eqb c Js.LF)) command = true ->
  Forall (fun line => Js.startsWith "$ " line = false) (Js.splitLines out) ->
  rawOutput ("$ " ++ command ++ String Js.LF out) = Js.trim out.
Proof.
  intros Hcmd Hlines. unfold rawOutput.
  change ("$ " ++ command ++ String Js.LF out)%string
    with (("$ " ++ command) ++ String Js.LF out)%string.
  rewrite splitLines_first by exact Hcmd.
  assert (Hecho : Js.startsWith "$ " ("$ " ++ command) = true).
  { unfold Js.startsWith. cbn. destruct (ascii_dec "$" "$"); [|contradiction].
    destruct (ascii_dec " " " "); [|contradiction]. destruct command; reflexivity. }
  cbn [List.filter]. rewrite Hecho. cbn [negb]. rewrite filter_all_true.
  - rewrite join_splitLines. reflexivity.
  - eapply Forall_impl; [exact Hlines|]. intros line ->. reflexivity.
Qed.

(** *** The handler *)

Lemma findTriggerNodes_ids nodes edges x :
  x ∈ findTriggerNodes nodes edges -> exists n, n ∈ nodes /\ id n = x.
Proof.
  unfold findTriggerNodes. cbn zeta.
  destruct (0 <? length _)%nat; intros Hx;
    apply list_elem_of_fmap in Hx as (n & -> & Hn);
    apply TriggerFacts.elem_of_List_filter in Hn as [Hn _]; eauto.
Qed.

(** What the handler does with a request it takes. *)
Lemma execute_ok_inv req w body w' :
  execute req w = Some (ok body, w') ->
  exists nodes edges r,
    Executor.nodes req = Some nodes /\ Executor.edges req = Some edges
    /\ chosenStart req nodes edges <> []
    /\ (forall x, x ∈ chosenStart req nodes edges -> is_Some (buildNodeMap nodes !! x))
    /\ traverse (length (chosenStart req nodes edges) + length edges)
         (buildNodeMap nodes) (buildAdjacencyMap edges) (rootDirectory req)
         (initialRun nodes (chosenStart req nodes edges) w) = Some r
    /\ body = {| success := overallSuccess r; results := run_results r;
                 executionOrder := run_order r |}
    /\ w' = world r.
Proof.
  unfold execute, chosenStart.
  destruct (Executor.nodes req) as [nodes|]; [|discriminate].
  destruct (Executor.edges req) as [edges|]; [|discriminate].
  destruct (Js.truthyOpt (startNodeId req)).
  - destruct (buildNodeMap nodes !! default EmptyString (startNodeId req)) as [n|] eqn:Hn;
      [|discriminate].
    fold (initialRun nodes [default EmptyString (startNodeId req)] w).
    destruct (traverse _ _ _ _ _) as [r|] eqn:Hr; [|discriminate].
    cbn [mbind option_bind]. intros [= <- <-].
    exists nodes, edges, r. split; [reflexivity|]. split; [reflexivity|].
    split; [discriminate|]. split; [|auto].
    intros x Hx. apply list_elem_of_singleton in Hx as ->. rewrite Hn. eauto.
  - destruct (length (findTriggerNodes nodes edges) =? 0)%nat eqn:Hlen; [discriminate|].
    fold (initialRun nodes (findTriggerNodes nodes edges) w).
    destruct (traverse _ _ _ _ _) as [r|] eqn:Hr; [|discriminate].
    cbn [mbind option_bind]. intros [= <- <-].
    exists nodes, edges, r. split; [reflexivity|]. split; [reflexivity|].
    split; [|split; [|auto]].
    + intros E. rewrite E in Hlen. discriminate.
    + intros x Hx. apply findTriggerNodes_ids in Hx as (n & Hn & <-).
      apply buildNodeMap_Some. exact Hn.
Qed.

(** X28: The handler answers 400 without running anything, in exactly these
    cases: [nodes] or [edges] is not an array; a start node is named that
    is not the id of a node; no start node is named, or the empty string,
    and [findTriggerNodes] finds none. *)
Theorem execute_rejects_exactly (req : ExecuteRequest) (w : World) :
  (forall message w', execute req w = Some (badRequest message, w') -> w' = w)
  /\ ((exists message, execute req w = Some (badRequest message, w))
      <-> match Executor.nodes req, Executor.edges req with
          | Some nodes, Some edges =>
              if Js.truthyOpt (startNodeId req)
              then forall n, n ∈ nodes -> id n <> default EmptyString (startNodeId req)
              else findTriggerNodes nodes edges = []
          | _, _ => True
          end).
Proof.
  unfold execute.
  destruct (Executor.nodes req) as [nodes|];
    [|split; [intros m w' [= _ <-]; reflexivity | split; eauto]].
  destruct (Executor.edges req) as [edges|];
    [|split; [intros m w' [= _ <-]; reflexivity | split; eauto]].
  destruct (Js.truthyOpt (startNodeId req)).
  - destruct (buildNodeMap nodes !! default EmptyString (startNodeId req)) as [n|] eqn:Hn.
    + destruct (traverse _ _ _ _ _) as [r|]; cbn [mbind option_bind];
        (split; [discriminate|]; split; [intros [m [=]]|]);
        intros Hall; apply buildNodeMap_None in Hall; congruence.
    + split; [intros m w' [= _ <-]; reflexivity|]. split; [|eauto].
      intros _. apply buildNodeMap_None. exact Hn.
  - destruct (length (findTriggerNodes nodes edges) =? 0)%nat eqn:Hlen.
    + split; [intros m w' [= _ <-]; reflexivity|]. split; [|eauto].
      intros _. apply Nat.eqb_eq in Hlen. destruct (findTriggerNodes nodes edges);
        [reflexivity | discriminate].
    + destruct (traverse _ _ _ _ _) as [r|]; cbn [mbind option_bind];
        (split; [discriminate|]; split; [intros [m [=]]|]);
        intros E; rewrite E in Hlen; discriminate.
Qed.

(** *** The traversal as a whole *)

Lemma traverse_inv (Q : Run -> Prop) nodeMap adjacency rootDirectory :
  (forall r current rest,
     queue r = current :: rest -> overallSuccess r = true -> Q r ->
     Q (iteration nodeMap adjacency rootDirectory current rest r)) ->
  forall fuel r r',
    Q r -> traverse fuel nodeMap adjacency rootDirectory r = Some r' -> Q r'.
Proof.
  intros Hstep. induction fuel as [|fuel IH]; intros r r' HQ Hrun; cbn in Hrun.
  - destruct (queue r); [congruence|].
    destruct (negb (overallSuccess r)); congruence.
  - destruct (queue r) as [|current rest] eqn:Hq; [congruence|].
    destruct (overallSuccess r) eqn:Hok; cbn in Hrun; [|congruence].
    exact (IH _ _ (Hstep r current rest Hq Hok HQ) Hrun).
Qed.

Lemma adjacency_edge edges k x :
  x ∈ default [] (buildAdjacencyMap edges !! k) ->
  exists e, e ∈ edges /\ source e = k /\ target e = x.
Proof.
  rewrite ExecutorFacts.buildAdjacencyMap_lookup, list_elem_of_fmap.
  intros (e & -> & He). apply TriggerFacts.elem_of_List_filter in He as [He Hs].
  apply String.eqb_eq in Hs. eauto.
Qed.

Lemma edge_adjacency edges e :
  e ∈ edges -> target e ∈ default [] (buildAdjacencyMap edges !! source e).
Proof.
  intros He. rewrite ExecutorFacts.buildAdjacencyMap_lookup, list_elem_of_fmap.
  exists e. split; [reflexivity|]. apply TriggerFacts.elem_of_List_filter.
  split; [exact He | apply String.eqb_refl].
Qed.

Lemma iteration_Sound nodeMap edges startNodes rootDirectory current rest r :
  queue r = current :: rest ->
  Sound nodeMap edges startNodes r ->
  Sound nodeMap edges startNodes
    (iteration nodeMap (buildAdjacencyMap edges) rootDirectory current rest r).
Proof.
  intros Hq [Hord Hque].
  assert (Hrest : forall x, x ∈ rest ->
            x ∈ startNodes
            \/ exists e, e ∈ edges /\ target e = x
                         /\ reachable nodeMap edges startNodes (source e)).
  { intros x Hx. apply Hque. rewrite Hq. right. exact Hx. }
  unfold iteration.
  destruct (bool_decide (current ∈ visited r)); [constructor; assumption|].
  destruct (nodeMap !! current) as [node|] eqn:Hnode; [|constructor; assumption].
  destruct (executeNode _ _ _) as [result w].
  assert (Hcur : reachable nodeMap edges startNodes current).
  { destruct (Hque current) as [Hs|(e & He & <- & Hsrc)]; [rewrite Hq; left| |].
    - apply reachable_start; [exact Hs | rewrite Hnode; eauto].
    - apply reachable_edge; [exact He | exact Hsrc | rewrite Hnode; eauto]. }
  assert (Hord' : forall x, x ∈ (run_order r ++ [current])%list ->
            reachable nodeMap edges startNodes x).
  { intros x Hx. apply elem_of_app in Hx as [Hx|Hx]; [exact (Hord x Hx)|].
    apply list_elem_of_singleton in Hx as ->. exact Hcur. }
  destruct (status_eqb (status result) failed); constructor; cbn; try assumption.
  intros x Hx. apply elem_of_app in Hx as [Hx|Hx]; [exact (Hrest x Hx)|].
  apply TriggerFacts.elem_of_List_filter in Hx as [Hx _].
  apply adjacency_edge in Hx as (e & He & Hs & Ht). right. exists e.
  split; [exact He|]. split; [exact Ht|]. rewrite Hs. exact Hcur.
Qed.

Lemma iteration_Complete nodeMap edges startNodes rootDirectory current rest r :
  queue r = current :: rest ->
  Complete nodeMap edges startNodes r ->
  overallSuccess (iteration nodeMap (buildAdjacencyMap edges) rootDirectory current rest r)
  = true ->
  Complete nodeMap edges startNodes
    (iteration nodeMap (buildAdjacencyMap edges) rootDirectory current rest r).
Proof.
  intros Hq [Hstart Hedges Hvis]. unfold iteration.
  destruct (bool_decide (current ∈ visited r)) eqn:Hseen.
  { apply bool_decide_eq_true in Hseen. intros _. constructor; cbn.
    - intros x Hx. destruct (Hstart x Hx) as [H|H]; [auto|].
      rewrite Hq in H. apply elem_of_cons in H as [->|H]; auto.
    - intros e He Hs. destruct (Hedges e He Hs) as [H|H]; [auto|].
      rewrite Hq in H. apply elem_of_cons in H as [->|H]; auto.
    - exact Hvis. }
  apply bool_decide_eq_false in Hseen.
  assert (Hin : forall x (q : list string), x ∈ visited r \/ x ∈ queue r ->
            x ∈ {[current]} ∪ visited r \/ x ∈ (rest ++ q)%list).
  { intros x q [H|H].
    - left. apply elem_of_union. auto.
    - rewrite Hq in H. apply elem_of_cons in H as [->|H].
      + left. apply elem_of_union. left. apply elem_of_singleton. reflexivity.
      + right. apply elem_of_app. auto. }
  destruct (nodeMap !! current) as [node|] eqn:Hnode.
  2:{ intros _. constructor; cbn.
      - intros x Hx. destruct (Hin x [] (Hstart x Hx)) as [H|H]; [auto|].
        rewrite app_nil_r in H. auto.
      - intros e He Hs. destruct (Hin _ [] (Hedges e He Hs)) as [H|H]; [auto|].
        rewrite app_nil_r in H. auto.
      - intros x Hx. apply elem_of_union in Hx as [Hx|Hx]; [|exact (Hvis x Hx)].
        apply elem_of_singleton in Hx as ->. auto. }
  destruct (executeNode _ _ _) as [result w].
  destruct (status_eqb (status result) failed); cbn; [discriminate|].
  intros _. constructor; cbn.
  - intros x Hx. exact (Hin x _ (Hstart x Hx)).
  - intros e He Hs. apply elem_of_app in Hs as [Hs|Hs].
    + exact (Hin _ _ (Hedges e He Hs)).
    + apply list_elem_of_singleton in Hs.
      destruct (decide (target e ∈ {[current]} ∪ visited r)) as [Hv|Hv]; [auto|].
      right. apply elem_of_app. right. apply TriggerFacts.elem_of_List_filter. split.
      * rewrite <- Hs. apply edge_adjacency. exact He.
      * rewrite bool_decide_eq_false_2 by exact Hv. reflexivity.
  - intros x Hx. apply elem_of_union in Hx as [Hx|Hx].
    + apply elem_of_singleton in Hx as ->. left. apply elem_of_app. right. left.
    + destruct (Hvis x Hx) as [H|H]; [|auto]. left. apply elem_of_app. auto.
Qed.

Lemma iteration_keeps_first nodeMap adjacency rootDirectory current rest r first :
  (exists tail, run_order r = first :: tail) ->
  exists tail, run_order (iteration nodeMap adjacency rootDirectory current rest r)
               = first :: tail.
Proof.
  intros [tail Htail]. unfold iteration.
  destruct (bool_decide (current ∈ visited r)); [eauto|].
  destruct (nodeMap !! current) as [node|]; [|eauto].
  destruct (executeNode _ _ _) as [result w].
  destruct (status_eqb (status result) failed); cbn; rewrite Htail; eauto.
Qed.

(** X29: A run covers what can be reached and nothing else. Every node that
    was executed can be reached from a start node along edges through
    nodes of the request; when the run succeeds, every node that can be
    reached this way was executed. An edge to an id that no node has leads
    nowhere. The first node executed is the first start node, so no run
    has an empty list of results. *)
Theorem execute_runs_reachable (req : ExecuteRequest) (w : World)
    (body : ExecuteResponse) (w' : World) :
  execute req w = Some (ok body, w') ->
  exists nodes edges,
    Executor.nodes req = Some nodes /\ Executor.edges req = Some edges
    /\ (forall x, x ∈ executionOrder body ->
          reachable (buildNodeMap nodes) edges (chosenStart req nodes edges) x)
    /\ (success body = true ->
          forall x, reachable (buildNodeMap nodes) edges (chosenStart req nodes edges) x ->
                    x ∈ executionOrder body)
    /\ head (executionOrder body) = head (chosenStart req nodes edges)
    /\ results body <> [].
Proof.
  intros Hexec.
  destruct (execute_ok_inv req w body w' Hexec)
    as (nodes & edges & r & Hn & He & Hne & Hknown & Hrun & -> & _).
  exists nodes, edges. split; [exact Hn|]. split; [exact He|]. cbn.
  set (startNodes := chosenStart req nodes edges) in *.
  set (nodeMap := buildNodeMap nodes) in *.
  assert (Hmap : forall k n, nodeMap !! k = Some n -> id n = k).
  { intros k n Hk. apply (ExecutorFacts.buildNodeMap_lookup nodes k n Hk). }
  assert (Hgood : Good nodeMap r).
  { eapply ExecutorFacts.traverse_Good; [exact Hmap | apply ExecutorFacts.Good_initial | exact Hrun]. }
  assert (Hsound : Sound nodeMap edges startNodes r).
  { apply (traverse_inv (Sound nodeMap edges startNodes) nodeMap (buildAdjacencyMap edges)
             (rootDirectory req)) with (3 := Hrun).
    - intros r0 current rest Hq _ Hs. apply iteration_Sound; assumption.
    - constructor; cbn; [intros x Hx; inversion Hx | auto]. }
  assert (Hcomplete : overallSuccess r = true -> Complete nodeMap edges startNodes r).
  { apply (traverse_inv (fun r => overallSuccess r = true -> Complete nodeMap edges startNodes r)
             nodeMap (buildAdjacencyMap edges) (rootDirectory req)) with (3 := Hrun).
    - intros r0 current rest Hq Hok Hc Hok'.
      apply iteration_Complete; [exact Hq | exact (Hc Hok) | exact Hok'].
    - intros _. constructor; cbn.
      + auto.
      + intros e _ Hx. inversion Hx.
      + intros x Hx. apply not_elem_of_empty in Hx. contradiction. }
  assert (Hfirst : exists first tail,
            startNodes = first :: tail /\ exists rest, run_order r = first :: rest).
  { destruct startNodes as [|first tail] eqn:Hs; [contradiction|].
    exists first, tail. split; [reflexivity|].
    destruct (Hknown first ltac:(left)) as [node Hnode].
    cbn [length Nat.add traverse] in Hrun. cbn [queue initialRun overallSuccess negb] in Hrun.
    apply (traverse_inv (fun r => exists rest, run_order r = first :: rest)
             nodeMap (buildAdjacencyMap edges) (rootDirectory req)) with (3 := Hrun).
    - intros r0 current rest _ _ H. apply iteration_keeps_first. exact H.
    - unfold iteration. cbn [visited initialRun].
      rewrite bool_decide_eq_false_2 by apply not_elem_of_empty.
      fold nodeMap. rewrite Hnode.
      destruct (executeNode _ _ _) as [result w0].
      destruct (status_eqb (status result) failed); cbn; eauto. }
  split; [exact (sound_order _ _ _ _ Hsound)|]. split; [|split].
  - intros Hok x Hx. specialize (Hcomplete Hok).
    assert (Hq : queue r = []).
    { destruct (ExecutorFacts.traverse_stops _ _ _ _ _ _ Hrun) as [H|H]; [exact H | congruence]. }
    assert (Hdone : forall y, y ∈ visited r \/ y ∈ queue r -> is_Some (nodeMap !! y) ->
              y ∈ run_order r).
    { intros y [Hy|Hy] [n Hsome].
      - destruct (complete_visited _ _ _ _ Hcomplete y Hy); [assumption | congruence].
      - rewrite Hq in Hy. inversion Hy. }
    induction Hx as [x Hs Hsome|e Hin _ IH Hsome].
    + exact (Hdone x (complete_start _ _ _ _ Hcomplete x Hs) Hsome).
    + exact (Hdone _ (complete_edges _ _ _ _ Hcomplete e Hin IH) Hsome).
  - destruct Hfirst as (first & tail & -> & rest & ->). reflexivity.
  - destruct Hfirst as (first & tail & _ & rest & Hrest).
    pose proof (good_ids _ _ Hgood) as Hids. rewrite Hrest in Hids.
    intros E. rewrite E in Hids. discriminate.
Qed.

Lemma iteration_statuses nodeMap adjacency rootDirectory current rest r :
  Forall (fun res => status res = completed \/ status res = failed) (run_results r) ->
  Forall (fun res => status res = completed \/ status res = failed)
    (run_results (iteration nodeMap adjacency rootDirectory current rest r)).
Proof.
  intros Hall. unfold iteration.
  destruct (bool_decide (current ∈ visited r)); [exact Hall|].
  destruct (nodeMap !! current) as [node|]; [|exact Hall].
  destruct (executeNode _ _ _) as [result w] eqn:Hexec.
  assert (Hres : status result = completed \/ status result = failed).
  { match type of Hexec with executeNode ?n ?d ?w0 = _ =>
      pose proof (runCommands_outcome n) as Hrc;
      assert (H : status (fst (executeNode n d w0)) = completed
                  \/ status (fst (executeNode n d w0)) = failed)
    end.
    { unfold executeNode. cbn zeta.
      destruct (String.eqb _ "shell").
      - destruct (length _ =? 0)%nat; [left; reflexivity|].
        match goal with |- context [runCommands ?n ?c ?s ?cs [] 0 ?w0] =>
          destruct (Hrc c s cs [] w0) as (_ & [(-> & _)|(-> & _)])
        end; auto.
      - destruct (String.eqb _ "trigger"); [left; reflexivity|].
        destruct (String.eqb _ "workdir"); left; reflexivity. }
    rewrite Hexec in H. exact H. }
  destruct (status_eqb (status result) failed); cbn;
    (apply Forall_app; split; [exact Hall | constructor; [exact Hres | constructor]]).
Qed.

(** X30: In a response with results every result is completed or failed, and
    [success] is true exactly when all of them are completed. *)
Theorem execute_success_iff (req : ExecuteRequest) (w : World)
    (body : ExecuteResponse) (w' : World) :
  execute req w = Some (ok body, w') ->
  Forall (fun res => status res = completed \/ status res = failed) (results body)
  /\ (success body = true
      <-> Forall (fun res => status res = completed) (results body)).
Proof.
  intros Hexec.
  destruct (execute_ok_inv req w body w' Hexec)
    as (nodes & edges & r & _ & _ & _ & _ & Hrun & -> & _). cbn.
  assert (Hmap : forall k n, buildNodeMap nodes !! k = Some n -> id n = k).
  { intros k n Hk. apply (ExecutorFacts.buildNodeMap_lookup nodes k n Hk). }
  assert (Hgood : Good (buildNodeMap nodes) r).
  { eapply ExecutorFacts.traverse_Good; [exact Hmap | apply ExecutorFacts.Good_initial | exact Hrun]. }
  assert (Hall : Forall (fun res => status res = completed \/ status res = failed)
                   (run_results r)).
  { apply (traverse_inv
             (fun r => Forall (fun res => status res = completed \/ status res = failed)
                         (run_results r))
             (buildNodeMap nodes) (buildAdjacencyMap edges) (rootDirectory req))
      with (3 := Hrun).
    - intros r0 current rest _ _ H. apply iteration_statuses. exact H.
    - constructor. }
  split; [exact Hall|]. split.
  - intros Hok. pose proof (good_success _ _ Hgood Hok) as Hnf.
    rewrite Forall_forall in *. intros res Hres.
    destruct (Hall res Hres) as [H|H]; [exact H|]. exfalso. exact (Hnf res Hres H).
  - intros Hdone. destruct (overallSuccess r) eqn:Hok; [reflexivity|].
    destruct (good_failure _ _ Hgood Hok) as (before & res & Hres & Hfailed & _).
    rewrite Forall_forall in Hdone.
    assert (Hc : status res = completed).
    { apply Hdone. rewrite Hres. apply elem_of_app. right. left. }
    congruence.
Qed.

End Workflow.

(** *** The properties at the graphs of the examples *)

Import ShellScenario.

Lemma runCommands_stops_at_failure_witness :
  runCommands (host := shHost) (shellNode "shellA" None ["false"; "echo never"])
    "/work" 0 (["false"] ++ ["echo never"]) [] 0 w0
  = runCommands (host := shHost) (shellNode "shellA" None ["false"; "echo never"])
      "/work" 0 ["false"] [] 0 w0.
Proof.
  apply (runCommands_stops_at_failure (host := shHost)
           (shellNode "shellA" None ["false"; "echo never"]) "/work" 0
           ["false"] ["echo never"] [] 0 w0).
  reflexivity.
Defined.

Lemma rawOutput_one_command_witness :
  rawOutput ("$ " ++ "echo hello" ++ String Js.LF "hello") = Js.trim "hello".
Proof.
  apply (rawOutput_one_command "echo hello" "hello").
  - reflexivity.
  - repeat constructor.
Defined.

Lemma execute_runs_reachable_witness :
  exists nodes edges,
    nodes = [triggerNode "trigger"; shellNode "shellA" None ["false"];
             shellNode "shellB" None ["echo never"]]
    /\ edges = [edge "trigger" "shellA"; edge "shellA" "shellB"]
    /\ forall x, x ∈ ["trigger"; "shellA"] ->
         reachable (buildNodeMap nodes) edges (chosenStart failingChain nodes edges) x.
Proof.
  destruct (execute_runs_reachable (host := shHost) failingChain w0 _ _ eq_refl)
    as (nodes & edges & Hn & He & Hreach & _).
  exists nodes, edges.
  split; [injection Hn as <-; reflexivity|].
  split; [injection He as <-; reflexivity|].
  exact Hreach.
Defined.

Lemma execute_success_iff_witness :
  exists body w,
    execute (host := shHost) templateChain w0 = Some (ok body, w)
    /\ (success body = true
        <-> Forall (fun res => status res = completed) (results body)).
Proof.
  eexists _, _. split; [reflexivity|].
  exact (proj2 (execute_success_iff (host := shHost) templateChain w0 _ _ eq_refl)).
Defined.

(** A shell node whose commands are all blank runs nothing. *)
Example blank_shell_node :
  executeNode (host := shHost) (shellNode "shellA" None [" "; EmptyString]) "/work" w0
  = ({| nodeId := "shellA"; status := completed; output := Some EmptyString;
        error := None; exitCode := Some 0; startTime := Some 0; endTime := Some 0 |}, w0).
Proof. vm_compute. reflexivity. Qed.

(** Two triggers and a node without incoming edges: the run starts at the
    triggers only. *)
Example explicit_triggers_win :
  findTriggerNodes
    [triggerNode "t1"; shellNode "lonely" None []; triggerNode "t2"]
    [edge "t1" "t2"]
  = ["t1"; "t2"].
Proof. vm_compute. reflexivity. Qed.

End WorkflowFacts.
